(** * kivi: memtable, arena and write-ahead-log record codec

    A shallow embedding of the Go packages [internal/memtable] and
    [internal/wal], and the properties of the engine's specification
    checked against it.

    Conventions of the embedding.
    - A Go [[]byte] and a Go [string] are both sequences of bytes: they are
      modelled by [list byte].  [string(key)] and [[]byte(k)] copy the
      contents and are the identity on this representation.
    - Go's [int] is 64 bits wide; a length is a [nat], and the byte counter
      of the memtable is a [Z] wrapped to 64 bits after each addition.
    - [uint32] and [uint64] values are [Z]s, reduced modulo [2^32] or
      [2^64] where the code computes with them.
    - A run-time panic (index or slice bounds out of range) is an explicit
      outcome of the functions that can raise one. *)

From Stdlib Require Import ZArith NArith List Lia Bool.
From Stdlib Require Import Strings.String Strings.Byte.
From Stdlib Require Import Sorting.Sorted Sorting.Permutation.
From stdpp Require Import base countable gmap list.

Local Open Scope nat_scope.

(** ** Byte strings and their order *)

Abbreviation bytes := (list byte).

(** The helper [b] of the Go tests: the bytes of a string literal. *)
Definition b (s : string) : bytes := list_byte_of_string s.

#[global] Instance byte_eq_dec : EqDecision byte := Byte.byte_eq_dec.

#[global] Program Instance byte_countable : Countable byte :=
  inj_countable Byte.to_N Byte.of_N _.
Next Obligation. intros x. apply Byte.of_to_N. Qed.

(** [clone] of the Go sources: a fresh slice with the same contents. *)
Definition clone (bz : bytes) : bytes := bz.

(** Go compares strings byte by byte; a proper prefix is smaller. *)
Fixpoint bytes_compare (x y : bytes) : comparison :=
  match x, y with
  | [], [] => Eq
  | [], _ :: _ => Lt
  | _ :: _, [] => Gt
  | c :: x', d :: y' =>
      match N.compare (Byte.to_N c) (Byte.to_N d) with
      | Eq => bytes_compare x' y'
      | r => r
      end
  end.

Definition bytes_ltb (x y : bytes) : bool :=
  match bytes_compare x y with Lt => true | _ => false end.

Definition bytes_leb (x y : bytes) : bool :=
  match bytes_compare x y with Gt => false | _ => true end.

Definition bytes_eqb (x y : bytes) : bool :=
  match bytes_compare x y with Eq => true | _ => false end.

Definition bytes_lt (x y : bytes) : Prop := bytes_compare x y = Lt.

(** ** Errors *)

(** The error values the two packages create or test for. *)
Inductive error : Type :=
| io_EOF
| io_ErrUnexpectedEOF
| errChecksumMismatch
| errors_New (msg : string).

(** ** The arena allocator (arena.go) *)

Module Arena.

Record t : Type := mk { buf : bytes; off : nat }.

(** [make([]byte, n)]: [n] zero bytes. *)
Definition make (n : nat) : bytes := repeat x00 n.

Definition NewArena (capacity : nat) : t :=
  {| buf := make capacity; off := 0 |}.

(** The loop [for cap < need { cap *= 2 }]. *)
Fixpoint grow (fuel cap need : nat) : nat :=
  match fuel with
  | 0 => cap
  | S fuel' => if cap <? need then grow fuel' (cap * 2) need else cap
  end.

(** [copy(dst[pos:], src)] for a [src] that fits. *)
Definition write_at (dst : bytes) (pos : nat) (src : bytes) : bytes :=
  firstn pos dst ++ src ++ skipn (pos + length src) dst.

Definition ensure (a : t) (n : nat) : t :=
  if n <=? length (buf a) - off a then a
  else
    let need := off a + n in
    let cap := length (buf a) in
    let cap := if cap =? 0 then 1024 else cap in
    let cap := grow need cap need in
    let nb := make cap in
    let nb := write_at nb 0 (firstn (off a) (buf a)) in
    {| buf := nb; off := off a |}.

(** [Alloc] returns the arena and the bounds of the slice it hands out. *)
Definition Alloc (a : t) (n : nat) : t * (nat * nat) :=
  let a := ensure a n in
  let start := off a in
  let a := {| buf := buf a; off := off a + n |} in
  (a, (start, off a)).

(** The contents of [a.buf[start:stop]]. *)
Definition slice (a : t) (bounds : nat * nat) : bytes :=
  firstn (snd bounds - fst bounds) (skipn (fst bounds) (buf a)).

Definition Copy (a : t) (src : bytes) : t * bytes :=
  let '(a, bounds) := Alloc a (length src) in
  let a := {| buf := write_at (buf a) (fst bounds) src; off := off a |} in
  (a, slice a bounds).

(** The write offset never passes the end of the buffer. *)
Definition wf (a : t) : Prop := off a <= length (buf a).

End Arena.

(** ** The ordered table (memtable.go, type Skiplist) *)

Record entry : Type := mkEntry {
  seq : N;
  value : bytes;
  deleted : bool
}.

(** [sort.Strings]: the keys in ascending order. *)
Fixpoint insert_sorted (k : bytes) (l : list bytes) : list bytes :=
  match l with
  | [] => [k]
  | h :: t => if bytes_leb k h then k :: l else h :: insert_sorted k t
  end.

Definition sort_Strings (l : list bytes) : list bytes :=
  fold_right insert_sorted [] l.

(** The binary search of [sort.Search] and of [Iterator.SeekGE]:
    [for lo < hi { mid := (lo+hi)/2; if keys[mid] < target { lo = mid+1 }
    else { hi = mid } }]. *)
Fixpoint search_loop (fuel : nat) (keys : list bytes) (target : bytes)
    (lo hi : nat) : nat :=
  match fuel with
  | 0 => lo
  | S fuel' =>
      if lo <? hi then
        let mid := (lo + hi) / 2 in
        if bytes_ltb (nth mid keys []) target
        then search_loop fuel' keys target (mid + 1) hi
        else search_loop fuel' keys target lo mid
      else lo
  end.

Definition sort_SearchStrings (keys : list bytes) (x : bytes) : nat :=
  search_loop (length keys) keys x 0 (length keys).

(** A write on a table, as a value: [Put(key, val, seq)] or
    [Delete(key, seq)]. *)
Inductive op : Type :=
| OpPut (key val : bytes) (sq : N)
| OpDelete (key : bytes) (sq : N).

Definition op_key (o : op) : bytes :=
  match o with OpPut k _ _ => k | OpDelete k _ => k end.

Definition op_seq (o : op) : N :=
  match o with OpPut _ _ s => s | OpDelete _ s => s end.

(** What a read of the key sees when [o] is the write that counts. *)
Definition op_visible (o : op) : option bytes :=
  match o with OpPut _ v _ => Some v | OpDelete _ _ => None end.

(** The entry a write stores when it is accepted. *)
Definition entry_of (o : op) : entry :=
  match o with
  | OpPut _ v sq => mkEntry sq v false
  | OpDelete _ sq => mkEntry sq [] true
  end.

(** The key and sequence number of a write. *)
Definition op_tag (o : op) : bytes * N := (op_key o, op_seq o).

(** ** The snapshot iterator (memtable.go, type Iterator) *)

Module Iterator.

Record t : Type := mk {
  keys : list bytes;
  vals : list bytes;
  idx : Z
}.

Definition Next (it : t) : t :=
  {| keys := keys it; vals := vals it; idx := (idx it + 1)%Z |}.

Definition SeekGE (it : t) (target : bytes) : t :=
  let lo := search_loop (length (keys it)) (keys it) target 0 (length (keys it)) in
  Next {| keys := keys it; vals := vals it; idx := (Z.of_nat lo - 1)%Z |}.

Definition Valid (it : t) : bool :=
  ((0 <=? idx it) && (idx it <? Z.of_nat (length (keys it))))%Z.

(** [it.keys[it.idx]]; [None] is the index-out-of-range panic. *)
Definition Key (it : t) : option bytes :=
  if (0 <=? idx it)%Z then nth_error (keys it) (Z.to_nat (idx it)) else None.

Definition Value (it : t) : option bytes :=
  if (0 <=? idx it)%Z then nth_error (vals it) (Z.to_nat (idx it)) else None.

(** The pairs of the snapshot from the position of the iterator on. *)
Definition rest (it : t) : list (bytes * bytes) :=
  skipn (Z.to_nat (idx it)) (combine (keys it) (vals it)).

(** An iterator as [SeekGE] leaves it: the two slices have one length
    and the position is not before the first pair. *)
Definition in_step (it : t) : Prop :=
  length (keys it) = length (vals it) /\ (0 <= idx it)%Z.

(** The client loop [for it.Valid() { got = append(got, kv{Key, Value});
    it.Next() }].  [None]: a panic, or the fuel ran out. *)
Fixpoint drain (fuel : nat) (it : t) : option (list (bytes * bytes)) :=
  match fuel with
  | 0 => None
  | S fuel' =>
      if Valid it then
        match Key it, Value it with
        | Some k, Some v =>
            match drain fuel' (Next it) with
            | Some rest => Some ((clone k, clone v) :: rest)
            | None => None
            end
        | _, _ => None
        end
      else Some []
  end.

End Iterator.

Module Skiplist.

Record t : Type := mk {
  entries : gmap bytes entry;
  keys : list bytes;
  arena : option Arena.t
}.

Definition NewSkiplist (arena : option Arena.t) : t :=
  {| entries := ∅; keys := []; arena := arena |}.

Definition keyPresent (s : t) (k : bytes) : bool :=
  let i := sort_SearchStrings (keys s) k in
  (i <? length (keys s)) && bytes_eqb (nth i (keys s) []) k.

Definition sortKeys (s : t) : t :=
  {| entries := entries s; keys := sort_Strings (keys s); arena := arena s |}.

(** The guard shared by [Put] and [Delete]:
    [if cur, ok := s.entries[k]; ok { if seq <= cur.seq { return nil } }]. *)
Definition stale (s : t) (k : bytes) (sq : N) : bool :=
  match entries s !! k with
  | Some cur => (sq <=? seq cur)%N
  | None => false
  end.

(** The tail shared by [Put] and [Delete]: track the key. *)
Definition track (s : t) (k : bytes) : t :=
  if negb (keyPresent s k) then
    sortKeys {| entries := entries s; keys := keys s ++ [k]; arena := arena s |}
  else s.

Definition Put (s : t) (key val : bytes) (sq : N) : t * option error :=
  let k := key in
  if stale s k sq then (s, None)
  else
    let '(ar, stored) :=
      match arena s with
      | Some a => let '(a', st) := Arena.Copy a val in (Some a', st)
      | None => (None, clone val)
      end in
    let s := {| entries := <[k := mkEntry sq stored false]> (entries s);
                keys := keys s; arena := ar |} in
    (track s k, None).

Definition Delete (s : t) (key : bytes) (sq : N) : t * option error :=
  let k := key in
  if stale s k sq then (s, None)
  else
    let s := {| entries := <[k := mkEntry sq [] true]> (entries s);
                keys := keys s; arena := arena s |} in
    (track s k, None).

Definition Get (s : t) (key : bytes) : option bytes :=
  let k := key in
  match entries s !! k with
  | Some e => if deleted e then None else Some (clone (value e))
  | None => None
  end.

(** [NewIterator]: the loop over [s.keys] that copies out the entries
    that are present and not deleted. *)
Fixpoint snapshot (m : gmap bytes entry) (ks : list bytes)
    : list bytes * list bytes :=
  match ks with
  | [] => ([], [])
  | k :: ks' =>
      let '(keys, vals) := snapshot m ks' in
      match m !! k with
      | Some e =>
          if negb (deleted e) then (k :: keys, clone (value e) :: vals)
          else (keys, vals)
      | None => (keys, vals)
      end
  end.

Definition NewIterator (s : t) : Iterator.t :=
  let '(keys, vals) := snapshot (entries s) (keys s) in
  {| Iterator.keys := keys; Iterator.vals := vals; Iterator.idx := (-1)%Z |}.

(** A run of writes, in the order of the calls. *)
Definition apply (s : t) (o : op) : t :=
  match o with
  | OpPut k v sq => fst (Put s k v sq)
  | OpDelete k sq => fst (Delete s k sq)
  end.

Definition run (ops : list op) (s : t) : t := fold_left apply ops s.

(** The program of the snapshot test: take an iterator, seek to the
    start, write to the table, and only then drain the iterator. *)
Definition snapshot_then_write (s : t) (later : list op)
    : t * option (list (bytes * bytes)) :=
  let it := NewIterator s in
  let it := Iterator.SeekGE it [] in
  let s := run later s in
  (s, Iterator.drain (S (length (Iterator.keys it))) it).

(** The state a table is in: the key slice is strictly ascending and
    lists exactly the keys of the map, and the arena is well formed. *)
Definition wf (s : t) : Prop :=
  StronglySorted bytes_lt (keys s)
  /\ (forall k, In k (keys s) <-> is_Some (entries s !! k))
  /\ (forall a, arena s = Some a -> Arena.wf a).

End Skiplist.

(** ** The two-generation controller (memtable.go, type Memtable) *)

(** Go's [int] on the 64-bit targets: two's complement wrap-around. *)
Definition int_wrap (z : Z) : Z := ((z + 2 ^ 63) mod 2 ^ 64 - 2 ^ 63)%Z.

Definition int_add (x y : Z) : Z := int_wrap (x + y).

Definition len (x : bytes) : Z := Z.of_nat (length x).

Module Memtable.

Record t : Type := mk {
  current : Skiplist.t;
  imm : option Skiplist.t;
  threshold : Z;
  arenaCap : nat;
  sizeBytes : Z
}.

Definition NewMemtable (threshold : Z) : t :=
  {| current := Skiplist.NewSkiplist (Some (Arena.NewArena (Nat.shiftl 1 20)));
     imm := None;
     threshold := threshold;
     arenaCap := Nat.shiftl 1 20;
     sizeBytes := 0 |}.

(** The first half of [Put]: seal the current table when the projected
    size passes the threshold and the immutable slot is free. *)
Definition flip (m : t) (key val : bytes) : t :=
  let projected := int_add (int_add (sizeBytes m) (len key)) (len val) in
  if (match imm m with None => true | Some _ => false end)
     && (0 <? threshold m)%Z && (threshold m <? projected)%Z
  then {| current := Skiplist.NewSkiplist (Some (Arena.NewArena (arenaCap m)));
          imm := Some (current m);
          threshold := threshold m;
          arenaCap := arenaCap m;
          sizeBytes := 0 |}
  else m.

Definition Put (m : t) (key val : bytes) (sq : N) : t * option error :=
  let m := flip m key val in
  let '(cur, err) := Skiplist.Put (current m) key val sq in
  let size :=
    match err with
    | None => int_add (sizeBytes m) (int_add (len key) (len val))
    | Some _ => sizeBytes m
    end in
  ({| current := cur; imm := imm m; threshold := threshold m;
      arenaCap := arenaCap m; sizeBytes := size |}, None).

Definition Delete (m : t) (key : bytes) (sq : N) : t * option error :=
  let '(cur, err) := Skiplist.Delete (current m) key sq in
  ({| current := cur; imm := imm m; threshold := threshold m;
      arenaCap := arenaCap m; sizeBytes := sizeBytes m |}, err).

Definition Get (m : t) (key : bytes) : option bytes :=
  let cur := current m in
  let imm := imm m in
  match Skiplist.Get cur key with
  | Some v => Some v
  | None =>
      match imm with
      | Some i => Skiplist.Get i key
      | None => None
      end
  end.

Definition HasImmutable (m : t) : bool :=
  match imm m with Some _ => true | None => false end.

Definition PopImmutable (m : t) : t * option Skiplist.t :=
  ({| current := current m; imm := None; threshold := threshold m;
      arenaCap := arenaCap m; sizeBytes := sizeBytes m |}, imm m).

Definition apply (m : t) (o : op) : t :=
  match o with
  | OpPut k v sq => fst (Put m k v sq)
  | OpDelete k sq => fst (Delete m k sq)
  end.

Definition run (ops : list op) (m : t) : t := fold_left apply ops m.


(** The bytes that the puts of a run carry: keys and values, the deletes
    left out. *)
Fixpoint put_bytes (ops : list op) : Z :=
  match ops with
  | [] => 0
  | OpPut k v _ :: ops' => (len k + len v + put_bytes ops')%Z
  | OpDelete _ _ :: ops' => put_bytes ops'
  end.

End Memtable.

(** ** The merged iterator (memtable.go, type mergedIterator) *)

Module mergedIterator.

Record t : Type := mk {
  curIt : option Iterator.t;
  immIt : option Iterator.t;
  curK : option bytes;
  immK : option bytes;
  curV : option bytes;
  immV : option bytes;
  valid : bool
}.

Definition NewIterator (m : Memtable.t) : t :=
  let cur := Skiplist.NewIterator (Memtable.current m) in
  let imm := option_map Skiplist.NewIterator (Memtable.imm m) in
  {| curIt := Some cur; immIt := imm; curK := None; immK := None;
     curV := None; immV := None; valid := false |}.

(** The key and value under a component iterator, when it is there and
    valid; [(nil, nil)] otherwise. *)
Definition peek (o : option Iterator.t) : option bytes * option bytes :=
  match o with
  | Some i => if Iterator.Valid i then (Iterator.Key i, Iterator.Value i)
              else (None, None)
  | None => (None, None)
  end.

(** The pairs that a component iterator still has to give. *)
Definition pending (o : option Iterator.t) : list (bytes * bytes) :=
  match o with
  | Some i => Iterator.rest i
  | None => []
  end.

Definition advance (it : t) : t :=
  let '(ck, cv) := peek (curIt it) in
  let '(ik, iv) := peek (immIt it) in
  let v :=
    match ck, ik with
    | None, None => false
    | _, _ => true
    end in
  {| curIt := curIt it; immIt := immIt it; curK := ck; immK := ik;
     curV := cv; immV := iv; valid := v |}.

Definition SeekGE (it : t) (key : bytes) : t :=
  let c := option_map (fun i => Iterator.SeekGE i key) (curIt it) in
  let i := option_map (fun i => Iterator.SeekGE i key) (immIt it) in
  advance {| curIt := c; immIt := i; curK := curK it; immK := immK it;
             curV := curV it; immV := immV it; valid := valid it |}.

Definition Valid (it : t) : bool := valid it.

Definition Key (it : t) : option bytes :=
  match curK it with
  | Some k => Some k
  | None => immK it
  end.

Definition Value (it : t) : option bytes :=
  match curK it with
  | Some _ => curV it
  | None => immV it
  end.

(** [string(x)] of a possibly nil slice. *)
Definition str (o : option bytes) : bytes :=
  match o with Some x => x | None => [] end.

(** Skip the entry under a component iterator when its key is [chosen]. *)
Definition skip_dup (o : option Iterator.t) (chosen : bytes)
    : option Iterator.t :=
  match o with
  | Some i =>
      if Iterator.Valid i && bytes_eqb (str (Iterator.Key i)) chosen
      then Some (Iterator.Next i) else Some i
  | None => None
  end.

(** [None] is the nil-pointer panic of [it.curIt.Next()] or
    [it.immIt.Next()] on an absent component iterator. *)
Definition advanceFromCurrentKey (it : t) : option t :=
  if negb (valid it) then Some it
  else
    let pick_cur :=
      match curK it with
      | Some ck =>
          match immK it with
          | None => true
          | Some ik => bytes_leb ck ik
          end
      | None => false
      end in
    let stepped :=
      if pick_cur then
        match curIt it with
        | Some c => Some (str (curK it), Some (Iterator.Next c), immIt it)
        | None => None
        end
      else
        match immIt it with
        | Some i => Some (str (immK it), curIt it, Some (Iterator.Next i))
        | None => None
        end in
    match stepped with
    | Some (chosen, c, i) =>
        let c := skip_dup c chosen in
        let i := skip_dup i chosen in
        Some (advance {| curIt := c; immIt := i; curK := curK it;
                         immK := immK it; curV := curV it; immV := immV it;
                         valid := valid it |})
    | None => None
    end.

Definition Next (it : t) : option t := advanceFromCurrentKey it.

(** The client loop [for it.Valid() { keys = append(keys, it.Key());
    vals = append(vals, it.Value()); it.Next() }]. *)
Fixpoint drain (fuel : nat) (it : t) : option (list (bytes * bytes)) :=
  match fuel with
  | 0 => None
  | S fuel' =>
      if Valid it then
        match Next it with
        | Some it' =>
            match drain fuel' it' with
            | Some rest => Some ((str (Key it), str (Value it)) :: rest)
            | None => None
            end
        | None => None
        end
      else Some []
  end.

End mergedIterator.

(** ** The record codec (record.go) *)

(** What a call produces: a result, an error value, or a run-time panic. *)
Inductive outcome (A : Type) : Type :=
| Ok (a : A)
| Err (e : error)
| Panic.
Arguments Ok {A} a.
Arguments Err {A} e.
Arguments Panic {A}.

Definition Z_of_byte (x : byte) : Z := Z.of_N (Byte.to_N x).

(** The conversion [byte(z)]: the low eight bits. *)
Definition byte_of_Z (z : Z) : byte :=
  match Byte.of_N (Z.to_N (z mod 256)) with
  | Some x => x
  | None => x00
  end.

Definition uint32 (z : Z) : Z := (z mod 2 ^ 32)%Z.

(** [s[lo:hi]] of a sequence that is long enough. *)
Definition sub (s : bytes) (lo hi : nat) : bytes :=
  firstn (hi - lo) (skipn lo s).

(** [encoding/binary], [BigEndian]. *)
Module BigEndian.

Definition PutUint32 (v : Z) : bytes :=
  [byte_of_Z (Z.shiftr v 24); byte_of_Z (Z.shiftr v 16);
   byte_of_Z (Z.shiftr v 8); byte_of_Z v].

Definition PutUint64 (v : Z) : bytes :=
  [byte_of_Z (Z.shiftr v 56); byte_of_Z (Z.shiftr v 48);
   byte_of_Z (Z.shiftr v 40); byte_of_Z (Z.shiftr v 32);
   byte_of_Z (Z.shiftr v 24); byte_of_Z (Z.shiftr v 16);
   byte_of_Z (Z.shiftr v 8); byte_of_Z v].

(** The value of a big-endian byte sequence. *)
Definition be (bs : bytes) : Z :=
  fold_left (fun acc x => Z.lor (Z.shiftl acc 8) (Z_of_byte x)) bs 0%Z.

Definition Uint32 (bs : bytes) : Z := be (firstn 4 bs).

Definition Uint64 (bs : bytes) : Z := be (firstn 8 bs).

End BigEndian.

(** [hash/crc32], [ChecksumIEEE]: the CRC-32 of IEEE 802.3, bit by bit
    (reflected polynomial [0xedb88320], initial value and final
    complement [0xffffffff]). *)
Module crc32.

Definition IEEE : Z := 0xedb88320%Z.

Definition shift (c : Z) : Z :=
  if Z.odd c then Z.lxor (Z.shiftr c 1) IEEE else Z.shiftr c 1.

Definition step (c : Z) (x : byte) : Z :=
  Nat.iter 8 shift (Z.lxor c (Z_of_byte x)).

Definition update (c : Z) (p : bytes) : Z := fold_left step p c.

Definition ChecksumIEEE (p : bytes) : Z :=
  Z.lxor (update 0xffffffff%Z p) 0xffffffff%Z.

End crc32.

(** The values of a [uint32]. *)
Definition word32 (c : Z) : Prop := (0 <= c < 2 ^ 32)%Z.

Module wal.

(** [type RecordType byte]. *)
Definition RecordPut : byte := x00.
Definition RecordDelete : byte := x01.

Record Record_ : Type := mkRecord {
  Type_ : byte;
  Key : bytes;
  Value : bytes;
  SeqNum : Z
}.

(** A [[]byte] value: its [len] elements, and the elements of its backing
    array between [len] and [cap], which a slice expression can reach. *)
Record buffer : Type := mkBuffer {
  data : bytes;
  spare : bytes
}.

(** A buffer whose capacity is its length, as [make] returns it. *)
Definition exact (l : bytes) : buffer := {| data := l; spare := [] |}.

Definition Encode (r : Record_) : bytes :=
  let payloadSize := 1 + 8 + 4 + length (Key r) + 4 + length (Value r) in
  let totalSize := 4 + 4 + payloadSize in
  let buf := Arena.make totalSize in
  let buf := Arena.write_at buf 0
               (BigEndian.PutUint32 (uint32 (Z.of_nat payloadSize))) in
  let pos := 8 in
  let buf := Arena.write_at buf pos [Type_ r] in
  let pos := pos + 1 in
  let buf := Arena.write_at buf pos (BigEndian.PutUint64 (SeqNum r)) in
  let pos := pos + 8 in
  let buf := Arena.write_at buf pos
               (BigEndian.PutUint32 (uint32 (len (Key r)))) in
  let pos := pos + 4 in
  let buf := Arena.write_at buf pos (Key r) in
  let pos := pos + length (Key r) in
  let buf := Arena.write_at buf pos
               (BigEndian.PutUint32 (uint32 (len (Value r)))) in
  let pos := pos + 4 in
  let buf := Arena.write_at buf pos (Value r) in
  let checksum := crc32.ChecksumIEEE (skipn 8 buf) in
  let buf := Arena.write_at buf 4 (BigEndian.PutUint32 checksum) in
  buf.

Definition Decode (buf : buffer) : outcome Record_ :=
  let n := length (data buf) in
  let all := data buf ++ spare buf in
  let cap := length all in
  if n <? 8 then Err (errors_New "record too short")
  else
    let payloadLen := BigEndian.Uint32 (sub all 0 4) in
    let checksum := BigEndian.Uint32 (sub all 4 8) in
    let stop := Z.to_nat (uint32 (8 + payloadLen)) in
    if n <? stop then Err (errors_New "record truncated")
    else if stop <? 8 then Panic
    else
      let expectedChecksum := crc32.ChecksumIEEE (sub all 8 stop) in
      if negb (checksum =? expectedChecksum)%Z
      then Err (errors_New "checksum mismatch")
      else
        let pos := 8 in
        match nth_error (data buf) pos with
        | None => Panic
        | Some ty =>
            let pos := pos + 1 in
            if cap <? pos + 8 then Panic
            else
              let sq := BigEndian.Uint64 (sub all pos (pos + 8)) in
              let pos := pos + 8 in
              if cap <? pos + 4 then Panic
              else
                let keyLen := Z.to_nat (BigEndian.Uint32 (sub all pos (pos + 4))) in
                let pos := pos + 4 in
                if cap <? pos + keyLen then Panic
                else
                  let key := sub all pos (pos + keyLen) in
                  let pos := pos + keyLen in
                  if cap <? pos + 4 then Panic
                  else
                    let valLen := Z.to_nat (BigEndian.Uint32 (sub all pos (pos + 4))) in
                    let pos := pos + 4 in
                    if cap <? pos + valLen then Panic
                    else
                      let val := sub all pos (pos + valLen) in
                      Ok {| Type_ := ty; Key := key; Value := val; SeqNum := sq |}
        end.

(** The payload of the frame of a record: what follows the length and
    the checksum. *)
Definition payload (r : Record_) : bytes :=
  [Type_ r] ++ BigEndian.PutUint64 (SeqNum r)
    ++ BigEndian.PutUint32 (uint32 (len (Key r))) ++ Key r
    ++ BigEndian.PutUint32 (uint32 (len (Value r))) ++ Value r.

(** The records whose frame, 25 bytes and the key and the value, is
    shorter than [2^32] bytes, and whose sequence number is a [uint64]. *)
Definition fits (r : Record_) : Prop :=
  (25 + len (Key r) + len (Value r) < 2 ^ 32)%Z
  /\ (0 <= SeqNum r < 2 ^ 64)%Z.

(** [buf[i] ^= 1 << j]: one bit of the frame flipped. *)
Definition flip_bit (x : byte) (j : nat) : byte :=
  byte_of_Z (Z.lxor (Z_of_byte x) (Z.shiftl 1 (Z.of_nat j))).

Definition flip (buf : bytes) (i j : nat) : bytes :=
  match nth_error buf i with
  | Some x => Arena.write_at buf i [flip_bit x j]
  | None => buf
  end.

End wal.

(** ** The replay reader (wal.go, type Reader) *)

Module Reader.

(** The reader is the part of the file that is still unread. *)
Record t : Type := mk { unread : bytes }.

(** [io.ReadFull(r.reader, buf)] for a [buf] of [n] bytes: the bytes
    read, and [io.EOF] when none could be read, [io.ErrUnexpectedEOF]
    when the file ends before [n] of them. *)
Definition ReadFull (r : t) (n : nat) : t * bytes * option error :=
  if n =? 0 then (r, [], None)
  else if length (unread r) =? 0 then (r, [], Some io_EOF)
  else if length (unread r) <? n
    then ({| unread := [] |}, unread r, Some io_ErrUnexpectedEOF)
  else ({| unread := skipn n (unread r) |}, firstn n (unread r), None).

(** [fullBuf := make([]byte, 8+payloadLen)] and the three [copy]
    statements; [None] is the panic of [fullBuf[0:4]] or [fullBuf[4:8]]
    when the 32-bit sum wrapped around. *)
Definition rebuild (payloadLen : Z) (lenBytes checksumBytes buf : bytes)
    : option bytes :=
  let total := Z.to_nat (uint32 (8 + payloadLen)) in
  let fullBuf := Arena.make total in
  if total <? 4 then None
  else
    let fullBuf := Arena.write_at fullBuf 0 lenBytes in
    if total <? 8 then None
    else
      let fullBuf := Arena.write_at fullBuf 4 checksumBytes in
      let fullBuf := Arena.write_at fullBuf 8 buf in
      Some fullBuf.

Definition ReadRecord (r : t) : t * outcome wal.Record_ :=
  let '(r, lenBytes, err) := ReadFull r 4 in
  match err with
  | Some e => (r, Err e)
  | None =>
      let payloadLen := BigEndian.Uint32 lenBytes in
      let '(r, checksumBytes, err) := ReadFull r 4 in
      match err with
      | Some e => (r, Err e)
      | None =>
          let '(r, buf, err) := ReadFull r (Z.to_nat payloadLen) in
          match err with
          | Some e => (r, Err e)
          | None =>
              let checksum := BigEndian.Uint32 checksumBytes in
              let expectedChecksum := crc32.ChecksumIEEE buf in
              if negb (checksum =? expectedChecksum)%Z then
                match rebuild payloadLen lenBytes checksumBytes buf with
                | None => (r, Panic)
                | Some fullBuf =>
                    match wal.Decode (wal.exact fullBuf) with
                    | Panic => (r, Panic)
                    | _ => (r, Err errChecksumMismatch)
                    end
                end
              else
                match rebuild payloadLen lenBytes checksumBytes buf with
                | None => (r, Panic)
                | Some fullBuf => (r, wal.Decode (wal.exact fullBuf))
                end
          end
      end
  end.

Section Replay.

(** The callback is a closure: it runs on its own state. *)
Context {St : Type} (callback : St -> wal.Record_ -> St * option error).

(** The loop of [Replay]; [Ok tt] is the return of [nil].  [None]: the
    fuel ran out. *)
Fixpoint loop (fuel : nat) (r : t) (count : nat) (st : St)
    : option (St * outcome unit) :=
  match fuel with
  | 0 => None
  | S fuel' =>
      let '(r, res) := ReadRecord r in
      match res with
      | Panic => Some (st, Panic)
      | Err io_EOF => Some (st, Ok tt)
      | Err io_ErrUnexpectedEOF =>
          if count =? 0 then Some (st, Err io_ErrUnexpectedEOF)
          else Some (st, Ok tt)
      | Err e => Some (st, Err e)
      | Ok rec =>
          let count := count + 1 in
          match callback st rec with
          | (st, Some e) => Some (st, Err e)
          | (st, None) => loop fuel' r count st
          end
      end
  end.

(** Every record read takes at least eight bytes off the file. *)
Definition Replay (r : t) (st : St) : option (St * outcome unit) :=
  loop (S (length (unread r))) r 0 st.

(** The callback run on the records of a list, up to its first
    error. *)
Fixpoint deliver (st : St) (recs : list wal.Record_) : St * option error :=
  match recs with
  | [] => (st, None)
  | rec :: recs' =>
      match callback st rec with
      | (st, Some e) => (st, Some e)
      | (st, None) => deliver st recs'
      end
  end.

End Replay.

(** The log file that holds the frames of the records, one after the
    other. *)
Definition frames (recs : list wal.Record_) : bytes :=
  concat (map wal.Encode recs).

End Reader.

(** ** The log file (package os) *)

Module os.

(** A file opened for appending: its bytes; how many more bytes the
    device takes, [None] for as many as are written; and whether it has
    been closed.  A write that does not fit stores the bytes that fit
    and fails. *)
Record File : Type := mkFile {
  content : bytes;
  room : option nat;
  closed : bool
}.

Definition ErrClosed : error := errors_New "file already closed".

Definition ENOSPC : error := errors_New "no space left on device".

Definition Write (f : File) (p : bytes) : File * nat * option error :=
  if closed f then (f, 0, Some ErrClosed)
  else
    match room f with
    | None =>
        ({| content := content f ++ p; room := None; closed := false |},
         length p, None)
    | Some r =>
        if length p <=? r then
          ({| content := content f ++ p; room := Some (r - length p);
              closed := false |}, length p, None)
        else
          ({| content := content f ++ firstn r p; room := Some 0;
              closed := false |}, r, Some ENOSPC)
    end.

Definition Sync (f : File) : option error :=
  if closed f then Some ErrClosed else None.

Definition Close (f : File) : File * option error :=
  if closed f then (f, Some ErrClosed)
  else ({| content := content f; room := room f; closed := true |}, None).

(** A file that is open on a device with room for whatever is
    written. *)
Definition healthy (f : File) : Prop := closed f = false /\ room f = None.

End os.

(** ** The buffered writer (package bufio) *)

Module bufio.

(** [b.err], the bytes [b.buf[0:b.n]] that wait in the buffer, the
    length of the buffer, and the file underneath. *)
Record Writer : Type := mkWriter {
  err : option error;
  buf : bytes;
  size : nat;
  wr : os.File
}.

Definition defaultBufSize : nat := 4096.

Definition io_ErrShortWrite : error := errors_New "short write".

Definition NewWriterSize (w : os.File) (size : Z) : Writer :=
  {| err := None; buf := [];
     size := if (size <=? 0)%Z then defaultBufSize else Z.to_nat size;
     wr := w |}.

Definition Available (b : Writer) : nat := size b - length (buf b).

Definition Buffered (b : Writer) : nat := length (buf b).

Definition Flush (b : Writer) : Writer * option error :=
  match err b with
  | Some e => (b, Some e)
  | None =>
      if Buffered b =? 0 then (b, None)
      else
        let '(f, n, e) := os.Write (wr b) (buf b) in
        let e :=
          match e with
          | None => if n <? Buffered b then Some io_ErrShortWrite else None
          | Some e => Some e
          end in
        match e with
        | Some e =>
            ({| err := Some e; buf := skipn n (buf b); size := size b; wr := f |},
             Some e)
        | None => ({| err := None; buf := []; size := size b; wr := f |}, None)
        end
  end.

(** The condition of the loop of [Write]:
    [len(p) > b.Available() && b.err == nil]. *)
Definition goes_on (b : Writer) (p : bytes) : bool :=
  (Available b <? length p)
  && match err b with None => true | Some _ => false end.

(** The loop of [Write]: while [p] does not fit and no write has
    failed, write [p] to the file at once when the buffer is empty,
    fill the buffer and flush it otherwise.  What is left of [p], and
    the count [nn]. *)
Fixpoint Write_loop (fuel : nat) (b : Writer) (p : bytes) (nn : nat)
    : Writer * bytes * nat :=
  match fuel with
  | 0 => (b, p, nn)
  | S fuel' =>
      if goes_on b p
      then
        if Buffered b =? 0 then
          let '(f, n, e) := os.Write (wr b) p in
          Write_loop fuel'
            {| err := e; buf := buf b; size := size b; wr := f |}
            (skipn n p) (nn + n)
        else
          let n := Nat.min (Available b) (length p) in
          let b := {| err := err b; buf := buf b ++ firstn n p;
                      size := size b; wr := wr b |} in
          Write_loop fuel' (fst (Flush b)) (skipn n p) (nn + n)
      else (b, p, nn)
  end.

(** The loop turns at most twice: a turn that fills and flushes the
    buffer leaves it empty or failed. *)
Definition Write (b : Writer) (p : bytes) : Writer * nat * option error :=
  let '(b, p, nn) := Write_loop 2 b p 0 in
  match err b with
  | Some e => (b, nn, Some e)
  | None =>
      let n := Nat.min (Available b) (length p) in
      ({| err := None; buf := buf b ++ firstn n p; size := size b; wr := wr b |},
       nn + n, None)
  end.

(** The bytes that the writer has taken and not lost: those in the file
    and those in the buffer. *)
Definition stream (b : Writer) : bytes := os.content (wr b) ++ buf b.

(** A writer that has not failed, over a healthy file. *)
Definition sound (b : Writer) : Prop := err b = None /\ os.healthy (wr b).

(** The writer against the bytes [all] that it has been given, [p]
    being the part of them that [Write] has not yet taken: it holds all
    of them while no write has failed, and afterwards the file is a
    prefix of them. *)
Definition holds (b : Writer) (p : bytes) (all : bytes) : Prop :=
  match err b with
  | None => stream b ++ p = all
  | Some _ => exists rest, all = os.content (wr b) ++ rest
  end.

End bufio.

(** ** The log writer (wal.go, type WAL) *)

(** The writer is a state machine.  Its state is the struct [WAL] with
    the contents of its two channels and the place where its goroutine
    stands; its steps are the calls of its methods and the turns of
    [groupCommitLoop], one [select] each.  The mutexes make every step
    happen at once: without group commit the methods hold [w.mu]; with it
    they only send on a channel, and the goroutine alone touches the
    batch, the buffer and the file until it returns.  A run is any
    sequence of steps, so a property of all runs holds under every
    schedule.  [Append] sends a pointer: the records are taken as they
    are when they are sent. *)

(** How a call ends: it returns, with the error it returns; it blocks;
    or it panics. *)
Inductive call (A : Type) : Type :=
| Returns (a : A) (e : option error)
| Blocks
| Panics.
Arguments Returns {A} a e.
Arguments Blocks {A}.
Arguments Panics {A}.

Module WAL.

Record Options : Type := mkOptions {
  GroupCommit : bool;
  GroupCommitMS : Z;
  BufferSize : Z
}.

Definition DefaultOptions : Options :=
  {| GroupCommit := true; GroupCommitMS := 10; BufferSize := 64 * 1024 |}.

(** Where the goroutine of [groupCommitLoop] stands: there is none;
    it has been created; it is at the outer [select]; it is at the inner
    [select] of a barrier, with the channel [done] that it will close;
    it has returned; it has panicked in [time.NewTicker]. *)
Inductive worker : Type :=
| Absent
| Created
| Selecting
| Draining (done : nat)
| Returned
| Crashed.

(** [w.file] is the file under [w.buf].  A channel is the list of what
    has been sent on it and not yet received; the channels [done] that
    [WaitForPending] makes are numbered in the order of their making. *)
Record t : Type := mk {
  buf : bufio.Writer;
  options : Options;
  groupCh : list (option wal.Record_);
  groupCh_closed : bool;
  groupBuf : list wal.Record_;
  barrierCh : list nat;
  loop : worker;
  made : nat;
  signalled : list nat
}.

Definition file (w : t) : os.File := bufio.wr (buf w).

Definition with_buf (w : t) (b : bufio.Writer) : t :=
  {| buf := b; options := options w; groupCh := groupCh w;
     groupCh_closed := groupCh_closed w; groupBuf := groupBuf w;
     barrierCh := barrierCh w; loop := loop w; made := made w;
     signalled := signalled w |}.

Definition with_groupCh (w : t) (ch : list (option wal.Record_)) : t :=
  {| buf := buf w; options := options w; groupCh := ch;
     groupCh_closed := groupCh_closed w; groupBuf := groupBuf w;
     barrierCh := barrierCh w; loop := loop w; made := made w;
     signalled := signalled w |}.

Definition with_groupBuf (w : t) (gb : list wal.Record_) : t :=
  {| buf := buf w; options := options w; groupCh := groupCh w;
     groupCh_closed := groupCh_closed w; groupBuf := gb;
     barrierCh := barrierCh w; loop := loop w; made := made w;
     signalled := signalled w |}.

Definition with_loop (w : t) (l : worker) : t :=
  {| buf := buf w; options := options w; groupCh := groupCh w;
     groupCh_closed := groupCh_closed w; groupBuf := groupBuf w;
     barrierCh := barrierCh w; loop := l; made := made w;
     signalled := signalled w |}.

(** [os.OpenFile] has failed, or has opened the file. *)
Definition OpenWithOptions (opened : os.File + error) (opts : Options)
    : t + error :=
  match opened with
  | inr e => inr e
  | inl file =>
      inl {| buf := bufio.NewWriterSize file (BufferSize opts);
             options := opts;
             groupCh := [];
             groupCh_closed := false;
             groupBuf := [];
             barrierCh := [];
             loop := if GroupCommit opts then Created else Absent;
             made := 0;
             signalled := [] |}
  end.

Definition Open (opened : os.File + error) : t + error :=
  OpenWithOptions opened DefaultOptions.

(** [w.groupCh <- msg] on the channel of capacity 100. *)
Definition send (w : t) (msg : option wal.Record_) : call t :=
  if groupCh_closed w then Panics
  else if 100 <=? length (groupCh w) then Blocks
  else Returns (with_groupCh w (groupCh w ++ [msg])) None.

Definition Append (w : t) (rec : wal.Record_) : call t :=
  if GroupCommit (options w) then send w (Some rec)
  else
    let data := wal.Encode rec in
    let '(b, _, err) := bufio.Write (buf w) data in
    Returns (with_buf w b) err.

Definition Sync (w : t) : call t :=
  if GroupCommit (options w) then send w None
  else
    let '(b, err) := bufio.Flush (buf w) in
    match err with
    | Some e => Returns (with_buf w b) (Some e)
    | None => Returns (with_buf w b) (os.Sync (bufio.wr b))
    end.

(** The loop over the batch in [flushBatch]; what [Write] returns is
    dropped. *)
Definition write_batch (b : bufio.Writer) (batch : list wal.Record_)
    : bufio.Writer :=
  fold_left (fun b rec => fst (fst (bufio.Write b (wal.Encode rec)))) batch b.

(** What [Flush] and [Sync] return is dropped. *)
Definition flushBatch (w : t) : t :=
  if length (groupBuf w) =? 0 then w
  else
    let batch := groupBuf w in
    let w := with_groupBuf w [] in
    let b := write_batch (buf w) batch in
    with_buf w (fst (bufio.Flush b)).

(** The case that a [select] of [groupCommitLoop] takes, and the start
    of the goroutine. *)
Inductive choice : Type :=
| start
| recv
| tick
| barrier
| drain_recv
| drain_default.

(** One turn of [groupCommitLoop]; [None] when the case is not ready, or
    the goroutine is not there.  A receive is ready when something has
    been sent or the channel is closed; [default] when no receive is. *)
Definition groupCommitLoop (w : t) (c : choice) : option t :=
  match loop w, c with
  | Created, start =>
      let d := int_wrap (GroupCommitMS (options w) * 1000000) in
      Some (with_loop w (if (d <=? 0)%Z then Crashed else Selecting))
  | Selecting, recv =>
      match groupCh w with
      | msg :: ch =>
          let w := with_groupCh w ch in
          match msg with
          | None => Some (flushBatch w)
          | Some rec =>
              let w := with_groupBuf w (groupBuf w ++ [rec]) in
              let shouldFlush := 10 <=? length (groupBuf w) in
              if shouldFlush then Some (flushBatch w) else Some w
          end
      | [] =>
          if groupCh_closed w then Some (with_loop (flushBatch w) Returned)
          else None
      end
  | Selecting, tick => Some (flushBatch w)
  | Selecting, barrier =>
      match barrierCh w with
      | done :: ch =>
          Some {| buf := buf w; options := options w; groupCh := groupCh w;
                  groupCh_closed := groupCh_closed w; groupBuf := groupBuf w;
                  barrierCh := ch; loop := Draining done; made := made w;
                  signalled := signalled w |}
      | [] => None
      end
  | Draining done, drain_recv =>
      match groupCh w with
      | msg :: ch =>
          let w := with_groupCh w ch in
          match msg with
          | None => Some (flushBatch w)
          | Some r => Some (with_groupBuf w (groupBuf w ++ [r]))
          end
      | [] => if groupCh_closed w then Some (flushBatch w) else None
      end
  | Draining done, drain_default =>
      match groupCh w with
      | [] =>
          if groupCh_closed w then None
          else
            let w := flushBatch w in
            Some {| buf := buf w; options := options w; groupCh := groupCh w;
                    groupCh_closed := groupCh_closed w; groupBuf := groupBuf w;
                    barrierCh := barrierCh w; loop := Selecting; made := made w;
                    signalled := done :: signalled w |}
      | _ :: _ => None
      end
  | _, _ => None
  end.

(** [WaitForPending] up to its wait: without group commit the whole
    call; with it, the making of [done] and its send on the barrier
    channel of capacity 1. *)
Definition WaitForPending (w : t) : call t :=
  if negb (GroupCommit (options w)) then
    match Sync w with
    | Returns w _ => Returns w None
    | Blocks => Blocks
    | Panics => Panics
    end
  else if 1 <=? length (barrierCh w) then Blocks
  else
    Returns {| buf := buf w; options := options w; groupCh := groupCh w;
               groupCh_closed := groupCh_closed w; groupBuf := groupBuf w;
               barrierCh := barrierCh w ++ [made w]; loop := loop w;
               made := S (made w); signalled := signalled w |} None.

(** The wait [<-done] of [WaitForPending] is over. *)
Definition released (w : t) (done : nat) : bool :=
  existsb (Nat.eqb done) (signalled w).

(** [Close] up to [w.wg.Wait()]: the channel is closed. *)
Definition Close_channel (w : t) : call t :=
  if GroupCommit (options w) then
    if groupCh_closed w then Panics
    else
      Returns {| buf := buf w; options := options w; groupCh := groupCh w;
                 groupCh_closed := true; groupBuf := groupBuf w;
                 barrierCh := barrierCh w; loop := loop w; made := made w;
                 signalled := signalled w |} None
  else Returns w None.

(** [Close] from [w.wg.Wait()] on: it waits for the goroutine, flushes
    and closes the file. *)
Definition Close_file (w : t) : call t :=
  if GroupCommit (options w)
     && negb match loop w with Returned => true | _ => false end
  then Blocks
  else
    let '(b, err) := bufio.Flush (buf w) in
    match err with
    | Some e => Returns (with_buf w b) (Some e)
    | None =>
        let '(f, err) := os.Close (bufio.wr b) in
        Returns
          (with_buf w {| bufio.err := bufio.err b; bufio.buf := bufio.buf b;
                         bufio.size := bufio.size b; bufio.wr := f |}) err
    end.

Definition Close (w : t) : call t :=
  match Close_channel w with
  | Returns w _ => Close_file w
  | Blocks => Blocks
  | Panics => Panics
  end.

(** What happens to a log: calls of its methods, each taken at once, and
    turns of its goroutine. *)
Inductive action : Type :=
| call_Append (rec : wal.Record_)
| call_Sync
| call_WaitForPending
| call_Close_channel
| call_Close_file
| turn (c : choice).

Definition returned {A : Type} (c : call A) : option A :=
  match c with
  | Returns a _ => Some a
  | _ => None
  end.

(** Nothing happens after the panic of the goroutine: the program is
    gone. *)
Definition step (w : t) (a : action) : option t :=
  match loop w with
  | Crashed => None
  | _ =>
      match a with
      | call_Append rec => returned (Append w rec)
      | call_Sync => returned (Sync w)
      | call_WaitForPending => returned (WaitForPending w)
      | call_Close_channel => returned (Close_channel w)
      | call_Close_file => returned (Close_file w)
      | turn c => groupCommitLoop w c
      end
  end.

Fixpoint run (tr : list action) (w : t) : option t :=
  match tr with
  | [] => Some w
  | a :: tr' =>
      match step w a with
      | Some w' => run tr' w'
      | None => None
      end
  end.

(** The records of the calls of [Append] in a run, in their order. *)
Fixpoint appended (tr : list action) : list wal.Record_ :=
  match tr with
  | [] => []
  | call_Append rec :: tr' => rec :: appended tr'
  | _ :: tr' => appended tr'
  end.

(** The records that wait in the channel. *)
Fixpoint queued (ch : list (option wal.Record_)) : list wal.Record_ :=
  match ch with
  | [] => []
  | Some rec :: ch' => rec :: queued ch'
  | None :: ch' => queued ch'
  end.

(** What a run keeps true of a log opened on a file that held [f0],
    [A] being the records appended so far: they are, in their order,
    the records [W] given to the buffered writer, those of the batch and
    those in the channel; the writer holds the frames of [W] after
    [f0]; with group commit its buffer is empty between two turns;
    without it the batch and the channel are not used; and the
    goroutine returns with nothing left behind. *)
Definition inv (f0 : bytes) (A : list wal.Record_) (w : t) : Prop :=
  exists W : list wal.Record_,
    A = W ++ groupBuf w ++ queued (groupCh w)
    /\ bufio.holds (buf w) [] (f0 ++ Reader.frames W)
    /\ (GroupCommit (options w) = true -> bufio.err (buf w) = None ->
        bufio.buf (buf w) = [])
    /\ (GroupCommit (options w) = false ->
        groupBuf w = [] /\ groupCh w = [] /\ loop w = Absent)
    /\ (loop w = Returned ->
        groupBuf w = [] /\ groupCh w = [] /\ groupCh_closed w = true).

(** [NewReader] on the file that a log was written to. *)
Definition NewReader (f : os.File) : Reader.t :=
  {| Reader.unread := os.content f |}.

End WAL.

(** ** The scenarios of the specification *)

(** The scenario S1 of the specification, as a run on a fresh table. *)
Definition S1_ops : list op :=
  [OpPut (b "k") (b "v1") 10; OpDelete (b "k") 5; OpDelete (b "k") 11;
   OpPut (b "k") (b "v2") 9; OpPut (b "k") (b "v3") 12].

(** S3: the second [Put] passes the threshold of 4 bytes and seals the
    first table; the [Delete] then goes to the new current table. *)
Definition S3_ops : list op :=
  [OpPut (b "a") (b "1") 1; OpPut (b "bb") (b "22") 2; OpDelete (b "a") 3].

Definition S3_state : Memtable.t := Memtable.run S3_ops (Memtable.NewMemtable 4).

(** S4: S3, then [Put("b", "2", 3)]. *)
Definition S4_state : Memtable.t :=
  Memtable.apply S3_state (OpPut (b "b") (b "2") 3).

(** A state in which every key of the current table is deleted. *)
Definition all_deleted_state : Memtable.t :=
  Memtable.apply S3_state (OpDelete (b "bb") 4).

(** A table of threshold 4 that holds ["a"] at sequence 5. *)
Definition stale_start : Memtable.t :=
  Memtable.apply (Memtable.NewMemtable 4) (OpPut (b "a") (b "1") 5).



(** A record of the tests. *)
Definition test_record : wal.Record_ :=
  wal.mkRecord wal.RecordPut (b "test-key") (b "test-value") 123.

(** A valid record of the specification: a [Put] or a [Delete], a
    sequence number of 64 bits, a key and a value of at most [2^32 - 1]
    bytes each. *)
Definition valid_record (r : wal.Record_) : Prop :=
  (wal.Type_ r = wal.RecordPut \/ wal.Type_ r = wal.RecordDelete)
  /\ (0 <= wal.SeqNum r < 2 ^ 64)%Z
  /\ (len (wal.Key r) < 2 ^ 32)%Z
  /\ (len (wal.Value r) < 2 ^ 32)%Z.

(** A valid record whose payload is [2^32] bytes long, one byte more
    than the four bytes of [payload_len] can say: a [Put] of a key of
    [2^32 - 17] zero bytes, with the empty value. *)
Definition wide_key : bytes := repeat x00 (Z.to_nat (2 ^ 32 - 17)).

Definition wide_put : wal.Record_ := wal.mkRecord wal.RecordPut wide_key [] 0.

(** A valid record whose frame is [2^32] bytes long: the payload, of
    [2^32 - 8] bytes, fits [payload_len]. *)
Definition full_frame_key : bytes := repeat x00 (Z.to_nat (2 ^ 32 - 25)).

Definition full_frame_record : wal.Record_ :=
  wal.mkRecord wal.RecordPut full_frame_key [] 0.

(** The frame of [full_frame_record] after one bit of it has changed
    in the file: the checksum is the one that [Encode] wrote, and the
    type byte of the payload reads [RecordDelete]. *)
Definition full_frame_checksum : bytes :=
  BigEndian.PutUint32 (crc32.ChecksumIEEE (wal.payload full_frame_record)).

Definition damaged_payload : bytes :=
  wal.payload (wal.mkRecord wal.RecordDelete full_frame_key [] 0).

(** The smallest frame: a [Put] of the empty key and the empty value. *)
Definition empty_record : wal.Record_ := wal.mkRecord wal.RecordPut [] [] 0.

(** A callback that keeps the records it is given. *)
Definition collect (st : list wal.Record_) (r : wal.Record_)
    : list wal.Record_ * option error :=
  (st ++ [r], None).

(** A callback that counts the records and refuses deletes. *)
Definition no_deletes (st : nat) (r : wal.Record_) : nat * option error :=
  if Byte.eqb (wal.Type_ r) wal.RecordDelete
  then (st, Some (errors_New "delete in log"))
  else (S st, None).

Definition delete_record : wal.Record_ :=
  wal.mkRecord wal.RecordDelete (b "k") [] 2.

(** A log of two records and a torn third frame. *)
Definition torn_log_records : list wal.Record_ := [test_record; empty_record].

Definition torn_tail : bytes := firstn 9 (wal.Encode test_record).

(** ** Checksums over long runs of zero bytes

    The key of a record near the limits of the frame is some [2^32]
    bytes long; its checksum is not found by running over the bytes.
    The step of the checksum over a zero byte is a linear map on words
    (exclusive or is the sum), so that the step over [p] zero bytes is
    computed by repeated squaring. *)

(** A linear map on words, given by the images of the unit words
    [2^0, 2^1, ...]: the image of a word is the sum of the images of
    its bits. *)
Fixpoint lin (cols : list Z) (n : nat) (s : Z) : Z :=
  match n with
  | O => 0%Z
  | S n' =>
      Z.lxor (if Z.testbit s (Z.of_nat n') then nth n' cols 0%Z else 0%Z)
             (lin cols n' s)
  end.

Definition cols_of (f : Z -> Z) : list Z :=
  map (fun j => f (2 ^ Z.of_nat j)%Z) (List.seq 0 32).

Definition linear (f : Z -> Z) : Prop :=
  forall a b : Z, f (Z.lxor a b) = Z.lxor (f a) (f b).

(** The step of the checksum over a zero byte. *)
Definition zero_step (c : Z) : Z := crc32.step c x00.

Definition compose_cols (A B : list Z) : list Z :=
  cols_of (fun s => lin A 32 (lin B 32 s)).

(** The step over [p] zero bytes. *)
Fixpoint zero_steps (p : positive) : list Z :=
  match p with
  | xH => cols_of zero_step
  | xO p' => let h := zero_steps p' in compose_cols h h
  | xI p' =>
      let h := zero_steps p' in
      compose_cols (cols_of zero_step) (compose_cols h h)
  end.

(** * Properties *)

(** ** The order on byte strings *)

Lemma to_N_inj (x y : byte) : Byte.to_N x = Byte.to_N y -> x = y.
Proof.
  intros H. pose proof (Byte.of_to_N x) as Hx.
  rewrite H, Byte.of_to_N in Hx. congruence.
Qed.

Lemma bytes_compare_refl (x : bytes) : bytes_compare x x = Eq.
Proof. induction x as [|c x IH]; simpl; [easy|]. now rewrite N.compare_refl. Qed.

Lemma bytes_compare_eq (x y : bytes) : bytes_compare x y = Eq -> x = y.
Proof.
  revert y. induction x as [|c x IH]; intros [|d y]; simpl; try easy.
  destruct (N.compare_spec (Byte.to_N c) (Byte.to_N d)) as [E| |]; try easy.
  intros H. apply to_N_inj in E. apply IH in H. congruence.
Qed.

Lemma bytes_compare_antisym (x y : bytes) :
  bytes_compare y x = CompOpp (bytes_compare x y).
Proof.
  revert y. induction x as [|c x IH]; intros [|d y]; simpl; try easy.
  rewrite (N.compare_antisym (Byte.to_N c) (Byte.to_N d)).
  destruct (N.compare (Byte.to_N c) (Byte.to_N d)); simpl; auto.
Qed.

Lemma bytes_lt_trans (x y z : bytes) :
  bytes_lt x y -> bytes_lt y z -> bytes_lt x z.
Proof.
  unfold bytes_lt. revert y z.
  induction x as [|c x IH]; intros [|d y] [|e z]; simpl; try easy.
  destruct (N.compare_spec (Byte.to_N c) (Byte.to_N d)) as [E1|L1|G1];
    destruct (N.compare_spec (Byte.to_N d) (Byte.to_N e)) as [E2|L2|G2];
    try easy; intros H1 H2.
  - rewrite E1, E2, N.compare_refl. eauto.
  - rewrite E1. now apply N.compare_lt_iff in L2 as ->.
  - rewrite <- E2. now apply N.compare_lt_iff in L1 as ->.
  - assert (Byte.to_N c < Byte.to_N e)%N as L by lia.
    now apply N.compare_lt_iff in L as ->.
Qed.

Lemma bytes_lt_irrefl (x : bytes) : ~ bytes_lt x x.
Proof. unfold bytes_lt. now rewrite bytes_compare_refl. Qed.

Lemma bytes_ltb_lt (x y : bytes) : bytes_ltb x y = true <-> bytes_lt x y.
Proof. unfold bytes_ltb, bytes_lt. destruct (bytes_compare x y); easy. Qed.

Lemma bytes_eqb_eq (x y : bytes) : bytes_eqb x y = true <-> x = y.
Proof.
  unfold bytes_eqb. split.
  - destruct (bytes_compare x y) eqn:E; try easy. intros _.
    now apply bytes_compare_eq.
  - intros ->. now rewrite bytes_compare_refl.
Qed.

Lemma bytes_leb_le (x y : bytes) :
  bytes_leb x y = true <-> bytes_lt x y \/ x = y.
Proof.
  unfold bytes_leb, bytes_lt. split.
  - destruct (bytes_compare x y) eqn:E; try easy; intros _; auto.
    right. now apply bytes_compare_eq.
  - intros [-> | ->]; [easy|]. now rewrite bytes_compare_refl.
Qed.

Lemma bytes_leb_false (x y : bytes) : bytes_leb x y = false -> bytes_lt y x.
Proof.
  unfold bytes_leb, bytes_lt. rewrite (bytes_compare_antisym x y).
  destruct (bytes_compare x y); easy.
Qed.

Lemma bytes_ltb_false (x y : bytes) :
  bytes_ltb x y = false -> bytes_lt y x \/ x = y.
Proof.
  unfold bytes_ltb, bytes_lt. rewrite (bytes_compare_antisym x y).
  destruct (bytes_compare x y) eqn:E; try easy; intros _; auto.
  right. now apply bytes_compare_eq.
Qed.

Lemma bytes_ltb_nil (x : bytes) : bytes_ltb x [] = false.
Proof. now destruct x. Qed.

(** ** Sorting and searching the key slice *)

Lemma insert_sorted_In (k x : bytes) (l : list bytes) :
  In x (insert_sorted k l) <-> x = k \/ In x l.
Proof.
  induction l as [|h t IH]; simpl.
  - intuition.
  - destruct (bytes_leb k h); simpl; rewrite ?IH; intuition.
Qed.

Lemma sort_Strings_In (x : bytes) (l : list bytes) :
  In x (sort_Strings l) <-> In x l.
Proof.
  induction l as [|h t IH]; simpl; [easy|].
  rewrite insert_sorted_In, IH. intuition.
Qed.

Lemma insert_sorted_strict (k : bytes) (l : list bytes) :
  StronglySorted bytes_lt l -> ~ In k l ->
  StronglySorted bytes_lt (insert_sorted k l).
Proof.
  induction l as [|h t IH]; simpl; intros Hs Hk.
  - repeat constructor.
  - inversion Hs as [|? ? Ht Hh]; subst.
    destruct (bytes_leb k h) eqn:E.
    + apply bytes_leb_le in E as [E|E]; [|subst; intuition].
      constructor; [assumption|]. constructor; [assumption|].
      eapply List.Forall_impl; [|exact Hh]. intros z. now apply bytes_lt_trans.
    + apply bytes_leb_false in E. constructor.
      * apply IH; intuition.
      * apply List.Forall_forall. intros z Hz.
        apply insert_sorted_In in Hz as [->|Hz]; [assumption|].
        rewrite List.Forall_forall in Hh. auto.
Qed.

Lemma sorted_lt_not_In (k : bytes) (l : list bytes) :
  Forall (bytes_lt k) l -> ~ In k l.
Proof.
  rewrite List.Forall_forall. intros H Hk. apply (bytes_lt_irrefl k). auto.
Qed.

Lemma sort_Strings_append (k : bytes) (l : list bytes) :
  StronglySorted bytes_lt l -> ~ In k l ->
  StronglySorted bytes_lt (sort_Strings (l ++ [k])).
Proof.
  unfold sort_Strings. rewrite fold_right_app. simpl.
  induction l as [|h t IH]; simpl; intros Hs Hk.
  - repeat constructor.
  - inversion Hs as [|? ? Ht Hh]; subst.
    apply insert_sorted_strict; [apply IH; intuition|].
    intros Hin.
    assert (In h (sort_Strings (t ++ [k]))) as Hin'.
    { unfold sort_Strings. now rewrite fold_right_app. }
    apply sort_Strings_In, in_app_or in Hin' as [Hin'|[->|[]]].
    + now apply (sorted_lt_not_In h t).
    + intuition.
Qed.

Lemma sorted_nth (l : list bytes) (i j : nat) :
  StronglySorted bytes_lt l -> i < j -> j < length l ->
  bytes_lt (nth i l []) (nth j l []).
Proof.
  intros Hs. revert i j. induction Hs as [|h t Ht IH Hh]; simpl; intros i j Hij Hj.
  - lia.
  - destruct j as [|j]; [lia|]. destruct i as [|i].
    + rewrite List.Forall_forall in Hh. apply Hh, nth_In. lia.
    + apply IH; lia.
Qed.

(** The binary search returns the number of keys below the target. *)
Lemma search_loop_spec (keys : list bytes) (target : bytes) :
  StronglySorted bytes_lt keys ->
  forall fuel lo hi,
    lo <= hi -> hi <= length keys -> hi - lo <= fuel ->
    (forall i, i < lo -> bytes_lt (nth i keys []) target) ->
    (forall i, hi <= i -> i < length keys -> ~ bytes_lt (nth i keys []) target) ->
    let r := search_loop fuel keys target lo hi in
    r <= length keys
    /\ (forall i, i < r -> bytes_lt (nth i keys []) target)
    /\ (forall i, r <= i -> i < length keys -> ~ bytes_lt (nth i keys []) target).
Proof.
  intros Hs. induction fuel as [|fuel IH]; intros lo hi Hlo Hhi Hf Hbelow Habove;
    cbn [search_loop]; cbv zeta.
  - assert (lo = hi) as -> by lia. auto.
  - destruct (Nat.ltb_spec lo hi) as [Hlt|Hge].
    + assert (lo <= (lo + hi) / 2 /\ (lo + hi) / 2 < hi) as [Hm1 Hm2].
      { split; [apply Nat.div_le_lower_bound | apply Nat.Div0.div_lt_upper_bound]; lia. }
      destruct (bytes_ltb (nth ((lo + hi) / 2) keys []) target) eqn:E.
      * apply bytes_ltb_lt in E. apply IH; try lia; [|assumption].
        intros i Hi. destruct (Nat.eq_dec i ((lo + hi) / 2)) as [->|Hne]; [assumption|].
        eapply bytes_lt_trans; [|exact E]. apply sorted_nth; [assumption|lia|lia].
      * apply IH; try lia; [assumption|].
        intros i Hi Hi' Hlt'. apply bytes_ltb_false in E.
        destruct (Nat.eq_dec i ((lo + hi) / 2)) as [->|Hne].
        { destruct E as [E|E].
          - apply (bytes_lt_irrefl target). eapply bytes_lt_trans; eassumption.
          - rewrite E in Hlt'. now apply (bytes_lt_irrefl target). }
        assert (bytes_lt (nth ((lo + hi) / 2) keys []) (nth i keys [])) as Hmi.
        { apply sorted_nth; [assumption|lia|lia]. }
        destruct E as [E|E].
        { apply (bytes_lt_irrefl target).
          eapply bytes_lt_trans; [exact E|]. eapply bytes_lt_trans; eassumption. }
        rewrite E in Hmi. apply (bytes_lt_irrefl target).
        eapply bytes_lt_trans; eassumption.
    + assert (lo = hi) as -> by lia. auto.
Qed.

(** With the empty target nothing is below it: the search stops at 0. *)
Lemma search_loop_nil (keys : list bytes) (fuel hi : nat) :
  search_loop fuel keys [] 0 hi = 0.
Proof.
  revert hi. induction fuel as [|fuel IH]; intros hi; cbn [search_loop]; [easy|].
  destruct (0 <? hi); [|easy]. cbv zeta. now rewrite bytes_ltb_nil.
Qed.

Lemma In_nth_lt (l : list bytes) (k : bytes) :
  In k l -> exists j, j < length l /\ nth j l [] = k.
Proof. apply In_nth. Qed.

Lemma keyPresent_In (s : Skiplist.t) (k : bytes) :
  StronglySorted bytes_lt (Skiplist.keys s) ->
  Skiplist.keyPresent s k = true <-> In k (Skiplist.keys s).
Proof.
  intros Hs. unfold Skiplist.keyPresent, sort_SearchStrings.
  pose proof (search_loop_spec (Skiplist.keys s) k Hs
                (length (Skiplist.keys s)) 0 (length (Skiplist.keys s))) as H.
  cbv zeta in H.
  destruct H as (Hr & Hbelow & Habove); try lia.
  remember (search_loop _ _ _ _ _) as r eqn:Er. clear Er.
  rewrite andb_true_iff, Nat.ltb_lt, bytes_eqb_eq. split.
  - intros [Hlt <-]. now apply nth_In.
  - intros Hin. apply In_nth_lt in Hin as (j & Hj & Hnth).
    assert (r <= j) as Hrj.
    { destruct (Nat.le_gt_cases r j) as [|Hjr]; [assumption|].
      exfalso. apply Hbelow in Hjr. rewrite Hnth in Hjr.
      now apply (bytes_lt_irrefl k). }
    split; [lia|].
    destruct (Nat.eq_dec r j) as [->|Hne]; [assumption|].
    exfalso. apply (Habove r); [lia|lia|].
    rewrite <- Hnth. apply sorted_nth; [assumption|lia|lia].
Qed.

(** ** The arena *)

Lemma grow_ge (fuel cap need : nat) :
  0 < cap -> need <= fuel + cap -> need <= Arena.grow fuel cap need.
Proof.
  revert cap. induction fuel as [|fuel IH]; intros cap Hc Hf; simpl; [lia|].
  destruct (Nat.ltb_spec cap need); [apply IH; lia | lia].
Qed.

Lemma write_at_length (dst : bytes) (pos : nat) (src : bytes) :
  pos + length src <= length dst ->
  length (Arena.write_at dst pos src) = length dst.
Proof.
  intros H. unfold Arena.write_at.
  rewrite !length_app, firstn_length_le, length_skipn by lia. lia.
Qed.

Lemma write_at_read (dst : bytes) (pos : nat) (src : bytes) :
  pos <= length dst ->
  firstn (length src) (skipn pos (Arena.write_at dst pos src)) = src.
Proof.
  intros H. unfold Arena.write_at.
  rewrite skipn_app, firstn_length_le, Nat.sub_diag by lia.
  rewrite skipn_all2 by (rewrite firstn_length_le; lia).
  rewrite app_nil_l, List.skipn_O, List.firstn_app, Nat.sub_diag, List.firstn_all.
  rewrite List.firstn_O. now rewrite app_nil_r.
Qed.

Lemma ensure_spec (a : Arena.t) (n : nat) :
  Arena.wf a ->
  Arena.off (Arena.ensure a n) = Arena.off a
  /\ Arena.off a + n <= length (Arena.buf (Arena.ensure a n)).
Proof.
  unfold Arena.wf, Arena.ensure. intros Hwf.
  destruct (Nat.leb_spec n (length (Arena.buf a) - Arena.off a)) as [Hle|Hgt].
  - split; [easy|lia].
  - simpl. split; [easy|].
    set (cap := if length (Arena.buf a) =? 0 then 1024 else length (Arena.buf a)).
    assert (0 < cap) as Hcap.
    { unfold cap. destruct (Nat.eqb_spec (length (Arena.buf a)) 0); lia. }
    pose proof (grow_ge (Arena.off a + n) cap (Arena.off a + n) Hcap ltac:(lia)) as Hg.
    rewrite write_at_length; unfold Arena.make; rewrite repeat_length;
      rewrite ?firstn_length_le; lia.
Qed.

(** [Copy] hands out a slice that holds the bytes of [src], and leaves the
    arena well formed. *)
Lemma Copy_spec (a : Arena.t) (src : bytes) :
  Arena.wf a ->
  snd (Arena.Copy a src) = src /\ Arena.wf (fst (Arena.Copy a src)).
Proof.
  intros Hwf. destruct (ensure_spec a (length src) Hwf) as [Hoff Hlen].
  unfold Arena.Copy, Arena.Alloc, Arena.slice, Arena.wf. simpl.
  rewrite Hoff. split.
  - replace (Arena.off a + length src - Arena.off a) with (length src) by lia.
    apply write_at_read. lia.
  - rewrite write_at_length; lia.
Qed.

(** ** The table: its invariant and the sequence rule *)

Lemma NewSkiplist_wf (ar : option Arena.t) :
  (forall a, ar = Some a -> Arena.wf a) -> Skiplist.wf (Skiplist.NewSkiplist ar).
Proof.
  intros Har. repeat split; simpl.
  - constructor.
  - intros [].
  - rewrite lookup_empty. intros [? ?]. discriminate.
  - assumption.
Qed.

Lemma track_spec (m : gmap bytes entry) (ks : list bytes)
    (ar : option Arena.t) (k : bytes) (e : entry) :
  StronglySorted bytes_lt ks ->
  (forall x, In x ks <-> is_Some (m !! x)) ->
  let s := Skiplist.track
             {| Skiplist.entries := <[k := e]> m; Skiplist.keys := ks;
                Skiplist.arena := ar |} k in
  Skiplist.entries s = <[k := e]> m
  /\ Skiplist.arena s = ar
  /\ StronglySorted bytes_lt (Skiplist.keys s)
  /\ (forall x, In x (Skiplist.keys s) <-> is_Some (<[k := e]> m !! x)).
Proof.
  intros Hs Hdom. unfold Skiplist.track.
  destruct (Skiplist.keyPresent _ k) eqn:E; simpl.
  - apply keyPresent_In in E; [|assumption]. simpl in E.
    repeat split; try assumption.
    + intros Hx. destruct (decide (k = x)) as [->|Hne].
      * rewrite lookup_insert_eq. eauto.
      * rewrite lookup_insert_ne by assumption. now apply Hdom.
    + intros Hx. destruct (decide (k = x)) as [->|Hne]; [assumption|].
      rewrite lookup_insert_ne in Hx by assumption. now apply Hdom.
  - assert (~ In k ks) as Hk.
    { intros Hin. apply (keyPresent_In
        {| Skiplist.entries := <[k := e]> m; Skiplist.keys := ks;
           Skiplist.arena := ar |}) in Hin; [|assumption]. congruence. }
    repeat split.
    + now apply sort_Strings_append.
    + intros Hx. apply sort_Strings_In, in_app_or in Hx as [Hx|[->|[]]].
      * destruct (decide (k = x)) as [->|Hne]; [rewrite lookup_insert_eq; eauto|].
        rewrite lookup_insert_ne by assumption. now apply Hdom.
      * rewrite lookup_insert_eq. eauto.
    + intros Hx. apply sort_Strings_In, in_or_app.
      destruct (decide (k = x)) as [->|Hne]; [right; now left|].
      rewrite lookup_insert_ne in Hx by assumption. left. now apply Hdom.
Qed.

(** One write: either it is stale and changes nothing, or it replaces the
    entry of its key. *)
Lemma apply_spec (s : Skiplist.t) (o : op) :
  Skiplist.wf s ->
  Skiplist.wf (Skiplist.apply s o)
  /\ Skiplist.entries (Skiplist.apply s o) =
       if Skiplist.stale s (op_key o) (op_seq o) then Skiplist.entries s
       else <[op_key o := entry_of o]> (Skiplist.entries s).
Proof.
  intros Hwf. pose proof Hwf as (Hs & Hdom & Har).
  destruct s as [m ks ar]. cbn [Skiplist.keys Skiplist.entries Skiplist.arena] in *.
  destruct o as [k v sq | k sq];
    cbn [Skiplist.apply op_key op_seq entry_of];
    unfold Skiplist.Put, Skiplist.Delete;
    destruct (Skiplist.stale _ k sq) eqn:E; cbn [fst]; try (split; [exact Hwf|reflexivity]).
  - cbn [Skiplist.keys Skiplist.entries Skiplist.arena].
    assert (exists ar', (forall a, ar' = Some a -> Arena.wf a) /\
              match ar with
              | Some a => let '(a', st) := Arena.Copy a v in (Some a', st)
              | None => (None, clone v)
              end = (ar', v)) as (ar' & Har' & ->).
    { destruct ar as [a|].
      - destruct (Copy_spec a v (Har a eq_refl)) as [Hv Ha].
        destruct (Arena.Copy a v) as [a' st]. cbn [fst snd] in *. subst st.
        exists (Some a'). split; [|reflexivity]. now intros ? [= <-].
      - exists None. split; [|reflexivity]. intros ? [=]. }
    cbn [fst].
    destruct (track_spec m ks ar' k (mkEntry sq v false) Hs Hdom)
      as (He & Ha & Hs' & Hdom').
    split; [|exact He]. split; [exact Hs'|]. split.
    + intros x. rewrite He. apply Hdom'.
    + intros a0. rewrite Ha. apply Har'.
  - cbn [Skiplist.keys Skiplist.entries Skiplist.arena].
    destruct (track_spec m ks ar k (mkEntry sq [] true) Hs Hdom)
      as (He & Ha & Hs' & Hdom').
    split; [|exact He]. split; [exact Hs'|]. split.
    + intros x. rewrite He. apply Hdom'.
    + intros a0. rewrite Ha. apply Har.
Qed.

Lemma run_app (ops : list op) (o : op) (s : Skiplist.t) :
  Skiplist.run (ops ++ [o]) s = Skiplist.apply (Skiplist.run ops s) o.
Proof. unfold Skiplist.run. now rewrite fold_left_app. Qed.

Lemma run_wf (ops : list op) (s : Skiplist.t) :
  Skiplist.wf s -> Skiplist.wf (Skiplist.run ops s).
Proof.
  induction ops as [|o ops IH] using rev_ind; [easy|].
  intros Hwf. rewrite run_app. now apply apply_spec, IH.
Qed.

Lemma seq_entry_of (o : op) : seq (entry_of o) = op_seq o.
Proof. now destruct o. Qed.

Lemma In_snoc {A : Type} (x a : A) (l : list A) :
  In x (l ++ [a]) <-> In x l \/ x = a.
Proof. rewrite in_app_iff. simpl. intuition. Qed.

(** After a run on a fresh table, the entry of a key is the one of a write
    of that key with the greatest sequence number. *)
Lemma run_entries (ar : option Arena.t) (ops : list op) (k : bytes) :
  (forall a, ar = Some a -> Arena.wf a) ->
  match Skiplist.entries (Skiplist.run ops (Skiplist.NewSkiplist ar)) !! k with
  | None => forall o, In o ops -> op_key o <> k
  | Some e =>
      exists o, In o ops /\ op_key o = k /\ e = entry_of o
        /\ forall o', In o' ops -> op_key o' = k -> (op_seq o' <= op_seq o)%N
  end.
Proof.
  intros Har. induction ops as [|o ops IH] using rev_ind.
  - simpl. rewrite lookup_empty. intros o [].
  - rewrite run_app.
    pose proof (run_wf ops _ (NewSkiplist_wf ar Har)) as Hwf.
    destruct (apply_spec _ o Hwf) as [_ ->].
    set (s := Skiplist.run ops (Skiplist.NewSkiplist ar)) in *.
    unfold Skiplist.stale.
    destruct (decide (op_key o = k)) as [Hk|Hk].
    + rewrite Hk.
      destruct (Skiplist.entries s !! k) as [cur|] eqn:Ecur.
      * destruct IH as (oc & Hin & Hkc & -> & Hmax).
        rewrite seq_entry_of.
        destruct (N.leb_spec (op_seq o) (op_seq oc)) as [Hle|Hgt].
        -- rewrite Ecur. exists oc. split; [apply In_snoc; now left|].
           split; [assumption|]. split; [reflexivity|].
           intros o' Hin' Hk'. apply In_snoc in Hin' as [Hin'| ->]; auto.
        -- rewrite lookup_insert_eq. exists o. split; [apply In_snoc; now right|].
           split; [assumption|]. split; [reflexivity|].
           intros o' Hin' Hk'. apply In_snoc in Hin' as [Hin'| ->]; [|lia].
           specialize (Hmax o' Hin' Hk'). lia.
      * rewrite lookup_insert_eq. exists o. split; [apply In_snoc; now right|].
        split; [assumption|]. split; [reflexivity|].
        intros o' Hin' Hk'. apply In_snoc in Hin' as [Hin'| ->]; [|lia].
        now destruct (IH o' Hin').
    + assert ((if match Skiplist.entries s !! op_key o with
                  | Some cur => (op_seq o <=? seq cur)%N
                  | None => false
                  end
               then Skiplist.entries s
               else <[op_key o := entry_of o]> (Skiplist.entries s)) !! k
              = Skiplist.entries s !! k) as ->.
      { destruct (match Skiplist.entries s !! op_key o with
                  | Some cur => (op_seq o <=? seq cur)%N
                  | None => false
                  end); [easy|]. now rewrite lookup_insert_ne. }
      destruct (Skiplist.entries s !! k) as [cur|].
      * destruct IH as (oc & Hin & Hkc & -> & Hmax).
        exists oc. split; [apply In_snoc; now left|].
        split; [assumption|]. split; [reflexivity|].
        intros o' Hin' Hk'. apply In_snoc in Hin' as [Hin'| ->]; auto.
        contradiction.
      * intros o' Hin'. apply In_snoc in Hin' as [Hin'| ->]; auto.
Qed.

Lemma Get_entry_of (s : Skiplist.t) (k : bytes) (o : op) :
  Skiplist.entries s !! k = Some (entry_of o) ->
  Skiplist.Get s k = op_visible o.
Proof. unfold Skiplist.Get. intros ->. now destruct o. Qed.

Lemma NoDup_map_In_inj {A B : Type} (f : A -> B) (l : list A) (x y : A) :
  List.NoDup (map f l) -> In x l -> In y l -> f x = f y -> x = y.
Proof.
  induction l as [|a l IH]; simpl; [easy|].
  intros Hnd. inversion Hnd as [|? ? Hnotin Hnd']; subst.
  intros [->|Hx] [->|Hy] Hf; auto.
  - exfalso. apply Hnotin. rewrite Hf. now apply in_map.
  - exfalso. apply Hnotin. rewrite <- Hf. now apply in_map.
Qed.

(** The greatest write of a key decides what [Get] returns. *)
Lemma run_Get (ar : option Arena.t) (ops : list op) (k : bytes) (o : op) :
  (forall a, ar = Some a -> Arena.wf a) ->
  List.NoDup (map op_tag ops) ->
  In o ops -> op_key o = k ->
  (forall o', In o' ops -> op_key o' = k -> (op_seq o' <= op_seq o)%N) ->
  Skiplist.Get (Skiplist.run ops (Skiplist.NewSkiplist ar)) k = op_visible o.
Proof.
  intros Har Hnd Hin Hk Hmax.
  pose proof (run_entries ar ops k Har) as H.
  destruct (Skiplist.entries _ !! k) as [e|] eqn:E.
  - destruct H as (oc & Hinc & Hkc & -> & Hmaxc).
    assert (o = oc) as ->.
    { apply (NoDup_map_In_inj op_tag ops); auto. unfold op_tag.
      f_equal; [congruence|]. apply N.le_antisymm; auto. }
    now apply Get_entry_of.
  - now destruct (H o Hin).
Qed.

Lemma run_Get_none (ar : option Arena.t) (ops : list op) (k : bytes) :
  (forall a, ar = Some a -> Arena.wf a) ->
  (forall o, In o ops -> op_key o <> k) ->
  Skiplist.Get (Skiplist.run ops (Skiplist.NewSkiplist ar)) k = None.
Proof.
  intros Har Hno. pose proof (run_entries ar ops k Har) as H.
  unfold Skiplist.Get.
  destruct (Skiplist.entries _ !! k) as [e|] eqn:E; [|easy].
  destruct H as (oc & Hinc & Hkc & _). now destruct (Hno oc Hinc).
Qed.

(** ** The snapshot iterator *)

Lemma snapshot_length (m : gmap bytes entry) (ks : list bytes) :
  length (fst (Skiplist.snapshot m ks)) = length (snd (Skiplist.snapshot m ks)).
Proof.
  induction ks as [|k ks IH]; simpl; [easy|].
  destruct (Skiplist.snapshot m ks) as [keys vals]. simpl in IH.
  destruct (m !! k) as [e|]; [|easy].
  destruct (deleted e); simpl; congruence.
Qed.

Lemma snapshot_In (m : gmap bytes entry) (ks : list bytes) (k v : bytes) :
  In (k, v) (combine (fst (Skiplist.snapshot m ks)) (snd (Skiplist.snapshot m ks)))
  <-> In k ks /\ exists e, m !! k = Some e /\ deleted e = false /\ v = value e.
Proof.
  induction ks as [|h ks IH]; simpl.
  - split; [intros [] | intros [[] _]].
  - destruct (Skiplist.snapshot m ks) as [keys vals]. simpl in IH.
    destruct (m !! h) as [e|] eqn:Eh; [destruct (deleted e) eqn:Ed|]; simpl;
      rewrite IH; unfold clone; split.
    + intros [Hin He]. auto.
    + intros [[->|Hin] (e' & He' & Hd & Hv)]; [congruence|].
      split; [assumption|]. exists e'. auto.
    + intros [[= <- <-]|[Hin He]]; [|auto]. split; [now left|]. exists e. auto.
    + intros [[->|Hin] (e' & He' & Hd & Hv)].
      * left. congruence.
      * right. split; [assumption|]. exists e'. auto.
    + intros [Hin He]. auto.
    + intros [[->|Hin] (e' & He' & Hd & Hv)]; [congruence|].
      split; [assumption|]. exists e'. auto.
Qed.

Lemma snapshot_keys_sub (m : gmap bytes entry) (ks : list bytes) (x : bytes) :
  In x (fst (Skiplist.snapshot m ks)) -> In x ks.
Proof.
  induction ks as [|h ks IH]; simpl; [easy|].
  destruct (Skiplist.snapshot m ks) as [keys vals]. simpl in IH.
  destruct (m !! h) as [e|]; [destruct (deleted e)|]; simpl; intuition.
Qed.

Lemma snapshot_sorted (m : gmap bytes entry) (ks : list bytes) :
  StronglySorted bytes_lt ks ->
  StronglySorted bytes_lt (fst (Skiplist.snapshot m ks)).
Proof.
  induction 1 as [|h ks Hs IH Hh]; simpl; [constructor|].
  pose proof (snapshot_keys_sub m ks) as Hsub.
  destruct (Skiplist.snapshot m ks) as [keys vals]. simpl in *.
  destruct (m !! h) as [e|]; [destruct (deleted e)|]; simpl; try assumption.
  constructor; [assumption|]. rewrite List.Forall_forall in *. auto.
Qed.

Lemma combine_fst {A B : Type} (l : list A) (l' : list B) :
  length l = length l' -> map fst (combine l l') = l.
Proof.
  revert l'. induction l as [|a l IH]; intros [|a' l']; simpl; try easy.
  intros [= H]. now rewrite IH.
Qed.

Lemma skipn_nth_error {A : Type} (l : list A) (i : nat) (x : A) :
  nth_error l i = Some x -> skipn i l = x :: skipn (S i) l.
Proof.
  revert i. induction l as [|a l IH]; intros [|i]; simpl; try easy.
  - now intros [= ->].
  - apply IH.
Qed.

Lemma combine_nth_error {A B : Type} (l : list A) (l' : list B) (i : nat)
    (x : A) (y : B) :
  nth_error l i = Some x -> nth_error l' i = Some y ->
  nth_error (combine l l') i = Some (x, y).
Proof.
  revert l' i. induction l as [|a l IH]; intros [|a' l'] [|i]; simpl; try easy.
  - now intros [= ->] [= ->].
  - apply IH.
Qed.

(** Draining an iterator from position [i] yields the rest of the
    snapshot, in its order. *)
Lemma drain_from (keys vals : list bytes) (fuel i : nat) :
  length keys = length vals -> length keys - i < fuel ->
  Iterator.drain fuel
    {| Iterator.keys := keys; Iterator.vals := vals; Iterator.idx := Z.of_nat i |}
  = Some (skipn i (combine keys vals)).
Proof.
  intros Hlen. revert i. induction fuel as [|fuel IH]; intros i Hf; [lia|].
  cbn [Iterator.drain]. unfold Iterator.Valid, Iterator.Key, Iterator.Value.
  cbn [Iterator.keys Iterator.vals Iterator.idx].
  destruct (Z.leb_spec 0 (Z.of_nat i)); [|lia]. rewrite Nat2Z.id.
  destruct (Z.ltb_spec (Z.of_nat i) (Z.of_nat (length keys))) as [Hi|Hi]; cbn [andb].
  - assert (i < length keys) as Hi' by lia.
    destruct (nth_error keys i) as [k|] eqn:Ek;
      [|apply nth_error_None in Ek; lia].
    destruct (nth_error vals i) as [v|] eqn:Ev;
      [|apply nth_error_None in Ev; lia].
    unfold Iterator.Next. cbn [Iterator.keys Iterator.vals Iterator.idx].
    replace (Z.of_nat i + 1)%Z with (Z.of_nat (S i)) by lia.
    rewrite IH by lia.
    now rewrite (skipn_nth_error _ i (k, v) (combine_nth_error _ _ _ _ _ Ek Ev)).
  - rewrite skipn_all2; [easy|]. rewrite length_combine. lia.
Qed.

Lemma SeekGE_nil (it : Iterator.t) :
  Iterator.SeekGE it [] =
  {| Iterator.keys := Iterator.keys it; Iterator.vals := Iterator.vals it;
     Iterator.idx := 0 |}.
Proof. unfold Iterator.SeekGE. now rewrite search_loop_nil. Qed.

(** From the empty seek, the iterator of a table yields the pairs that
    [Get] sees, in ascending order of the keys. *)
Lemma NewIterator_drain (s : Skiplist.t) :
  Skiplist.wf s ->
  let it := Iterator.SeekGE (Skiplist.NewIterator s) [] in
  exists L,
    Iterator.drain (S (length (Iterator.keys it))) it = Some L
    /\ StronglySorted bytes_lt (map fst L)
    /\ forall k v, In (k, v) L <-> Skiplist.Get s k = Some v.
Proof.
  intros (Hs & Hdom & _). cbv zeta. rewrite SeekGE_nil.
  unfold Skiplist.NewIterator.
  pose proof (snapshot_length (Skiplist.entries s) (Skiplist.keys s)) as Hlen.
  pose proof (snapshot_sorted (Skiplist.entries s) (Skiplist.keys s) Hs) as Hsorted.
  pose proof (snapshot_In (Skiplist.entries s) (Skiplist.keys s)) as Hin.
  destruct (Skiplist.snapshot _ _) as [keys vals].
  cbn [fst snd Iterator.keys Iterator.vals] in *.
  exists (combine keys vals). split; [|split].
  - change 0%Z with (Z.of_nat 0). rewrite drain_from by (assumption || lia).
    reflexivity.
  - now rewrite combine_fst.
  - intros k v. rewrite Hin. unfold Skiplist.Get, clone. split.
    + intros (_ & e & -> & -> & ->). reflexivity.
    + destruct (Skiplist.entries s !! k) as [e|] eqn:E; [|easy].
      destruct (deleted e) eqn:Ed; [easy|]. intros [= <-].
      split; [apply Hdom; rewrite E; eauto | eauto].
Qed.

Lemma NewArena_wf (capacity : nat) : Arena.wf (Arena.NewArena capacity).
Proof. unfold Arena.wf, Arena.NewArena. simpl. lia. Qed.

Lemma fresh_arena_wf (cap : option nat) (a : Arena.t) :
  option_map Arena.NewArena cap = Some a -> Arena.wf a.
Proof. destruct cap; simpl; [intros [= <-]; apply NewArena_wf | easy]. Qed.

Lemma stale_Put (s : Skiplist.t) (k v : bytes) (sq : N) (cur : entry) :
  Skiplist.entries s !! k = Some cur -> (sq <= seq cur)%N ->
  Skiplist.Put s k v sq = (s, None).
Proof.
  intros E H. unfold Skiplist.Put, Skiplist.stale. rewrite E.
  now apply N.leb_le in H as ->.
Qed.

Lemma stale_Delete (s : Skiplist.t) (k : bytes) (sq : N) (cur : entry) :
  Skiplist.entries s !! k = Some cur -> (sq <= seq cur)%N ->
  Skiplist.Delete s k sq = (s, None).
Proof.
  intros E H. unfold Skiplist.Delete, Skiplist.stale. rewrite E.
  now apply N.leb_le in H as ->.
Qed.

(** The order of the calls does not matter when the sequence numbers of
    each key are distinct. *)
Lemma run_Get_Permutation (ar : option Arena.t) (ops ops' : list op) (k : bytes) :
  (forall a, ar = Some a -> Arena.wf a) ->
  List.NoDup (map op_tag ops) -> Permutation ops ops' ->
  Skiplist.Get (Skiplist.run ops' (Skiplist.NewSkiplist ar)) k =
  Skiplist.Get (Skiplist.run ops (Skiplist.NewSkiplist ar)) k.
Proof.
  intros Har Hnd Hperm.
  assert (List.NoDup (map op_tag ops')) as Hnd'.
  { eapply Permutation_NoDup; [|exact Hnd]. now apply Permutation_map. }
  pose proof (run_entries ar ops k Har) as H.
  destruct (Skiplist.entries (Skiplist.run ops _) !! k) as [e|] eqn:E.
  - destruct H as (o & Hin & Hk & -> & Hmax).
    rewrite (run_Get ar ops k o), (run_Get ar ops' k o); auto.
    + eapply Permutation_in; eassumption.
    + intros o' Hin'. apply Hmax. eapply Permutation_in; [|exact Hin'].
      now apply Permutation_sym.
  - rewrite !run_Get_none; auto.
    intros o Hin. apply H. eapply Permutation_in; [|exact Hin].
    now apply Permutation_sym.
Qed.

(** C3.  On a fresh table, whatever the order of the calls, the write of
    a key with the greatest sequence number alone decides what [Get]
    returns for that key, provided the sequence numbers of each key are
    pairwise distinct: the value of a [Put], absence for a [Delete].  A
    [Put] or [Delete] whose sequence number does not exceed the stored one
    leaves the table as it is and returns [nil]. *)
Theorem Skiplist_highest_seq_wins (cap : option nat) (ops : list op) :
  List.NoDup (map op_tag ops) ->
  let fresh := Skiplist.NewSkiplist (option_map Arena.NewArena cap) in
  (forall k o,
      In o ops -> op_key o = k ->
      (forall o', In o' ops -> op_key o' = k -> (op_seq o' <= op_seq o)%N) ->
      Skiplist.Get (Skiplist.run ops fresh) k = op_visible o)
  /\ (forall k,
      (forall o, In o ops -> op_key o <> k) ->
      Skiplist.Get (Skiplist.run ops fresh) k = None)
  /\ (forall ops' k,
      Permutation ops ops' ->
      Skiplist.Get (Skiplist.run ops' fresh) k =
      Skiplist.Get (Skiplist.run ops fresh) k)
  /\ (forall s k v sq cur,
      Skiplist.entries s !! k = Some cur -> (sq <= seq cur)%N ->
      Skiplist.Put s k v sq = (s, None)
      /\ Skiplist.Delete s k sq = (s, None)).
Proof.
  intros Hnd fresh. pose proof (fresh_arena_wf cap) as Har.
  repeat split.
  - intros k o. now apply run_Get.
  - intros k. now apply run_Get_none.
  - intros ops' k. now apply run_Get_Permutation.
  - eapply stale_Put; eassumption.
  - eapply stale_Delete; eassumption.
Qed.

Lemma Skiplist_highest_seq_wins_witness :
  List.NoDup (map op_tag S1_ops)
  /\ Skiplist.Get (Skiplist.run S1_ops (Skiplist.NewSkiplist None)) (b "k")
     = Some (b "v3").
Proof.
  assert (List.NoDup (map op_tag S1_ops)) as Hnd.
  { repeat constructor; simpl; intuition discriminate. }
  split; [exact Hnd|].
  apply (proj1 (Skiplist_highest_seq_wins None S1_ops Hnd) (b "k")
           (OpPut (b "k") (b "v3") 12)).
  - simpl. tauto.
  - reflexivity.
  - intros o' Hin _. simpl in Hin.
    destruct Hin as [<-|[<-|[<-|[<-|[<-|[]]]]]]; simpl; lia.
Defined.

(** The steps of S1 one after the other. *)
Example S1_sequence_monotonicity :
  let get ops := Skiplist.Get (Skiplist.run ops (Skiplist.NewSkiplist None)) (b "k") in
  get (firstn 2 S1_ops) = Some (b "v1")
  /\ get (firstn 3 S1_ops) = None
  /\ get (firstn 4 S1_ops) = None
  /\ get S1_ops = Some (b "v3").
Proof. vm_compute. auto. Qed.

(** C8.  The iterator of a table yields, from the empty seek, exactly the
    pairs that [Get] returns on the table as it was when the iterator was
    made, in strictly ascending order of the keys; the writes made to the
    table after that do not alter what the iterator yields. *)
Theorem Skiplist_iterator_is_snapshot (cap : option nat) (ops later : list op) :
  let s := Skiplist.run ops (Skiplist.NewSkiplist (option_map Arena.NewArena cap)) in
  exists L,
    Skiplist.snapshot_then_write s later = (Skiplist.run later s, Some L)
    /\ StronglySorted bytes_lt (map fst L)
    /\ forall k v, In (k, v) L <-> Skiplist.Get s k = Some v.
Proof.
  intros s.
  assert (Skiplist.wf s) as Hwf.
  { apply run_wf, NewSkiplist_wf, fresh_arena_wf. }
  destruct (NewIterator_drain s Hwf) as (L & Hd & Hs & Hin).
  exists L. unfold Skiplist.snapshot_then_write. now rewrite Hd.
Qed.

(** The scenario S2 of the specification. *)
Example S2_iterator_snapshot :
  snd (Skiplist.snapshot_then_write
         (Skiplist.run [OpPut (b "a") (b "1") 1; OpPut (b "b") (b "2") 2]
            (Skiplist.NewSkiplist None))
         [OpDelete (b "b") 3; OpPut (b "c") (b "3") 4])
  = Some [(b "a", b "1"); (b "b", b "2")].
Proof. vm_compute. reflexivity. Qed.

(** ** The controller *)

(** C1.  In the state of scenario S3 the current table holds a tombstone
    for ["a"] and the immutable table holds the value ["1"]; [Get("a")]
    falls through the tombstone and returns the value of the immutable
    table. *)
Theorem Memtable_Get_falls_through_tombstone :
  Skiplist.entries (Memtable.current S3_state) !! b "a" = Some (mkEntry 3 [] true)
  /\ option_map (fun i => Skiplist.Get i (b "a")) (Memtable.imm S3_state)
     = Some (Some (b "1"))
  /\ Memtable.Get S3_state (b "a") = Some (b "1")
  /\ Memtable.Get S3_state (b "bb") = Some (b "22").
Proof. repeat split; vm_compute; reflexivity. Qed.

(** In every state of that shape the older value shows through. *)
Lemma Memtable_Get_tombstone (m : Memtable.t) (i : Skiplist.t) (k v : bytes)
    (e : entry) :
  Skiplist.entries (Memtable.current m) !! k = Some e -> deleted e = true ->
  Memtable.imm m = Some i -> Skiplist.Get i k = Some v ->
  Memtable.Get m k = Some v.
Proof.
  intros He Hd Hi Hv. unfold Memtable.Get, Skiplist.Get at 1.
  now rewrite He, Hd, Hi.
Qed.

(** C2.  In the state of scenario S4 the merged iterator yields ["b"]
    twice: [Key] returns the key of the current table while the smaller
    key of the immutable table is being stepped over.  And when every key
    of the current table is deleted, the value that the tombstone of ["a"]
    should hide is yielded from the immutable table. *)
Theorem mergedIterator_yields_duplicates :
  mergedIterator.drain 8
    (mergedIterator.SeekGE (mergedIterator.NewIterator S4_state) [])
  = Some [(b "b", b "2"); (b "b", b "2"); (b "bb", b "22")]
  /\ mergedIterator.drain 8
       (mergedIterator.SeekGE (mergedIterator.NewIterator all_deleted_state) [])
     = Some [(b "a", b "1")].
Proof. split; vm_compute; reflexivity. Qed.

Lemma Memtable_run_app (ops : list op) (o : op) (m : Memtable.t) :
  Memtable.run (ops ++ [o]) m = Memtable.apply (Memtable.run ops m) o.
Proof. unfold Memtable.run. now rewrite fold_left_app. Qed.

Lemma flip_sealed (m : Memtable.t) (i : Skiplist.t) (key val : bytes) :
  Memtable.imm m = Some i -> Memtable.flip m key val = m.
Proof. unfold Memtable.flip. now intros ->. Qed.

Lemma apply_sealed (m : Memtable.t) (i : Skiplist.t) (o : op) :
  Memtable.imm m = Some i ->
  Memtable.imm (Memtable.apply m o) = Some i
  /\ Memtable.current (Memtable.apply m o) = Skiplist.apply (Memtable.current m) o.
Proof.
  intros Hi. destruct o as [k v sq | k sq]; simpl.
  - unfold Memtable.Put. rewrite (flip_sealed m i) by assumption.
    destruct (Skiplist.Put _ k v sq) as [cur err]. simpl. auto.
  - unfold Memtable.Delete.
    destruct (Skiplist.Delete _ k sq) as [cur err]. simpl. auto.
Qed.

(** C9.  The controller has one immutable slot.  While it is occupied, a
    run of [Put] and [Delete] calls leaves the table in it as it is, and
    is a run of the same writes on the current table: no call seals the
    current table again.  [PopImmutable] hands the table out and frees
    the slot. *)
Theorem Memtable_immutable_is_frozen (m : Memtable.t) (ops : list op) :
  Memtable.HasImmutable m = true ->
  let m' := Memtable.run ops m in
  Memtable.imm m' = Memtable.imm m
  /\ Memtable.current m' = Skiplist.run ops (Memtable.current m)
  /\ snd (Memtable.PopImmutable m') = Memtable.imm m
  /\ Memtable.HasImmutable (fst (Memtable.PopImmutable m')) = false
  /\ Memtable.current (fst (Memtable.PopImmutable m')) = Memtable.current m'.
Proof.
  intros H m'. unfold Memtable.HasImmutable in H.
  destruct (Memtable.imm m) as [i|] eqn:Hi; [clear H|discriminate].
  assert (Memtable.imm m' = Some i
          /\ Memtable.current m' = Skiplist.run ops (Memtable.current m)) as [H1 H2].
  { unfold m'. induction ops as [|o ops [IH1 IH2]] using rev_ind; [easy|].
    rewrite Memtable_run_app, run_app.
    destruct (apply_sealed _ i o IH1) as [H1 H2]. now rewrite H1, H2, IH2. }
  repeat split; assumption.
Qed.

Lemma Memtable_immutable_is_frozen_witness :
  Memtable.HasImmutable S3_state = true
  /\ Memtable.imm (Memtable.run [OpDelete (b "a") 7; OpPut (b "c") (b "3") 8] S3_state)
     = Memtable.imm S3_state.
Proof.
  assert (Memtable.HasImmutable S3_state = true) as Hi by (vm_compute; reflexivity).
  split; [exact Hi|].
  exact (proj1 (Memtable_immutable_is_frozen S3_state
                  [OpDelete (b "a") 7; OpPut (b "c") (b "3") 8] Hi)).
Defined.


(** ** Rejected puts and the byte counter *)












(** ** Bytes and big-endian integers *)

Local Open Scope Z_scope.

Lemma Z_of_byte_range (x : byte) : 0 <= Z_of_byte x < 256.
Proof.
  unfold Z_of_byte. pose proof (Byte.to_N_bounded x). lia.
Qed.

Lemma Z_of_byte_of_Z (z : Z) : Z_of_byte (byte_of_Z z) = z mod 256.
Proof.
  unfold Z_of_byte, byte_of_Z.
  pose proof (Z.mod_pos_bound z 256 ltac:(lia)) as Hz.
  destruct (Byte.of_N (Z.to_N (z mod 256))) as [x|] eqn:E.
  - apply Byte.to_of_N in E. rewrite E. lia.
  - apply Byte.of_N_None_iff in E. lia.
Qed.

Lemma byte_of_Z_of_byte (x : byte) : byte_of_Z (Z_of_byte x) = x.
Proof.
  unfold byte_of_Z. rewrite Z.mod_small by apply Z_of_byte_range.
  unfold Z_of_byte. now rewrite N2Z.id, Byte.of_to_N.
Qed.

Lemma Z_of_byte_inj (x y : byte) : Z_of_byte x = Z_of_byte y -> x = y.
Proof.
  intros H. rewrite <- (byte_of_Z_of_byte x), <- (byte_of_Z_of_byte y).
  now rewrite H.
Qed.

Lemma lor_shiftl_8 (a x : Z) :
  0 <= a -> 0 <= x < 256 -> Z.lor (Z.shiftl a 8) x = a * 256 + x.
Proof.
  intros Ha Hx. rewrite Z.shiftl_mul_pow2 by lia.
  change (2 ^ 8) with 256. rewrite <- Z.add_nocarry_lor.
  - reflexivity.
  - apply Z.bits_inj'. intros n Hn. rewrite Z.land_spec, Z.bits_0.
    destruct (Z.lt_ge_cases n 8) as [Hlt|Hge].
    + change 256 with (2 ^ 8). rewrite Z.mul_pow2_bits_low by lia. reflexivity.
    + rewrite (Z.bits_above_log2 x n); [apply andb_false_r|lia|].
      destruct (Z.eq_dec x 0) as [->|Hne]; [simpl; lia|].
      apply Z.log2_lt_pow2; [lia|].
      apply Z.lt_le_trans with (2 ^ 8); [simpl; lia|].
      apply Z.pow_le_mono_r; lia.
Qed.

Lemma be_snoc (l : bytes) (x : byte) :
  BigEndian.be (l ++ [x]) = Z.lor (Z.shiftl (BigEndian.be l) 8) (Z_of_byte x).
Proof. unfold BigEndian.be. now rewrite fold_left_app. Qed.

Lemma be_nonneg (l : bytes) : 0 <= BigEndian.be l.
Proof.
  induction l as [|x l IH] using rev_ind; [easy|].
  rewrite be_snoc, lor_shiftl_8; auto using Z_of_byte_range.
  pose proof (Z_of_byte_range x). lia.
Qed.

Lemma be_snoc_add (l : bytes) (x : byte) :
  BigEndian.be (l ++ [x]) = BigEndian.be l * 256 + Z_of_byte x.
Proof.
  rewrite be_snoc. apply lor_shiftl_8; [apply be_nonneg | apply Z_of_byte_range].
Qed.

Lemma be_bound (l : bytes) : BigEndian.be l < 256 ^ Z.of_nat (length l).
Proof.
  induction l as [|x l IH] using rev_ind; [easy|].
  rewrite be_snoc_add, length_app, Nat2Z.inj_add. simpl length.
  rewrite Z.pow_add_r by lia. change (256 ^ Z.of_nat 1) with 256.
  pose proof (Z_of_byte_range x). pose proof (be_nonneg l). nia.
Qed.

(** Two byte sequences of one length with one value are equal. *)
Lemma be_inj (l l' : bytes) :
  length l = length l' -> BigEndian.be l = BigEndian.be l' -> l = l'.
Proof.
  revert l'. induction l as [|x l IH] using rev_ind; intros l' Hlen Hbe.
  - destruct l'; [reflexivity|discriminate].
  - induction l' as [|y l' _] using rev_ind.
    + rewrite length_app in Hlen. simpl in Hlen. lia.
    + rewrite !length_app in Hlen. simpl in Hlen.
      rewrite !be_snoc_add in Hbe.
      pose proof (Z_of_byte_range x). pose proof (Z_of_byte_range y).
      assert (BigEndian.be l = BigEndian.be l' /\ Z_of_byte x = Z_of_byte y)
        as [Hl Hx] by lia.
      apply Z_of_byte_inj in Hx. subst y. f_equal. apply IH; [lia|assumption].
Qed.

Lemma be_4 (a0 a1 a2 a3 : byte) :
  BigEndian.be [a0; a1; a2; a3]
  = ((Z_of_byte a0 * 256 + Z_of_byte a1) * 256 + Z_of_byte a2) * 256 + Z_of_byte a3.
Proof.
  change [a0; a1; a2; a3] with (((([] ++ [a0]) ++ [a1]) ++ [a2]) ++ [a3]).
  rewrite !be_snoc_add. reflexivity.
Qed.

Lemma Uint32_PutUint32 (v : Z) (rest : bytes) :
  0 <= v < 2 ^ 32 ->
  BigEndian.Uint32 (BigEndian.PutUint32 v ++ rest) = v.
Proof.
  intros Hv. unfold BigEndian.Uint32, BigEndian.PutUint32.
  cbn [app firstn]. rewrite be_4, !Z_of_byte_of_Z, !Z.shiftr_div_pow2 by lia.
  change (2 ^ 24) with 16777216. change (2 ^ 16) with 65536.
  change (2 ^ 8) with 256. change (2 ^ 32) with 4294967296 in Hv.
  Z.div_mod_to_equations. lia.
Qed.

Lemma Uint64_PutUint64 (v : Z) (rest : bytes) :
  0 <= v < 2 ^ 64 ->
  BigEndian.Uint64 (BigEndian.PutUint64 v ++ rest) = v.
Proof.
  intros Hv. unfold BigEndian.Uint64, BigEndian.PutUint64.
  cbn [app firstn]. change (firstn 0 rest) with (@nil byte).
  match goal with
  | |- BigEndian.be [?a0; ?a1; ?a2; ?a3; ?a4; ?a5; ?a6; ?a7] = _ =>
      change [a0; a1; a2; a3; a4; a5; a6; a7]
        with (((((((([] ++ [a0]) ++ [a1]) ++ [a2]) ++ [a3]) ++ [a4]) ++ [a5])
                ++ [a6]) ++ [a7])
  end.
  rewrite !be_snoc_add, !Z_of_byte_of_Z, !Z.shiftr_div_pow2 by lia.
  change (BigEndian.be []) with 0.
  change (2 ^ 56) with 72057594037927936. change (2 ^ 48) with 281474976710656.
  change (2 ^ 40) with 1099511627776. change (2 ^ 32) with 4294967296.
  change (2 ^ 24) with 16777216. change (2 ^ 16) with 65536.
  change (2 ^ 8) with 256. change (2 ^ 64) with 18446744073709551616 in Hv.
  Z.div_mod_to_equations. lia.
Qed.

Lemma PutUint32_length (v : Z) : length (BigEndian.PutUint32 v) = 4%nat.
Proof. reflexivity. Qed.

Lemma PutUint64_length (v : Z) : length (BigEndian.PutUint64 v) = 8%nat.
Proof. reflexivity. Qed.

Lemma Uint32_range (l : bytes) : 0 <= BigEndian.Uint32 l < 2 ^ 32.
Proof.
  unfold BigEndian.Uint32. split; [apply be_nonneg|].
  eapply Z.lt_le_trans; [apply be_bound|].
  change (2 ^ 32) with (256 ^ 4). apply Z.pow_le_mono_r; [lia|].
  pose proof (length_firstn 4 l) as H. rewrite H. lia.
Qed.

(** ** The checksum *)

Lemma lxor_word32 (x y : Z) : word32 x -> word32 y -> word32 (Z.lxor x y).
Proof.
  unfold word32. intros Hx Hy.
  assert (0 <= Z.lxor x y) as H0 by (apply Z.lxor_nonneg; lia).
  split; [assumption|].
  destruct (Z.eq_dec (Z.lxor x y) 0) as [->|Hne]; [easy|].
  apply Z.log2_lt_pow2; [lia|].
  eapply Z.le_lt_trans; [apply Z.log2_lxor; lia|].
  apply Z.max_lub_lt.
  - destruct (Z.eq_dec x 0) as [->|Hx0]; [easy|]. apply Z.log2_lt_pow2; lia.
  - destruct (Z.eq_dec y 0) as [->|Hy0]; [easy|]. apply Z.log2_lt_pow2; lia.
Qed.

Lemma lxor_cancel_r (x y k : Z) : Z.lxor x k = Z.lxor y k -> x = y.
Proof.
  intros H. apply (f_equal (fun z => Z.lxor z k)) in H.
  now rewrite !Z.lxor_assoc, !Z.lxor_nilpotent, !Z.lxor_0_r in H.
Qed.

Lemma lxor_cancel_l (x y k : Z) : Z.lxor k x = Z.lxor k y -> x = y.
Proof. rewrite !(Z.lxor_comm k). apply lxor_cancel_r. Qed.

Lemma IEEE_word32 : word32 crc32.IEEE.
Proof. unfold word32, crc32.IEEE. lia. Qed.

Lemma half_bound (c : Z) : word32 c -> 0 <= Z.shiftr c 1 < 2 ^ 31.
Proof.
  unfold word32. intros H. rewrite Z.shiftr_div_pow2 by lia.
  change (2 ^ 1) with 2. change (2 ^ 32) with (2 * 2 ^ 31) in H.
  split; [apply Z.div_pos; lia | apply Z.div_lt_upper_bound; lia].
Qed.

Lemma small_bit31 (h : Z) : 0 <= h < 2 ^ 31 -> Z.testbit h 31 = false.
Proof.
  intros H. destruct (Z.eq_dec h 0) as [->|Hne]; [apply Z.bits_0|].
  apply Z.bits_above_log2; [lia|]. apply Z.log2_lt_pow2; lia.
Qed.

Lemma shift_word32 (c : Z) : word32 c -> word32 (crc32.shift c).
Proof.
  intros H. pose proof (half_bound c H) as Hh. unfold crc32.shift.
  assert (word32 (Z.shiftr c 1)) as Hw.
  { unfold word32. change (2 ^ 32) with (2 * 2 ^ 31). lia. }
  destruct (Z.odd c); [|assumption].
  apply lxor_word32; [assumption|apply IEEE_word32].
Qed.

(** The top bit of the shifted register tells whether a bit fell out. *)
Lemma shift_bit31 (c : Z) : word32 c -> Z.testbit (crc32.shift c) 31 = Z.odd c.
Proof.
  intros H. pose proof (half_bound c H) as Hh. unfold crc32.shift.
  destruct (Z.odd c).
  - rewrite Z.lxor_spec, (small_bit31 _ Hh). reflexivity.
  - now apply small_bit31.
Qed.

Lemma shift_inj (x y : Z) :
  word32 x -> word32 y -> crc32.shift x = crc32.shift y -> x = y.
Proof.
  intros Hx Hy H.
  assert (Z.odd x = Z.odd y) as Ho.
  { rewrite <- (shift_bit31 x Hx), <- (shift_bit31 y Hy). now rewrite H. }
  unfold crc32.shift in H. rewrite <- Ho in H.
  assert (Z.shiftr x 1 = Z.shiftr y 1) as Hs.
  { destruct (Z.odd x); [now apply lxor_cancel_r in H | assumption]. }
  rewrite !Z.shiftr_div_pow2 in Hs by lia. change (2 ^ 1) with 2 in Hs.
  rewrite (Z.div_mod x 2), (Z.div_mod y 2) by lia.
  rewrite Hs. f_equal.
  rewrite !Zmod_odd, Ho. reflexivity.
Qed.

Lemma iter_shift_word32 (n : nat) (c : Z) :
  word32 c -> word32 (Nat.iter n crc32.shift c).
Proof. induction n; simpl; auto using shift_word32. Qed.

Lemma iter_shift_inj (n : nat) (x y : Z) :
  word32 x -> word32 y ->
  Nat.iter n crc32.shift x = Nat.iter n crc32.shift y -> x = y.
Proof.
  intros Hx Hy. induction n as [|n IH]; simpl; [easy|].
  intros H. apply shift_inj in H; auto using iter_shift_word32.
Qed.

Lemma byte_word32 (x : byte) : word32 (Z_of_byte x).
Proof. unfold word32. pose proof (Z_of_byte_range x). lia. Qed.

Lemma step_word32 (c : Z) (x : byte) : word32 c -> word32 (crc32.step c x).
Proof.
  intros H. unfold crc32.step.
  apply iter_shift_word32, lxor_word32; [assumption|apply byte_word32].
Qed.

Lemma step_inj_state (c d : Z) (x : byte) :
  word32 c -> word32 d -> crc32.step c x = crc32.step d x -> c = d.
Proof.
  intros Hc Hd H. unfold crc32.step in H.
  apply iter_shift_inj in H; auto using lxor_word32, byte_word32.
  now apply lxor_cancel_r in H.
Qed.

Lemma step_inj_byte (c : Z) (x y : byte) :
  word32 c -> crc32.step c x = crc32.step c y -> x = y.
Proof.
  intros Hc H. unfold crc32.step in H.
  apply iter_shift_inj in H; auto using lxor_word32, byte_word32.
  now apply lxor_cancel_l, Z_of_byte_inj in H.
Qed.

Lemma update_word32 (p : bytes) (c : Z) : word32 c -> word32 (crc32.update c p).
Proof.
  revert c. induction p as [|x p IH]; intros c Hc; simpl; [assumption|].
  apply IH, step_word32, Hc.
Qed.

Lemma update_inj_state (p : bytes) (c d : Z) :
  word32 c -> word32 d -> crc32.update c p = crc32.update d p -> c = d.
Proof.
  revert c d. induction p as [|x p IH]; intros c d Hc Hd; simpl; [easy|].
  intros H. apply IH in H; auto using step_word32.
  now apply step_inj_state in H.
Qed.

Lemma update_app (p q : bytes) (c : Z) :
  crc32.update c (p ++ q) = crc32.update (crc32.update c p) q.
Proof. unfold crc32.update. apply fold_left_app. Qed.

(** The checksum tells apart two payloads that differ in one byte. *)
Lemma ChecksumIEEE_one_byte (p q : bytes) (x y : byte) :
  x <> y ->
  crc32.ChecksumIEEE (p ++ x :: q) <> crc32.ChecksumIEEE (p ++ y :: q).
Proof.
  intros Hne H. unfold crc32.ChecksumIEEE in H. apply lxor_cancel_r in H.
  rewrite !update_app in H. simpl in H.
  assert (word32 (crc32.update 4294967295 p)) as Hp.
  { apply update_word32. unfold word32. lia. }
  apply update_inj_state in H; auto using step_word32.
  now apply step_inj_byte in H.
Qed.

Lemma ChecksumIEEE_word32 (p : bytes) : word32 (crc32.ChecksumIEEE p).
Proof.
  unfold crc32.ChecksumIEEE.
  apply lxor_word32; [apply update_word32|]; unfold word32; lia.
Qed.

(** ** The frame of a record *)

Lemma write_at_seg (pre old post src : bytes) :
  length old = length src ->
  Arena.write_at (pre ++ old ++ post) (length pre) src = pre ++ src ++ post.
Proof.
  intros H. unfold Arena.write_at.
  rewrite List.firstn_app, Nat.sub_diag, List.firstn_all, List.firstn_O, app_nil_r.
  rewrite List.skipn_app, (skipn_all2 pre) by lia.
  rewrite app_nil_l. replace (length pre + length src - length pre)%nat
    with (length old) by lia.
  rewrite List.skipn_app, Nat.sub_diag, List.skipn_all, List.skipn_O.
  reflexivity.
Qed.

Lemma write_at_seg0 (old post src : bytes) :
  length old = length src ->
  Arena.write_at (old ++ post) 0 src = src ++ post.
Proof. intros H. now apply (write_at_seg [] old post src). Qed.

Lemma sub_seg (pre x post : bytes) (lo hi : nat) :
  lo = length pre -> hi = (length pre + length x)%nat ->
  sub (pre ++ x ++ post) lo hi = x.
Proof.
  intros -> ->. unfold sub.
  rewrite List.skipn_app, Nat.sub_diag, List.skipn_all, List.skipn_O, app_nil_l.
  replace (length pre + length x - length pre)%nat with (length x) by lia.
  now rewrite List.firstn_app, Nat.sub_diag, List.firstn_all, List.firstn_O, app_nil_r.
Qed.

Lemma payload_length (r : wal.Record_) :
  length (wal.payload r)
  = (1 + 8 + 4 + length (wal.Key r) + 4 + length (wal.Value r))%nat.
Proof.
  unfold wal.payload. rewrite !length_app, PutUint64_length, !PutUint32_length.
  simpl. lia.
Qed.

Lemma write_at_skip (p rest src : bytes) (pos : nat) :
  (length p <= pos)%nat ->
  Arena.write_at (p ++ rest) pos src
  = p ++ Arena.write_at rest (pos - length p) src.
Proof.
  intros H. unfold Arena.write_at.
  rewrite List.firstn_app, (firstn_all2 p) by lia.
  rewrite List.skipn_app, (skipn_all2 p) by lia.
  rewrite app_nil_l, <- app_assoc.
  replace (pos + length src - length p)%nat
    with (pos - length p + length src)%nat by lia.
  reflexivity.
Qed.

Lemma write_at_here (old post src : bytes) (pos : nat) :
  pos = 0%nat -> length old = length src ->
  Arena.write_at (old ++ post) pos src = src ++ post.
Proof. intros -> H. now apply write_at_seg0. Qed.

(** The seven writes of [Encode] into the zeroed buffer. *)
Lemma frame_writes (A T S KL K VL V : bytes) :
  length A = 4%nat -> length T = 1%nat -> length S = 8%nat ->
  length KL = 4%nat -> length VL = 4%nat ->
  Arena.write_at
    (Arena.write_at
       (Arena.write_at
          (Arena.write_at
             (Arena.write_at
                (Arena.write_at
                   (Arena.write_at
                      (Arena.make (4 + 4 + (1 + 8 + 4 + length K + 4 + length V)))
                      0 A)
                   8 T)
                (8 + 1) S)
             (8 + 1 + 8) KL)
          (8 + 1 + 8 + 4) K)
       (8 + 1 + 8 + 4 + length K) VL)
    (8 + 1 + 8 + 4 + length K + 4) V
  = A ++ repeat x00 4 ++ T ++ S ++ KL ++ K ++ VL ++ V.
Proof.
  intros HA HT HS HKL HVL. unfold Arena.make.
  set (z := repeat x00).
  assert (forall n, length (z n) = n) as Hz by (intros; apply repeat_length).
  replace (z (4 + 4 + (1 + 8 + 4 + length K + 4 + length V))%nat)
    with (z 4%nat ++ z 4%nat ++ z 1%nat ++ z 8%nat ++ z 4%nat ++ z (length K)
            ++ z 4%nat ++ z (length V) ++ []).
  2:{ unfold z. rewrite app_nil_r, <- !repeat_app. f_equal. lia. }
  do 7 (repeat (rewrite write_at_skip
                  by (rewrite ?length_app, ?Hz, ?HA, ?HT, ?HS, ?HKL, ?HVL; lia));
        rewrite write_at_here
          by (rewrite ?length_app, ?Hz, ?HA, ?HT, ?HS, ?HKL, ?HVL; lia)).
  now rewrite app_nil_r.
Qed.

(** The frame that [Encode] builds in place, as a concatenation. *)
Lemma Encode_eq (r : wal.Record_) :
  wal.Encode r
  = BigEndian.PutUint32 (uint32 (Z.of_nat (length (wal.payload r))))
      ++ BigEndian.PutUint32 (crc32.ChecksumIEEE (wal.payload r))
      ++ wal.payload r.
Proof.
  rewrite payload_length. unfold wal.Encode, wal.payload.
  rewrite !frame_writes by reflexivity.
  set (A := BigEndian.PutUint32 _).
  set (P := [wal.Type_ r] ++ _).
  replace (skipn 8 (A ++ repeat x00 4 ++ P)) with P.
  2:{ rewrite (app_assoc A), List.skipn_app.
      rewrite skipn_all2 by (rewrite length_app, repeat_length; unfold A; simpl; lia).
      rewrite length_app, repeat_length. unfold A. simpl length. simpl Nat.sub.
      now rewrite List.skipn_O. }
  rewrite (write_at_skip A) by (unfold A; simpl; lia).
  rewrite write_at_here by (unfold A; simpl; lia || reflexivity).
  reflexivity.
Qed.

(** ** Decoding a frame *)

Lemma sub_skip (p rest : bytes) (lo hi : nat) :
  (length p <= lo)%nat ->
  sub (p ++ rest) lo hi = sub rest (lo - length p) (hi - length p).
Proof.
  intros H. unfold sub. rewrite List.skipn_app, (skipn_all2 p), app_nil_l by lia.
  f_equal. lia.
Qed.

Lemma sub_here (x post : bytes) (lo hi : nat) :
  lo = 0%nat -> hi = length x -> sub (x ++ post) lo hi = x.
Proof.
  intros -> ->. unfold sub. rewrite List.skipn_O, Nat.sub_0_r.
  now rewrite List.firstn_app, Nat.sub_diag, List.firstn_all, List.firstn_O, app_nil_r.
Qed.

Ltac frame_len :=
  rewrite ?length_app, ?PutUint32_length, ?PutUint64_length; simpl length; lia.

Ltac frame_sub :=
  repeat (rewrite sub_skip by frame_len); rewrite sub_here by frame_len.

Lemma uint32_small (z : Z) : 0 <= z < 2 ^ 32 -> uint32 z = z.
Proof. intros H. unfold uint32. now apply Z.mod_small. Qed.

Lemma Uint32_Put (v : Z) :
  0 <= v < 2 ^ 32 -> BigEndian.Uint32 (BigEndian.PutUint32 v) = v.
Proof.
  intros H. rewrite <- (app_nil_r (BigEndian.PutUint32 v)).
  now apply Uint32_PutUint32.
Qed.

Lemma Uint64_Put (v : Z) :
  0 <= v < 2 ^ 64 -> BigEndian.Uint64 (BigEndian.PutUint64 v) = v.
Proof.
  intros H. rewrite <- (app_nil_r (BigEndian.PutUint64 v)).
  now apply Uint64_PutUint64.
Qed.

(** The header checks of [Decode] on a whole frame: what is left is the
    comparison of the checksums. *)
Lemma Decode_mismatch (hl hc pl : bytes) :
  length hl = 4%nat -> length hc = 4%nat ->
  BigEndian.Uint32 hl = Z.of_nat (length pl) ->
  8 + Z.of_nat (length pl) < 2 ^ 32 ->
  BigEndian.Uint32 hc <> crc32.ChecksumIEEE pl ->
  wal.Decode (wal.exact (hl ++ hc ++ pl))
  = Err (errors_New "checksum mismatch").
Proof.
  intros Hl Hc Hlen Hfit Hne. unfold wal.Decode, wal.exact.
  cbn [wal.data wal.spare]. rewrite app_nil_r.
  assert (length (hl ++ hc ++ pl) = (8 + length pl)%nat) as Hn
    by (rewrite !length_app; lia).
  rewrite Hn.
  destruct (Nat.ltb_spec (8 + length pl) 8); [lia|].
  replace (sub (hl ++ hc ++ pl) 0 4) with hl
    by (symmetry; apply sub_here; [reflexivity|lia]).
  replace (sub (hl ++ hc ++ pl) 4 8) with hc.
  2:{ symmetry. rewrite sub_skip by lia. apply sub_here; lia. }
  rewrite Hlen, uint32_small by lia.
  replace (Z.to_nat (8 + Z.of_nat (length pl))) with (8 + length pl)%nat by lia.
  destruct (Nat.ltb_spec (8 + length pl) (8 + length pl)); [lia|].
  destruct (Nat.ltb_spec (8 + length pl) 8); [lia|].
  replace (sub (hl ++ hc ++ pl) 8 (8 + length pl)) with pl.
  2:{ symmetry. rewrite sub_skip by lia. rewrite sub_skip by lia.
      rewrite <- (app_nil_r pl) at 1. apply sub_here; lia. }
  destruct (Z.eqb_spec (BigEndian.Uint32 hc) (crc32.ChecksumIEEE pl)); [contradiction|].
  reflexivity.
Qed.

Lemma fits_payload (r : wal.Record_) :
  wal.fits r ->
  uint32 (Z.of_nat (length (wal.payload r))) = Z.of_nat (length (wal.payload r))
  /\ 8 + Z.of_nat (length (wal.payload r)) < 2 ^ 32
  /\ uint32 (len (wal.Key r)) = len (wal.Key r)
  /\ uint32 (len (wal.Value r)) = len (wal.Value r).
Proof.
  intros [Hf _]. rewrite payload_length. unfold len in *.
  rewrite !uint32_small by lia. lia.
Qed.

(** The round trip of the codec. *)
Lemma Decode_Encode (r : wal.Record_) :
  wal.fits r -> wal.Decode (wal.exact (wal.Encode r)) = Ok r.
Proof.
  intros Hfits. destruct (fits_payload r Hfits) as (Hu & Hfit & Hk & Hv).
  destruct Hfits as [Hsz Hseq].
  rewrite Encode_eq, Hu. unfold wal.Decode, wal.exact.
  cbn [wal.data wal.spare]. rewrite app_nil_r.
  set (hl := BigEndian.PutUint32 _). set (hc := BigEndian.PutUint32 _).
  assert (BigEndian.Uint32 hl = Z.of_nat (length (wal.payload r))) as EHl
    by (apply Uint32_Put; lia).
  assert (BigEndian.Uint32 hc = crc32.ChecksumIEEE (wal.payload r)) as EHc
    by (apply Uint32_Put, ChecksumIEEE_word32).
  assert (length hl = 4%nat /\ length hc = 4%nat) as (Lhl & Lhc)
    by (split; reflexivity).
  assert (length (hl ++ hc ++ wal.payload r) = (8 + length (wal.payload r))%nat)
    as Hn by (rewrite !length_app; lia).
  rewrite Hn.
  replace (sub (hl ++ hc ++ wal.payload r) 0 4) with hl
    by (symmetry; apply sub_here; reflexivity).
  replace (sub (hl ++ hc ++ wal.payload r) 4 8) with hc.
  2:{ symmetry. rewrite sub_skip by lia. apply sub_here; reflexivity. }
  rewrite !EHl, !EHc, !uint32_small by lia.
  replace (Z.to_nat (8 + Z.of_nat (length (wal.payload r))))
    with (8 + length (wal.payload r))%nat by lia.
  replace (sub (hl ++ hc ++ wal.payload r) 8 (8 + length (wal.payload r)))
    with (wal.payload r).
  2:{ symmetry. rewrite sub_skip by lia. rewrite sub_skip by lia.
      rewrite <- (app_nil_r (wal.payload r)) at 1. apply sub_here; lia. }
  rewrite Z.eqb_refl. cbn [negb].
  rewrite payload_length in *. unfold wal.payload.
  set (S := BigEndian.PutUint64 _).
  set (KL := BigEndian.PutUint32 (uint32 (len (wal.Key r)))).
  set (VL := BigEndian.PutUint32 (uint32 (len (wal.Value r)))).
  assert (BigEndian.Uint64 S = wal.SeqNum r) as ES by (now apply Uint64_Put).
  assert (BigEndian.Uint32 KL = len (wal.Key r)) as EKL
    by (unfold KL; rewrite Hk; apply Uint32_Put; unfold len; lia).
  assert (BigEndian.Uint32 VL = len (wal.Value r)) as EVL
    by (unfold VL; rewrite Hv; apply Uint32_Put; unfold len; lia).
  assert (length S = 8%nat /\ length KL = 4%nat /\ length VL = 4%nat)
    as (LS & LKL & LVL) by (repeat split; reflexivity).
  set (K := wal.Key r) in *. set (V := wal.Value r) in *.
  set (T := [wal.Type_ r]).
  assert (length T = 1%nat) as LT by reflexivity.
  replace (nth_error (hl ++ hc ++ T ++ S ++ KL ++ K ++ VL ++ V) 8)
    with (Some (wal.Type_ r)).
  2:{ rewrite nth_error_app2 by lia. rewrite nth_error_app2 by lia.
      rewrite Lhl, Lhc. reflexivity. }
  replace (sub (hl ++ hc ++ T ++ S ++ KL ++ K ++ VL ++ V) (8 + 1) (8 + 1 + 8)) with S.
  2:{ symmetry. do 3 (rewrite sub_skip by lia). apply sub_here; lia. }
  replace (sub (hl ++ hc ++ T ++ S ++ KL ++ K ++ VL ++ V) (8 + 1 + 8) (8 + 1 + 8 + 4))
    with KL.
  2:{ symmetry. do 4 (rewrite sub_skip by lia). apply sub_here; lia. }
  rewrite ES, !EKL. unfold len. rewrite !Nat2Z.id. fold K.
  replace (sub (hl ++ hc ++ T ++ S ++ KL ++ K ++ VL ++ V)
             (8 + 1 + 8 + 4 + length K) (8 + 1 + 8 + 4 + length K + 4)) with VL.
  2:{ symmetry. do 6 (rewrite sub_skip by lia). apply sub_here; lia. }
  rewrite !EVL. unfold len. rewrite !Nat2Z.id. fold V.
  replace (sub (hl ++ hc ++ T ++ S ++ KL ++ K ++ VL ++ V)
             (8 + 1 + 8 + 4) (8 + 1 + 8 + 4 + length K)) with K.
  2:{ symmetry. do 5 (rewrite sub_skip by lia). apply sub_here; lia. }
  replace (sub (hl ++ hc ++ T ++ S ++ KL ++ K ++ VL ++ V)
             (8 + 1 + 8 + 4 + length K + 4)
             (8 + 1 + 8 + 4 + length K + 4 + length V)) with V.
  2:{ symmetry. do 7 (rewrite sub_skip by lia).
      rewrite <- (app_nil_r V) at 1. apply sub_here; lia. }
  repeat match goal with
         | |- context [Nat.ltb ?a ?b] =>
             destruct (Nat.ltb_spec a b); [lia|]
         end.
  unfold K, V. now destruct r.
Qed.

(** ** What [Decode] accepts and rejects *)

Lemma sub_length (s : bytes) (lo hi : nat) : (length (sub s lo hi) <= hi - lo)%nat.
Proof. unfold sub. rewrite length_firstn. lia. Qed.

(** A decoded key is never longer than its length field can say. *)
Lemma Decode_Ok_key_length (buf : wal.buffer) (r : wal.Record_) :
  wal.Decode buf = Ok r -> Z.of_nat (length (wal.Key r)) < 2 ^ 32.
Proof.
  unfold wal.Decode.
  repeat match goal with
         | |- context [if ?c then _ else _] => destruct c; try discriminate
         | |- context [match nth_error ?l ?i with _ => _ end] =>
             destruct (nth_error l i); try discriminate
         end.
  intros [= <-]. cbn [wal.Key].
  match goal with
  | |- Z.of_nat (length (sub ?s ?lo ?hi)) < _ => pose proof (sub_length s lo hi)
  end.
  match goal with
  | H : context [Z.to_nat (BigEndian.Uint32 ?x)] |- _ =>
      pose proof (Uint32_range x)
  end.
  lia.
Qed.

(** C4, as the code has it.  For every record whose frame is shorter than
    [2^32] bytes, with any type byte, any 64-bit sequence number and any
    key and value, the empty ones included, decoding the encoded frame
    succeeds and returns the record. *)
Theorem Record_roundtrip (r : wal.Record_) :
  wal.fits r -> wal.Decode (wal.exact (wal.Encode r)) = Ok r.
Proof. apply Decode_Encode. Qed.

Lemma test_record_fits : wal.fits test_record.
Proof. unfold wal.fits, test_record, len. simpl. lia. Qed.

Lemma Record_roundtrip_witness :
  wal.fits test_record
  /\ wal.Decode (wal.exact (wal.Encode test_record)) = Ok test_record.
Proof.
  split; [exact test_record_fits | exact (Record_roundtrip test_record test_record_fits)].
Defined.

(** ** Checksums over long runs of zero bytes *)

Lemma linear_0 (f : Z -> Z) : linear f -> f 0 = 0.
Proof.
  intros H. pose proof (H 0 0) as E.
  now rewrite Z.lxor_0_r, Z.lxor_nilpotent in E.
Qed.

Lemma top_bit_split (n : nat) (s : Z) :
  0 <= s < 2 ^ Z.of_nat (S n) ->
  s = Z.lxor (if Z.testbit s (Z.of_nat n) then 2 ^ Z.of_nat n else 0)
             (s mod 2 ^ Z.of_nat n).
Proof.
  intros Hs. apply Z.bits_inj'. intros i Hi. rewrite Z.lxor_spec.
  destruct (Z.lt_trichotomy i (Z.of_nat n)) as [Hlt|[->|Hgt]].
  - rewrite Z.mod_pow2_bits_low by lia.
    destruct (Z.testbit s (Z.of_nat n)).
    + rewrite Z.pow2_bits_false by lia. reflexivity.
    + rewrite Z.bits_0. reflexivity.
  - rewrite Z.mod_pow2_bits_high by lia.
    destruct (Z.testbit s (Z.of_nat n)).
    + rewrite Z.pow2_bits_true by lia. reflexivity.
    + rewrite Z.bits_0. reflexivity.
  - rewrite Z.mod_pow2_bits_high by lia.
    assert (Z.testbit s i = false) as ->.
    { destruct (Z.eq_dec s 0) as [->|Hne]; [apply Z.bits_0|].
      apply Z.bits_above_log2; [lia|].
      apply Z.log2_lt_pow2; [lia|].
      eapply Z.lt_le_trans; [apply Hs|].
      apply Z.pow_le_mono_r; lia. }
    destruct (Z.testbit s (Z.of_nat n)).
    + rewrite Z.pow2_bits_false by lia. reflexivity.
    + rewrite Z.bits_0. reflexivity.
Qed.

Lemma lin_low_bits (cols : list Z) (n m : nat) (s : Z) :
  (n <= m)%nat -> lin cols n (s mod 2 ^ Z.of_nat m) = lin cols n s.
Proof.
  intros H. induction n as [|n IH]; [reflexivity|].
  cbn [lin]. rewrite IH by lia. rewrite Z.mod_pow2_bits_low by lia. reflexivity.
Qed.

Ltac xor_bits :=
  apply Z.bits_inj'; intros ? _; rewrite ?Z.lxor_spec, ?Z.bits_0;
  repeat match goal with
         | |- context [Z.testbit ?x ?i] => destruct (Z.testbit x i)
         end;
  reflexivity.

Lemma lin_linear (cols : list Z) (n : nat) : linear (lin cols n).
Proof.
  intros a b. induction n as [|n IH]; [reflexivity|].
  cbn [lin]. rewrite IH, Z.lxor_spec.
  destruct (Z.testbit a (Z.of_nat n)), (Z.testbit b (Z.of_nat n)); cbn [xorb];
    xor_bits.
Qed.

Lemma nth_cols_of (f : Z -> Z) (j : nat) :
  (j < 32)%nat -> nth j (cols_of f) 0 = f (2 ^ Z.of_nat j).
Proof.
  intros H. unfold cols_of.
  rewrite (nth_indep _ 0 ((fun j => f (2 ^ Z.of_nat j)) 0%nat))
    by (rewrite length_map, length_seq; exact H).
  rewrite (map_nth (fun j => f (2 ^ Z.of_nat j))), seq_nth by exact H.
  reflexivity.
Qed.

(** A linear map is the sum of the images of the bits. *)
Lemma linear_lin (f : Z -> Z) (n : nat) :
  linear f -> (n <= 32)%nat ->
  forall s : Z, 0 <= s < 2 ^ Z.of_nat n -> f s = lin (cols_of f) n s.
Proof.
  intros Hf. induction n as [|n IH]; intros Hn s Hs.
  - assert (s = 0) as -> by (change (2 ^ Z.of_nat 0) with 1 in Hs; lia).
    now apply linear_0.
  - rewrite (top_bit_split n s Hs) at 1. rewrite Hf. cbn [lin].
    rewrite nth_cols_of by lia.
    rewrite (IH ltac:(lia) (s mod 2 ^ Z.of_nat n))
      by (apply Z.mod_pos_bound; lia).
    rewrite lin_low_bits by lia.
    destruct (Z.testbit s (Z.of_nat n)); [reflexivity|].
    now rewrite (linear_0 f Hf).
Qed.

Lemma shift_linear : linear crc32.shift.
Proof.
  intros a b. unfold crc32.shift.
  rewrite <- !Z.bit0_odd, Z.lxor_spec, Z.shiftr_lxor.
  destruct (Z.testbit a 0), (Z.testbit b 0); cbn [xorb]; xor_bits.
Qed.

Lemma iter_linear (f : Z -> Z) (n : nat) : linear f -> linear (Nat.iter n f).
Proof.
  intros Hf a b. induction n as [|n IH]; [reflexivity|].
  now rewrite !Nat.iter_succ, IH, Hf.
Qed.

Lemma zero_step_linear : linear zero_step.
Proof.
  intros a b. unfold zero_step, crc32.step.
  change (Z_of_byte x00) with 0. rewrite !Z.lxor_0_r.
  apply iter_linear, shift_linear.
Qed.

Lemma zero_step_word32 (c : Z) : word32 c -> word32 (zero_step c).
Proof. apply step_word32. Qed.

Lemma iter_zero_step_word32 (n : nat) (c : Z) :
  word32 c -> word32 (Nat.iter n zero_step c).
Proof.
  intros H. induction n as [|n IH]; [exact H|]. rewrite Nat.iter_succ.
  now apply zero_step_word32.
Qed.

Lemma compose_cols_spec (A B : list Z) (s : Z) :
  word32 s -> lin A 32 (lin B 32 s) = lin (compose_cols A B) 32 s.
Proof.
  intros Hs. unfold compose_cols.
  apply (linear_lin (fun s => lin A 32 (lin B 32 s)) 32); [|lia|exact Hs].
  intros a b. now rewrite !lin_linear.
Qed.

Lemma iter_add (f : Z -> Z) (n m : nat) (c : Z) :
  Nat.iter (n + m) f c = Nat.iter n f (Nat.iter m f c).
Proof.
  induction n as [|n IH]; [reflexivity|].
  cbn [Nat.add]. now rewrite !Nat.iter_succ, IH.
Qed.

Lemma zero_steps_spec (p : positive) (s : Z) :
  word32 s -> Nat.iter (Pos.to_nat p) zero_step s = lin (zero_steps p) 32 s.
Proof.
  revert s. induction p as [p IH|p IH|]; intros s Hs.
  - rewrite Pos2Nat.inj_xI. cbn [zero_steps].
    replace (S (2 * Pos.to_nat p))
      with (1 + (Pos.to_nat p + Pos.to_nat p))%nat by lia.
    rewrite !iter_add.
    change (Nat.iter 1 zero_step) with zero_step.
    assert (word32 (Nat.iter (Pos.to_nat p) zero_step s)) as Ht
      by now apply iter_zero_step_word32.
    assert (word32 (Nat.iter (Pos.to_nat p) zero_step
                      (Nat.iter (Pos.to_nat p) zero_step s))) as Hu
      by now apply iter_zero_step_word32.
    rewrite (linear_lin zero_step 32 zero_step_linear ltac:(lia) _ Hu).
    rewrite (IH _ Ht), (IH s Hs), (compose_cols_spec _ _ s Hs).
    now apply compose_cols_spec.
  - rewrite Pos2Nat.inj_xO. cbn [zero_steps].
    replace (2 * Pos.to_nat p)%nat with (Pos.to_nat p + Pos.to_nat p)%nat by lia.
    rewrite iter_add.
    assert (word32 (Nat.iter (Pos.to_nat p) zero_step s)) as Ht
      by now apply iter_zero_step_word32.
    rewrite (IH _ Ht), (IH s Hs). now apply compose_cols_spec.
  - cbn [zero_steps].
    change (Nat.iter (Pos.to_nat 1) zero_step s) with (zero_step s).
    apply (linear_lin zero_step 32 zero_step_linear); [lia|exact Hs].
Qed.

Lemma update_zeros (n : nat) (c : Z) :
  crc32.update c (repeat x00 n) = Nat.iter n zero_step c.
Proof.
  revert c. induction n as [|n IH]; intros c; [reflexivity|].
  change (repeat x00 (S n)) with ([x00] ++ repeat x00 n).
  rewrite update_app, IH. change (crc32.update c [x00]) with (zero_step c).
  clear IH. induction n as [|n IH]; [reflexivity|].
  now rewrite !Nat.iter_succ, IH.
Qed.

(** ** Records that the frame cannot hold *)

(** When the payload is [2^32] bytes long its length is written as 0:
    [Decode] then takes the checksum of no bytes at all, and rejects
    the frame unless the checksum of the whole payload happens to be
    that of the empty one. *)
Lemma Decode_payload_of_2_32 (r : wal.Record_) :
  Z.of_nat (length (wal.payload r)) = 2 ^ 32 ->
  crc32.ChecksumIEEE (wal.payload r) <> crc32.ChecksumIEEE [] ->
  wal.Decode (wal.exact (wal.Encode r)) = Err (errors_New "checksum mismatch").
Proof.
  intros HL Hne. rewrite Encode_eq, HL.
  change (uint32 (2 ^ 32)) with 0.
  set (hl := BigEndian.PutUint32 0).
  set (hc := BigEndian.PutUint32 (crc32.ChecksumIEEE (wal.payload r))).
  assert (BigEndian.Uint32 hc = crc32.ChecksumIEEE (wal.payload r)) as EHc
    by (apply Uint32_Put, ChecksumIEEE_word32).
  assert (length hl = 4%nat /\ length hc = 4%nat) as (Lhl & Lhc)
    by (split; reflexivity).
  unfold wal.Decode, wal.exact. cbn [wal.data wal.spare]. rewrite app_nil_r.
  assert (length (hl ++ hc ++ wal.payload r) = (8 + length (wal.payload r))%nat)
    as Hn by (rewrite !length_app; lia).
  rewrite Hn.
  destruct (Nat.ltb_spec (8 + length (wal.payload r)) 8); [lia|].
  replace (sub (hl ++ hc ++ wal.payload r) 0 4) with hl
    by (symmetry; apply sub_here; reflexivity).
  replace (sub (hl ++ hc ++ wal.payload r) 4 8) with hc.
  2:{ symmetry. rewrite sub_skip by lia. apply sub_here; reflexivity. }
  change (Z.to_nat (uint32 (8 + BigEndian.Uint32 hl))) with 8%nat.
  destruct (Nat.ltb_spec (8 + length (wal.payload r)) 8); [lia|].
  cbn [Nat.ltb Nat.leb].
  replace (sub (hl ++ hc ++ wal.payload r) 8 8) with (@nil byte)
    by (unfold sub; now rewrite Nat.sub_diag).
  rewrite EHc.
  destruct (Z.eqb_spec (crc32.ChecksumIEEE (wal.payload r)) (crc32.ChecksumIEEE []))
    as [E|E]; [contradiction|reflexivity].
Qed.

Lemma payload_cons (ty : byte) (K V : bytes) (sq : Z) :
  wal.payload (wal.mkRecord ty K V sq)
  = ty :: (BigEndian.PutUint64 sq
             ++ BigEndian.PutUint32 (uint32 (len K)) ++ K
             ++ BigEndian.PutUint32 (uint32 (len V)) ++ V).
Proof. reflexivity. Qed.

Lemma ChecksumIEEE_first_byte (x y : byte) (q : bytes) :
  x <> y -> crc32.ChecksumIEEE (x :: q) <> crc32.ChecksumIEEE (y :: q).
Proof. exact (ChecksumIEEE_one_byte [] q x y). Qed.

(** The checksum of the payload of a record whose key is [p] zero
    bytes, without a pass over the key. *)
Lemma ChecksumIEEE_zero_key (ty : byte) (V : bytes) (sq : Z) (p : positive) :
  crc32.ChecksumIEEE
    (wal.payload (wal.mkRecord ty (repeat x00 (Pos.to_nat p)) V sq))
  = Z.lxor
      (crc32.update
         (lin (zero_steps p) 32
            (crc32.update 0xffffffff
               (ty :: BigEndian.PutUint64 sq
                   ++ BigEndian.PutUint32 (uint32 (Z.pos p)))))
         (BigEndian.PutUint32 (uint32 (len V)) ++ V))
      0xffffffff.
Proof.
  rewrite payload_cons. unfold crc32.ChecksumIEEE, len. f_equal.
  rewrite repeat_length, positive_nat_Z.
  change (ty :: BigEndian.PutUint64 sq
             ++ BigEndian.PutUint32 (uint32 (Z.pos p))
             ++ repeat x00 (Pos.to_nat p)
             ++ BigEndian.PutUint32 (uint32 (Z.of_nat (length V))) ++ V)
    with ((ty :: BigEndian.PutUint64 sq
              ++ BigEndian.PutUint32 (uint32 (Z.pos p)))
            ++ repeat x00 (Pos.to_nat p)
            ++ BigEndian.PutUint32 (uint32 (Z.of_nat (length V))) ++ V).
  rewrite !update_app, update_zeros, zero_steps_spec; [reflexivity|].
  apply update_word32. unfold word32. lia.
Qed.

Lemma wide_key_zeros : wide_key = repeat x00 (Pos.to_nat 4294967279).
Proof.
  unfold wide_key. change (2 ^ 32 - 17) with (Z.pos 4294967279).
  rewrite Z2Nat.inj_pos. reflexivity.
Qed.

Lemma wide_key_length : Z.of_nat (length wide_key) = 2 ^ 32 - 17.
Proof.
  unfold wide_key. rewrite repeat_length. apply Z2Nat.id.
  apply Z.lt_le_incl. reflexivity.
Qed.

Lemma valid_record_Put (K V : bytes) (sq : Z) :
  Z.of_nat (length K) < 2 ^ 32 -> Z.of_nat (length V) < 2 ^ 32 ->
  0 <= sq < 2 ^ 64 ->
  valid_record (wal.mkRecord wal.RecordPut K V sq).
Proof.
  intros HK HV Hsq. unfold valid_record, len.
  cbn [wal.Type_ wal.SeqNum wal.Key wal.Value].
  split; [now left|]. split; [exact Hsq|]. split; assumption.
Qed.

Lemma wide_put_valid : valid_record wide_put.
Proof.
  apply valid_record_Put.
  - rewrite wide_key_length. reflexivity.
  - reflexivity.
  - split; [apply Z.le_refl|reflexivity].
Qed.

(** C4, counterexample.  A valid record: a [Put] of a key of
    [2^32 - 17] zero bytes with the empty value and sequence number 0.
    Its payload is [2^32] bytes long, which the four bytes of
    [payload_len] cannot say: [Encode] writes 0 there, [Decode] compares
    the checksum of the payload, [0x758728fb], with the checksum of no
    bytes, and returns the error "checksum mismatch". *)
Lemma Record_roundtrip_fails_wide_payload :
  valid_record wide_put
  /\ len (wal.Key wide_put) = 2 ^ 32 - 17
  /\ crc32.ChecksumIEEE (wal.payload wide_put) = 0x758728fb
  /\ wal.Decode (wal.exact (wal.Encode wide_put))
     = Err (errors_New "checksum mismatch").
Proof.
  assert (crc32.ChecksumIEEE (wal.payload wide_put) = 0x758728fb) as Hsum.
  { unfold wide_put. rewrite wide_key_zeros, ChecksumIEEE_zero_key.
    vm_compute. reflexivity. }
  split; [exact wide_put_valid|]. split; [exact wide_key_length|].
  split; [exact Hsum|].
  apply Decode_payload_of_2_32.
  - rewrite payload_length. pose proof wide_key_length as HK.
    unfold wide_put. cbn [wal.Key wal.Value length]. lia.
  - rewrite Hsum. vm_compute. discriminate.
Qed.

(** The slip next to it.  A payload of [2^32 - 8] to [2^32 - 1] bytes
    does fit its length field, but [Decode] adds 8 to the length in 32
    bits: the sum wraps around, the check against the buffer passes, and
    the slice expression [buf[8 : 8+payloadLen]] panics. *)
Lemma Decode_panics_when_frame_end_wraps (r : wal.Record_) :
  2 ^ 32 - 8 <= Z.of_nat (length (wal.payload r)) < 2 ^ 32 ->
  wal.Decode (wal.exact (wal.Encode r)) = Panic.
Proof.
  intros HL. rewrite Encode_eq, uint32_small by lia.
  set (hl := BigEndian.PutUint32 _).
  set (hc := BigEndian.PutUint32 (crc32.ChecksumIEEE (wal.payload r))).
  assert (BigEndian.Uint32 hl = Z.of_nat (length (wal.payload r))) as EHl
    by (apply Uint32_Put; lia).
  assert (length hl = 4%nat /\ length hc = 4%nat) as (Lhl & Lhc)
    by (split; reflexivity).
  unfold wal.Decode, wal.exact. cbn [wal.data wal.spare]. rewrite app_nil_r.
  assert (length (hl ++ hc ++ wal.payload r) = (8 + length (wal.payload r))%nat)
    as Hn by (rewrite !length_app; lia).
  rewrite Hn.
  destruct (Nat.ltb_spec (8 + length (wal.payload r)) 8); [lia|].
  replace (sub (hl ++ hc ++ wal.payload r) 0 4) with hl
    by (symmetry; apply sub_here; reflexivity).
  rewrite EHl.
  assert (uint32 (8 + Z.of_nat (length (wal.payload r)))
          = 8 + Z.of_nat (length (wal.payload r)) - 2 ^ 32) as ->.
  { unfold uint32.
    rewrite <- (Z_mod_plus_full _ (-1)) .
    rewrite Z.mod_small; lia. }
  destruct (Nat.ltb_spec (8 + length (wal.payload r))
              (Z.to_nat (8 + Z.of_nat (length (wal.payload r)) - 2 ^ 32))); [lia|].
  destruct (Nat.ltb_spec
              (Z.to_nat (8 + Z.of_nat (length (wal.payload r)) - 2 ^ 32)) 8);
    [reflexivity|lia].
Qed.

Lemma full_frame_panics (K : bytes) :
  Z.of_nat (length K) = 2 ^ 32 - 25 ->
  let r := wal.mkRecord wal.RecordPut K [] 0 in
  valid_record r /\ wal.Decode (wal.exact (wal.Encode r)) = Panic.
Proof.
  intros HK r. split.
  - apply valid_record_Put; [lia|reflexivity|lia].
  - apply Decode_panics_when_frame_end_wraps. rewrite payload_length.
    unfold r. cbn [wal.Key wal.Value length]. lia.
Qed.

Lemma full_frame_key_length : Z.of_nat (length full_frame_key) = 2 ^ 32 - 25.
Proof.
  unfold full_frame_key. rewrite repeat_length. apply Z2Nat.id.
  apply Z.lt_le_incl. reflexivity.
Qed.

(** The record with a key of [2^32 - 25] bytes and the empty value is
    valid, its frame is [2^32] bytes long, and [Decode] panics on it. *)
Lemma Decode_panics_on_full_frame :
  valid_record full_frame_record
  /\ wal.Decode (wal.exact (wal.Encode full_frame_record)) = Panic.
Proof. exact (full_frame_panics full_frame_key full_frame_key_length). Qed.

(** ** Flipped bits *)

Lemma lxor_pow2_bound (n x y : Z) :
  0 < n -> 0 <= x < 2 ^ n -> 0 <= y < 2 ^ n -> 0 <= Z.lxor x y < 2 ^ n.
Proof.
  intros Hn Hx Hy.
  assert (0 <= Z.lxor x y) as H0 by (apply Z.lxor_nonneg; lia).
  split; [assumption|].
  destruct (Z.eq_dec (Z.lxor x y) 0) as [->|Hne]; [lia|].
  apply Z.log2_lt_pow2; [lia|].
  eapply Z.le_lt_trans; [apply Z.log2_lxor; lia|].
  apply Z.max_lub_lt.
  - destruct (Z.eq_dec x 0) as [->|Hx0]; [simpl; lia|]. apply Z.log2_lt_pow2; lia.
  - destruct (Z.eq_dec y 0) as [->|Hy0]; [simpl; lia|]. apply Z.log2_lt_pow2; lia.
Qed.

Lemma flip_bit_neq (x : byte) (j : nat) : (j < 8)%nat -> wal.flip_bit x j <> x.
Proof.
  intros Hj H. apply (f_equal Z_of_byte) in H.
  unfold wal.flip_bit in H. rewrite Z_of_byte_of_Z in H.
  pose proof (Z_of_byte_range x) as Hx.
  assert (0 < Z.shiftl 1 (Z.of_nat j) < 2 ^ 8) as Hb.
  { rewrite Z.shiftl_1_l. split; [apply Z.pow_pos_nonneg; lia|].
    apply Z.pow_lt_mono_r; lia. }
  rewrite Z.mod_small in H
    by (change 256 with (2 ^ 8); apply lxor_pow2_bound; change (2 ^ 8) with 256 in *; lia).
  rewrite <- (Z.lxor_0_r (Z_of_byte x)) in H at 2.
  apply lxor_cancel_l in H. lia.
Qed.

Lemma flip_length (buf : bytes) (i j : nat) :
  length (wal.flip buf i j) = length buf.
Proof.
  unfold wal.flip. destruct (nth_error buf i) as [x|] eqn:E; [|reflexivity].
  apply write_at_length. simpl.
  assert (i < length buf)%nat by (apply nth_error_Some; congruence). lia.
Qed.

Lemma flip_skip (p rest : bytes) (i j : nat) :
  (length p <= i)%nat ->
  wal.flip (p ++ rest) i j = p ++ wal.flip rest (i - length p) j.
Proof.
  intros H. unfold wal.flip. rewrite nth_error_app2 by assumption.
  destruct (nth_error rest (i - length p)); [|reflexivity].
  now apply write_at_skip.
Qed.

Lemma flip_inside (x post : bytes) (i j : nat) :
  (i < length x)%nat ->
  wal.flip (x ++ post) i j = wal.flip x i j ++ post.
Proof.
  intros H. unfold wal.flip. rewrite nth_error_app1 by assumption.
  destruct (nth_error x i) as [c|] eqn:E.
  - unfold Arena.write_at. simpl length.
    rewrite List.firstn_app, List.skipn_app.
    replace (i - length x)%nat with 0%nat by lia.
    replace (i + 1 - length x)%nat with 0%nat by lia.
    rewrite List.firstn_O, List.skipn_O, app_nil_r, <- !app_assoc. reflexivity.
  - apply nth_error_None in E. lia.
Qed.

(** Flipping a bit of byte [i] replaces that byte by another one. *)
Lemma flip_split (l : bytes) (i j : nat) :
  (i < length l)%nat -> (j < 8)%nat ->
  exists p x y q, l = p ++ x :: q /\ wal.flip l i j = p ++ y :: q /\ x <> y.
Proof.
  intros Hi Hj. unfold wal.flip.
  destruct (nth_error l i) as [x|] eqn:E; [|apply nth_error_None in E; lia].
  destruct (nth_error_split l i E) as (p & q & -> & Hp).
  exists p, x, (wal.flip_bit x j), q. split; [reflexivity|]. split.
  - subst i. change (x :: q) with ([x] ++ q).
    now rewrite (write_at_seg p [x] q [wal.flip_bit x j]).
  - intros H. now apply (flip_bit_neq x j).
Qed.

Lemma Decode_truncated (data : bytes) :
  (8 <= length data)%nat ->
  Z.of_nat (length data) < 8 + BigEndian.Uint32 data < 2 ^ 32 ->
  wal.Decode (wal.exact data) = Err (errors_New "record truncated").
Proof.
  intros Hn Hlen. unfold wal.Decode, wal.exact. cbn [wal.data wal.spare].
  rewrite app_nil_r.
  destruct (Nat.ltb_spec (length data) 8); [lia|].
  replace (BigEndian.Uint32 (sub data 0 4)) with (BigEndian.Uint32 data).
  2:{ unfold BigEndian.Uint32, sub. rewrite List.skipn_O.
      now rewrite List.firstn_firstn. }
  rewrite uint32_small by (pose proof (Uint32_range data); lia).
  destruct (Nat.ltb_spec (length data) (Z.to_nat (8 + BigEndian.Uint32 data))); [|lia].
  reflexivity.
Qed.

(** C5, as the code has it.  For a record whose frame is shorter than
    [2^32] bytes, flipping one bit of the checksum field or of the payload
    makes [Decode] fail with the checksum-mismatch error.  Flipping a bit
    of the length field so that the length grows makes it fail with the
    record-truncated error: the length is checked before the checksum. *)
Theorem Decode_rejects_flipped_bit (r : wal.Record_) (i j : nat) :
  wal.fits r -> (j < 8)%nat ->
  ((4 <= i < length (wal.Encode r))%nat ->
   wal.Decode (wal.exact (wal.flip (wal.Encode r) i j))
   = Err (errors_New "checksum mismatch"))
  /\ ((i < 4)%nat ->
      Z.of_nat (length (wal.payload r))
        < BigEndian.Uint32 (wal.flip (wal.Encode r) i j) < 2 ^ 32 - 8 ->
      wal.Decode (wal.exact (wal.flip (wal.Encode r) i j))
      = Err (errors_New "record truncated")).
Proof.
  intros Hfits Hj. destruct (fits_payload r Hfits) as (Hu & Hfit & _ & _).
  rewrite Encode_eq, Hu.
  set (hl := BigEndian.PutUint32 _). set (hc := BigEndian.PutUint32 _).
  assert (BigEndian.Uint32 hl = Z.of_nat (length (wal.payload r))) as EHl
    by (apply Uint32_Put; lia).
  assert (BigEndian.Uint32 hc = crc32.ChecksumIEEE (wal.payload r)) as EHc
    by (apply Uint32_Put, ChecksumIEEE_word32).
  assert (length hl = 4%nat /\ length hc = 4%nat) as (Lhl & Lhc)
    by (split; reflexivity).
  split.
  - rewrite !length_app, Lhl, Lhc. intros Hi.
    rewrite flip_skip by lia. rewrite Lhl.
    destruct (Nat.lt_ge_cases i 8) as [Hlt|Hge].
    + (* in the checksum field *)
      rewrite flip_inside by lia.
      destruct (flip_split hc (i - 4) j ltac:(lia) Hj) as (p & x & y & q & Ehc & Ef & Hxy).
      apply Decode_mismatch; auto.
      * now rewrite flip_length.
      * rewrite <- EHc. intros H. unfold BigEndian.Uint32 in H.
        rewrite !firstn_all2 in H by (rewrite ?flip_length; lia).
        apply be_inj in H; [|now rewrite flip_length].
        rewrite Ef, Ehc in H. apply app_inv_head in H. congruence.
    + (* in the payload *)
      rewrite flip_skip by lia. rewrite Lhc.
      destruct (flip_split (wal.payload r) (i - 4 - 4) j ltac:(lia) Hj)
        as (p & x & y & q & Epl & Ef & Hxy).
      apply Decode_mismatch; auto.
      * now rewrite flip_length.
      * now rewrite flip_length.
      * rewrite EHc, Ef, Epl. now apply ChecksumIEEE_one_byte.
  - intros Hi Hlen. apply Decode_truncated.
    + rewrite flip_length, !length_app. lia.
    + rewrite flip_length, !length_app, Lhl, Lhc. lia.
Qed.

Lemma Decode_rejects_flipped_bit_witness :
  wal.fits test_record /\ (3 < 8)%nat
  /\ wal.Decode (wal.exact (wal.flip (wal.Encode test_record) 20 3))
     = Err (errors_New "checksum mismatch").
Proof.
  split; [exact test_record_fits|]. split; [lia|].
  apply (proj1 (Decode_rejects_flipped_bit test_record 20 3 test_record_fits
                  ltac:(lia))).
  vm_compute. lia.
Defined.

(** The length field of the smallest frame holds 17; flipping its bit of
    weight 2 makes it 19, and [Decode] reports a truncated record, not a
    checksum mismatch. *)
Lemma Decode_flipped_length_not_mismatch :
  wal.Decode (wal.exact (wal.flip (wal.Encode empty_record) 3 1))
  = Err (errors_New "record truncated")
  /\ wal.Decode (wal.exact (wal.flip (wal.Encode empty_record) 3 1))
     <> Err (errors_New "checksum mismatch").
Proof. split; [vm_compute; reflexivity | vm_compute; discriminate]. Qed.

(** C7.  [Decode] panics on a buffer of eight zero bytes, whatever its
    capacity: the length field says that the payload is empty, the
    checksum of the empty payload is 0, and the read of the type byte
    [buf[8]] is out of range.  A log file of eight zero bytes makes
    [Replay] panic in the same way. *)
Theorem Decode_panics_on_zero_header (spare : bytes) :
  wal.Decode {| wal.data := repeat x00 8; wal.spare := spare |} = Panic
  /\ Reader.Replay collect {| Reader.unread := repeat x00 8 |} []
     = Some ([], Panic).
Proof. split; vm_compute; reflexivity. Qed.

(** ** Reading and replaying a log *)

Lemma ReadFull_enough (l rest : bytes) (n : nat) :
  length l = n ->
  Reader.ReadFull {| Reader.unread := l ++ rest |} n
  = ({| Reader.unread := if (n =? 0)%nat then l ++ rest else rest |}, l, None).
Proof.
  intros Hn. unfold Reader.ReadFull. cbn [Reader.unread].
  destruct (Nat.eqb_spec n 0) as [->|Hne].
  - destruct l; [reflexivity|discriminate].
  - rewrite length_app.
    destruct (Nat.eqb_spec (length l + length rest) 0); [lia|].
    destruct (Nat.ltb_spec (length l + length rest) n); [lia|].
    rewrite <- Hn, List.skipn_app, List.firstn_app, Nat.sub_diag.
    now rewrite List.skipn_all, List.firstn_all, List.skipn_O, List.firstn_O, app_nil_r.
Qed.

Lemma rebuild_frame (hl hc pl : bytes) :
  length hl = 4%nat -> length hc = 4%nat ->
  8 + Z.of_nat (length pl) < 2 ^ 32 ->
  Reader.rebuild (Z.of_nat (length pl)) hl hc pl = Some (hl ++ hc ++ pl).
Proof.
  intros Hl Hc Hfit. unfold Reader.rebuild.
  rewrite uint32_small by lia.
  replace (Z.to_nat (8 + Z.of_nat (length pl))) with (4 + (4 + length pl))%nat by lia.
  destruct (Nat.ltb_spec (4 + (4 + length pl)) 4); [lia|].
  destruct (Nat.ltb_spec (4 + (4 + length pl)) 8); [lia|].
  unfold Arena.make. rewrite !repeat_app.
  rewrite <- (app_nil_r (repeat x00 (length pl))).
  set (z := repeat x00).
  assert (forall n, length (z n) = n) as Hz by (intros; apply repeat_length).
  rewrite (write_at_here (z 4%nat) _ hl 0) by (rewrite ?Hz; lia).
  rewrite (write_at_skip hl _ hc 4) by lia.
  rewrite (write_at_here (z 4%nat) _ hc) by (rewrite ?Hz; lia).
  rewrite (write_at_skip hl _ pl 8) by lia.
  rewrite (write_at_skip hc _ pl) by lia.
  rewrite (write_at_here (z (length pl)) [] pl) by (rewrite ?Hz; lia).
  now rewrite app_nil_r.
Qed.

(** Reading the frame of a record off the file gives the record back and
    leaves the rest of the file. *)
Lemma ReadRecord_Encode (r : wal.Record_) (rest : bytes) :
  wal.fits r ->
  Reader.ReadRecord {| Reader.unread := wal.Encode r ++ rest |}
  = ({| Reader.unread := rest |}, Ok r).
Proof.
  intros Hfits. pose proof (Decode_Encode r Hfits) as Hdec.
  destruct (fits_payload r Hfits) as (Hu & Hfit & _ & _).
  rewrite Encode_eq, Hu in *.
  set (hl := BigEndian.PutUint32 (Z.of_nat (length (wal.payload r)))) in *.
  set (hc := BigEndian.PutUint32 (crc32.ChecksumIEEE (wal.payload r))) in *.
  assert (BigEndian.Uint32 hl = Z.of_nat (length (wal.payload r))) as EHl
    by (apply Uint32_Put; lia).
  assert (BigEndian.Uint32 hc = crc32.ChecksumIEEE (wal.payload r)) as EHc
    by (apply Uint32_Put, ChecksumIEEE_word32).
  assert (length (wal.payload r) <> 0)%nat as Hpl by (rewrite payload_length; lia).
  unfold Reader.ReadRecord. rewrite <- !app_assoc.
  rewrite (ReadFull_enough hl _ 4 eq_refl). cbn [Nat.eqb].
  rewrite (ReadFull_enough hc _ 4 eq_refl). cbn [Nat.eqb].
  rewrite EHl, Nat2Z.id.
  rewrite (ReadFull_enough (wal.payload r) rest _ eq_refl).
  destruct (Nat.eqb_spec (length (wal.payload r)) 0); [contradiction|].
  rewrite EHc, Z.eqb_refl. cbn [negb].
  rewrite rebuild_frame by (reflexivity || lia).
  now rewrite Hdec.
Qed.

Lemma Encode_length (r : wal.Record_) :
  length (wal.Encode r) = (25 + length (wal.Key r) + length (wal.Value r))%nat.
Proof.
  rewrite Encode_eq, !length_app, !PutUint32_length, payload_length. lia.
Qed.

Section ReplayFacts.

Context {St : Type} (callback : St -> wal.Record_ -> St * option error).

(** [Replay] on a file that starts with whole frames: the callback gets
    their records in order, and the loop goes on with the rest of the
    file unless the callback fails. *)
Lemma loop_frames (recs : list wal.Record_) (rest : bytes) :
  Forall wal.fits recs ->
  forall (fuel count : nat) (st : St),
    Reader.loop callback (length recs + fuel)
      {| Reader.unread := Reader.frames recs ++ rest |} count st
    = match Reader.deliver callback st recs with
      | (st', Some e) => Some (st', Err e)
      | (st', None) =>
          Reader.loop callback fuel {| Reader.unread := rest |}
            (count + length recs) st'
      end.
Proof.
  induction 1 as [|r recs Hr Hrecs IH]; intros fuel count st.
  - cbn [Reader.frames map concat app length Reader.deliver Nat.add].
    now rewrite Nat.add_0_r.
  - cbn [Reader.frames map concat length Nat.add Reader.loop Reader.deliver].
    rewrite <- app_assoc. fold (Reader.frames recs).
    rewrite (ReadRecord_Encode r _ Hr).
    destruct (callback st r) as [st1 [e|]]; [reflexivity|].
    rewrite IH. destruct (Reader.deliver callback st1 recs) as [st' [e|]];
      [reflexivity|].
    f_equal. lia.
Qed.

Lemma frames_length (recs : list wal.Record_) :
  (length recs <= length (Reader.frames recs))%nat.
Proof.
  induction recs as [|r recs IH]; [easy|].
  cbn [Reader.frames map concat length]. fold (Reader.frames recs).
  rewrite length_app, Encode_length. lia.
Qed.

Lemma Replay_frames (recs : list wal.Record_) (rest : bytes) (st : St) :
  Forall wal.fits recs ->
  Reader.Replay callback {| Reader.unread := Reader.frames recs ++ rest |} st
  = match Reader.deliver callback st recs with
    | (st', Some e) => Some (st', Err e)
    | (st', None) =>
        Reader.loop callback
          (S (length (Reader.frames recs ++ rest)) - length recs)
          {| Reader.unread := rest |} (length recs) st'
    end.
Proof.
  intros Hfits. unfold Reader.Replay. cbn [Reader.unread].
  pose proof (frames_length recs) as Hlen.
  replace (S (length (Reader.frames recs ++ rest)))
    with (length recs + (S (length (Reader.frames recs ++ rest)) - length recs))%nat
    at 1 by (rewrite length_app; lia).
  now rewrite (loop_frames recs rest Hfits).
Qed.

End ReplayFacts.

(** ** Checksum mismatches in a log *)

(** A frame whose checksum field is not the checksum of its payload, and
    which is shorter than [2^32] bytes: [ReadRecord] returns the
    checksum-mismatch error, and has taken the frame off the file. *)
Lemma ReadRecord_mismatch (hc pl rest : bytes) :
  length hc = 4%nat ->
  8 + Z.of_nat (length pl) < 2 ^ 32 ->
  BigEndian.Uint32 hc <> crc32.ChecksumIEEE pl ->
  Reader.ReadRecord
    {| Reader.unread :=
         (BigEndian.PutUint32 (Z.of_nat (length pl)) ++ hc ++ pl) ++ rest |}
  = ({| Reader.unread := rest |}, Err errChecksumMismatch).
Proof.
  intros Lhc Hfit Hne.
  set (hl := BigEndian.PutUint32 (Z.of_nat (length pl))).
  assert (BigEndian.Uint32 hl = Z.of_nat (length pl)) as EHl
    by (apply Uint32_Put; lia).
  assert (length hl = 4%nat) as Lhl by reflexivity.
  unfold Reader.ReadRecord. rewrite <- !app_assoc.
  rewrite (ReadFull_enough hl _ 4 Lhl). cbn [Nat.eqb].
  rewrite (ReadFull_enough hc _ 4 Lhc). cbn [Nat.eqb].
  rewrite EHl, Nat2Z.id.
  rewrite (ReadFull_enough pl rest _ eq_refl).
  assert ((if (length pl =? 0)%nat then pl ++ rest else rest) = rest) as ->.
  { destruct (Nat.eqb_spec (length pl) 0) as [E|]; [|reflexivity].
    destruct pl; [reflexivity|discriminate]. }
  destruct (Z.eqb_spec (BigEndian.Uint32 hc) (crc32.ChecksumIEEE pl));
    [contradiction|]. cbn [negb].
  rewrite rebuild_frame by (assumption || lia).
  rewrite Decode_mismatch; auto.
Qed.

(** When the payload is [2^32 - 8] bytes long or longer, the length
    [8+payloadLen] of [fullBuf] wraps around in 32 bits to less than 8:
    the slice expression [fullBuf[0:4]] or [fullBuf[4:8]] panics. *)
Lemma rebuild_wraps (hl hc pl : bytes) :
  2 ^ 32 - 8 <= Z.of_nat (length pl) < 2 ^ 32 ->
  Reader.rebuild (Z.of_nat (length pl)) hl hc pl = None.
Proof.
  intros HL. unfold Reader.rebuild.
  assert (uint32 (8 + Z.of_nat (length pl)) = 8 + Z.of_nat (length pl) - 2 ^ 32)
    as ->.
  { unfold uint32. rewrite <- (Z_mod_plus_full _ (-1)). rewrite Z.mod_small; lia. }
  cbv zeta.
  destruct (Nat.ltb_spec (Z.to_nat (8 + Z.of_nat (length pl) - 2 ^ 32)) 4);
    [reflexivity|].
  destruct (Nat.ltb_spec (Z.to_nat (8 + Z.of_nat (length pl) - 2 ^ 32)) 8);
    [reflexivity|lia].
Qed.

(** [ReadRecord] on a frame that long panics, whether the checksum
    matches or not. *)
Lemma ReadRecord_wide_frame (hc pl rest : bytes) :
  length hc = 4%nat ->
  2 ^ 32 - 8 <= Z.of_nat (length pl) < 2 ^ 32 ->
  Reader.ReadRecord
    {| Reader.unread :=
         (BigEndian.PutUint32 (Z.of_nat (length pl)) ++ hc ++ pl) ++ rest |}
  = ({| Reader.unread := rest |}, Panic).
Proof.
  intros Lhc HL.
  set (hl := BigEndian.PutUint32 (Z.of_nat (length pl))).
  assert (BigEndian.Uint32 hl = Z.of_nat (length pl)) as EHl
    by (apply Uint32_Put; lia).
  assert (length hl = 4%nat) as Lhl by reflexivity.
  unfold Reader.ReadRecord. rewrite <- !app_assoc.
  rewrite (ReadFull_enough hl _ 4 Lhl). cbn [Nat.eqb].
  rewrite (ReadFull_enough hc _ 4 Lhc). cbn [Nat.eqb].
  rewrite EHl, Nat2Z.id.
  rewrite (ReadFull_enough pl rest _ eq_refl).
  destruct (Nat.eqb_spec (length pl) 0) as [E|_]; [lia|].
  rewrite rebuild_wraps by exact HL.
  now destruct (negb _).
Qed.

(** C6.  A log that starts with whole frames, whose records the callback
    takes.  When reading what follows them ends in a short read,
    [Replay] returns [nil] if at least one record was delivered and the
    unexpected-EOF error if none was.  When what follows is a frame
    whose checksum field is not the checksum of its payload, [Replay]
    returns the checksum-mismatch error if the frame is shorter than
    [2^32] bytes; if the payload is [2^32 - 8] bytes long or longer it
    does not: [ReadRecord] has found the mismatch, and panics while it
    puts the frame together again.  In no case is the frame skipped. *)
Theorem Replay_short_read_and_checksum_mismatch {St : Type}
    (callback : St -> wal.Record_ -> St * option error)
    (recs : list wal.Record_) (hc pl rest : bytes) (st st' : St) :
  Forall wal.fits recs ->
  Reader.deliver callback st recs = (st', None) ->
  (snd (Reader.ReadRecord {| Reader.unread := rest |}) = Err io_ErrUnexpectedEOF ->
   Reader.Replay callback {| Reader.unread := Reader.frames recs ++ rest |} st
   = Some (st', match recs with
                | [] => Err io_ErrUnexpectedEOF
                | _ :: _ => Ok tt
                end))
  /\ (length hc = 4%nat ->
      Z.of_nat (length pl) < 2 ^ 32 ->
      BigEndian.Uint32 hc <> crc32.ChecksumIEEE pl ->
      Reader.Replay callback
        {| Reader.unread :=
             Reader.frames recs
               ++ (BigEndian.PutUint32 (Z.of_nat (length pl)) ++ hc ++ pl)
               ++ rest |} st
      = Some (st', if 8 + Z.of_nat (length pl) <? 2 ^ 32
                   then Err errChecksumMismatch
                   else Panic)).
Proof.
  intros Hfits Hd.
  assert (forall tail : bytes,
             exists fuel : nat,
               Reader.Replay callback
                 {| Reader.unread := Reader.frames recs ++ tail |} st
               = Reader.loop callback (S fuel) {| Reader.unread := tail |}
                   (length recs) st') as Hloop.
  { intros tail. rewrite (Replay_frames callback recs tail st Hfits), Hd.
    pose proof (frames_length recs) as Hlen.
    exists (length (Reader.frames recs ++ tail) - length recs)%nat.
    f_equal. rewrite length_app. lia. }
  split.
  - intros Hrd. destruct (Hloop rest) as [fuel ->]. cbn [Reader.loop].
    destruct (Reader.ReadRecord {| Reader.unread := rest |}) as [r' res].
    cbn [snd] in Hrd. subst res. destruct recs; reflexivity.
  - intros Lhc Hlt Hne.
    destruct (Hloop ((BigEndian.PutUint32 (Z.of_nat (length pl)) ++ hc ++ pl)
                       ++ rest)) as [fuel ->].
    cbn [Reader.loop].
    destruct (Z.ltb_spec (8 + Z.of_nat (length pl)) (2 ^ 32)) as [Hs|Hw].
    + now rewrite (ReadRecord_mismatch hc pl rest Lhc Hs Hne).
    + now rewrite (ReadRecord_wide_frame hc pl rest Lhc ltac:(lia)).
Qed.

Lemma torn_log_records_fit : Forall wal.fits torn_log_records.
Proof.
  repeat constructor; unfold len; simpl; lia.
Qed.

Lemma damaged_payload_length : Z.of_nat (length damaged_payload) = 2 ^ 32 - 8.
Proof.
  unfold damaged_payload. rewrite payload_length.
  cbn [wal.Key wal.Value length]. pose proof full_frame_key_length. lia.
Qed.

(** The checksum that [Encode] wrote for [full_frame_record] is not the
    checksum of the payload with the other type byte. *)
Lemma full_frame_checksum_mismatch :
  BigEndian.Uint32 full_frame_checksum <> crc32.ChecksumIEEE damaged_payload.
Proof.
  unfold full_frame_checksum, damaged_payload, full_frame_record.
  rewrite Uint32_Put by apply ChecksumIEEE_word32.
  rewrite !payload_cons. apply ChecksumIEEE_first_byte. discriminate.
Qed.

Lemma Replay_short_read_and_checksum_mismatch_witness :
  (Forall wal.fits torn_log_records
   /\ Reader.deliver collect [] torn_log_records = (torn_log_records, None)
   /\ snd (Reader.ReadRecord {| Reader.unread := torn_tail |})
      = Err io_ErrUnexpectedEOF
   /\ Reader.Replay collect
        {| Reader.unread := Reader.frames torn_log_records ++ torn_tail |} []
      = Some (torn_log_records, Ok tt))
  /\ (length full_frame_checksum = 4%nat
      /\ Z.of_nat (length damaged_payload) < 2 ^ 32
      /\ BigEndian.Uint32 full_frame_checksum <> crc32.ChecksumIEEE damaged_payload
      /\ Reader.Replay collect
           {| Reader.unread :=
                Reader.frames torn_log_records
                  ++ (BigEndian.PutUint32 (Z.of_nat (length damaged_payload))
                        ++ full_frame_checksum ++ damaged_payload)
                  ++ torn_tail |} []
         = Some (torn_log_records, Panic)).
Proof.
  assert (Reader.deliver collect [] torn_log_records = (torn_log_records, None))
    as Hcb by reflexivity.
  assert (snd (Reader.ReadRecord {| Reader.unread := torn_tail |})
          = Err io_ErrUnexpectedEOF) as Hrd by (vm_compute; reflexivity).
  assert (Z.of_nat (length damaged_payload) < 2 ^ 32) as Hlt
    by (rewrite damaged_payload_length; reflexivity).
  pose proof (Replay_short_read_and_checksum_mismatch collect torn_log_records
                full_frame_checksum damaged_payload torn_tail [] torn_log_records
                torn_log_records_fit Hcb) as [Hshort Hsum].
  split.
  - split; [exact torn_log_records_fit|]. split; [exact Hcb|].
    split; [exact Hrd|]. exact (Hshort Hrd).
  - split; [reflexivity|]. split; [exact Hlt|].
    split; [exact full_frame_checksum_mismatch|].
    pose proof (Hsum eq_refl Hlt full_frame_checksum_mismatch) as Hpanic.
    assert ((8 + Z.of_nat (length damaged_payload) <? 2 ^ 32) = false) as Hwide
      by (rewrite damaged_payload_length; reflexivity).
    rewrite Hwide in Hpanic. exact Hpanic.
Defined.

(** * Further properties of the code *)

(** ** The arena *)

Lemma grow_spec (fuel cap need : nat) :
  (0 < cap)%nat -> (need <= fuel + cap)%nat ->
  exists k : nat,
    Arena.grow fuel cap need = (cap * 2 ^ k)%nat
    /\ (need <= cap * 2 ^ k)%nat
    /\ (k = 0%nat \/ (cap * 2 ^ (k - 1) < need)%nat).
Proof.
  revert cap. induction fuel as [|fuel IH]; intros cap Hc Hf.
  - exists 0%nat. simpl. lia.
  - cbn [Arena.grow]. destruct (Nat.ltb_spec cap need) as [Hlt|Hge].
    + destruct (IH (cap * 2)%nat ltac:(lia) ltac:(lia)) as (k & Hk & Hle & Hmin).
      exists (S k). rewrite Hk. cbn [Nat.pow]. replace (S k - 1)%nat with k by lia.
      split; [lia|]. split; [lia|]. right.
      destruct Hmin as [->|Hmin]; [simpl; lia|].
      destruct k as [|k]; [simpl; lia|].
      replace (S k - 1)%nat with k in Hmin by lia. cbn [Nat.pow]. lia.
    + exists 0%nat. simpl. lia.
Qed.

(** [ensure] leaves an arena with room as it is; otherwise the new
    capacity is the old one (1024 for an empty buffer) doubled as often
    as it takes, and no oftener, to hold the request. *)
Theorem Arena_ensure_doubles (a : Arena.t) (n : nat) :
  Arena.wf a ->
  let a' := Arena.ensure a n in
  let cap0 := if (length (Arena.buf a) =? 0)%nat then 1024%nat
              else length (Arena.buf a) in
  Arena.off a' = Arena.off a
  /\ ((n <= length (Arena.buf a) - Arena.off a)%nat -> a' = a)
  /\ ((length (Arena.buf a) - Arena.off a < n)%nat ->
      exists k : nat,
        length (Arena.buf a') = (cap0 * 2 ^ k)%nat
        /\ (Arena.off a + n <= cap0 * 2 ^ k)%nat
        /\ (k = 0%nat \/ (cap0 * 2 ^ (k - 1) < Arena.off a + n)%nat)).
Proof.
  intros Hwf a' cap0. unfold Arena.wf in Hwf. subst a'. unfold Arena.ensure.
  destruct (Nat.leb_spec n (length (Arena.buf a) - Arena.off a)) as [Hle|Hgt].
  - split; [reflexivity|]. split; [reflexivity|lia].
  - cbn [Arena.off Arena.buf]. split; [reflexivity|]. split; [lia|]. intros _.
    assert (0 < cap0)%nat as Hcap0.
    { unfold cap0. destruct (Nat.eqb_spec (length (Arena.buf a)) 0); lia. }
    destruct (grow_spec (Arena.off a + n) cap0 (Arena.off a + n) Hcap0 ltac:(lia))
      as (k & Hk & Hle & Hmin).
    exists k. fold cap0. rewrite Hk in *.
    split; [|split; assumption].
    rewrite write_at_length; unfold Arena.make; rewrite repeat_length;
      rewrite ?firstn_length_le; lia.
Qed.

Lemma Arena_ensure_doubles_witness :
  Arena.wf (Arena.NewArena 0)
  /\ Arena.off (Arena.ensure (Arena.NewArena 0) 3000) = Arena.off (Arena.NewArena 0).
Proof.
  split; [apply NewArena_wf|].
  exact (proj1 (Arena_ensure_doubles (Arena.NewArena 0) 3000 (NewArena_wf 0))).
Defined.

(** An empty arena asked for 3000 bytes grows to 4096. *)
Example ensure_from_empty :
  length (Arena.buf (Arena.ensure (Arena.NewArena 0) 3000)) = 4096%nat.
Proof. vm_compute. reflexivity. Qed.

Lemma ensure_prefix (a : Arena.t) (n : nat) :
  Arena.wf a ->
  firstn (Arena.off a) (Arena.buf (Arena.ensure a n))
  = firstn (Arena.off a) (Arena.buf a).
Proof.
  unfold Arena.wf, Arena.ensure. intros Hwf.
  destruct (n <=? length (Arena.buf a) - Arena.off a)%nat; [reflexivity|].
  cbn [Arena.buf]. unfold Arena.write_at.
  rewrite List.firstn_O, app_nil_l, List.firstn_app, List.firstn_firstn.
  rewrite Nat.min_id, firstn_length_le by lia.
  now rewrite Nat.sub_diag, List.firstn_O, app_nil_r.
Qed.

(** [Copy] returns a slice that holds the bytes of [src], taken at the old
    write offset, moves the offset by [len(src)], and leaves every byte
    handed out before as it was, also when the buffer had to grow. *)
Theorem Arena_Copy_keeps_earlier_bytes (a : Arena.t) (src : bytes) :
  Arena.wf a ->
  let a' := fst (Arena.Copy a src) in
  snd (Arena.Copy a src) = src
  /\ Arena.slice a' (Arena.off a, (Arena.off a + length src)%nat) = src
  /\ Arena.off a' = (Arena.off a + length src)%nat
  /\ Arena.wf a'
  /\ firstn (Arena.off a) (Arena.buf a') = firstn (Arena.off a) (Arena.buf a).
Proof.
  intros Hwf a'. destruct (Copy_spec a src Hwf) as [Hsrc Hwf'].
  destruct (ensure_spec a (length src) Hwf) as [Hoff Hlen].
  pose proof (ensure_prefix a (length src) Hwf) as Hpre.
  subst a'. unfold Arena.Copy, Arena.Alloc, Arena.slice in *.
  cbn [fst snd Arena.buf Arena.off] in *. rewrite Hoff in *.
  split; [assumption|]. split; [assumption|]. split; [reflexivity|].
  split; [assumption|].
  rewrite <- Hpre. unfold Arena.write_at.
  rewrite List.firstn_app, List.firstn_firstn, Nat.min_id.
  rewrite firstn_length_le by lia.
  now rewrite Nat.sub_diag, List.firstn_O, app_nil_r.
Qed.

Lemma Arena_Copy_keeps_earlier_bytes_witness :
  Arena.wf (fst (Arena.Copy (Arena.NewArena 2) (b "ab")))
  /\ firstn 2 (Arena.buf (fst (Arena.Copy (fst (Arena.Copy (Arena.NewArena 2) (b "ab")))
                                 (b "cde"))))
     = b "ab".
Proof.
  assert (Arena.wf (fst (Arena.Copy (Arena.NewArena 2) (b "ab")))) as Hwf
    by (apply Copy_spec, NewArena_wf).
  split; [exact Hwf|].
  pose proof (proj2 (proj2 (proj2 (proj2
    (Arena_Copy_keeps_earlier_bytes _ (b "cde") Hwf))))) as H.
  vm_compute in H |- *. exact H.
Defined.

(** ** The table *)

(** Every table reached from a fresh one keeps its key slice strictly
    ascending, without duplicates, and holding exactly the keys of the
    map, the deleted ones included. *)
Theorem Skiplist_keys_sorted_and_complete (cap : option nat) (ops : list op) :
  let s := Skiplist.run ops (Skiplist.NewSkiplist (option_map Arena.NewArena cap)) in
  StronglySorted bytes_lt (Skiplist.keys s)
  /\ (forall k, In k (Skiplist.keys s) <-> is_Some (Skiplist.entries s !! k))
  /\ Skiplist.sortKeys s = s.
Proof.
  intros s.
  assert (Skiplist.wf s) as (Hs & Hdom & Har)
    by apply run_wf, NewSkiplist_wf, fresh_arena_wf.
  split; [assumption|]. split; [assumption|].
  unfold Skiplist.sortKeys. destruct s as [m ks ar]. cbn [Skiplist.keys] in *.
  f_equal. clear Hdom Har. induction Hs as [|k ks Hs IH Hk]; [reflexivity|].
  cbn [sort_Strings fold_right]. fold (sort_Strings ks). rewrite IH.
  destruct ks as [|h t]; [reflexivity|]. cbn [insert_sorted].
  inversion Hk as [|? ? Hkh _]; subst.
  assert (bytes_leb k h = true) as -> by (apply bytes_leb_le; now left).
  reflexivity.
Qed.

(** The binary search of [keyPresent] finds a key exactly when the map
    has an entry for it. *)
Theorem Skiplist_keyPresent_iff (cap : option nat) (ops : list op) (k : bytes) :
  let s := Skiplist.run ops (Skiplist.NewSkiplist (option_map Arena.NewArena cap)) in
  Skiplist.keyPresent s k = true <-> is_Some (Skiplist.entries s !! k).
Proof.
  intros s.
  assert (Skiplist.wf s) as (Hs & Hdom & Har)
    by apply run_wf, NewSkiplist_wf, fresh_arena_wf.
  rewrite keyPresent_In by assumption. apply Hdom.
Qed.

Lemma Get_apply (s : Skiplist.t) (o : op) (k : bytes) :
  Skiplist.wf s ->
  Skiplist.Get (Skiplist.apply s o) k
  = if decide (k = op_key o) then
      if Skiplist.stale s (op_key o) (op_seq o) then Skiplist.Get s k
      else op_visible o
    else Skiplist.Get s k.
Proof.
  intros Hwf. destruct (apply_spec s o Hwf) as [_ He].
  unfold Skiplist.Get at 1. rewrite He.
  destruct (Skiplist.stale s (op_key o) (op_seq o)).
  - now destruct (decide (k = op_key o)).
  - destruct (decide (k = op_key o)) as [->|Hne].
    + rewrite lookup_insert_eq. now destruct o.
    + now rewrite lookup_insert_ne by congruence.
Qed.

(** What [Get] returns after a [Put] or a [Delete] on any table reached
    from a fresh one: for the key written, the value of an accepted [Put],
    absence after an accepted [Delete], and what it returned before when
    the write is stale; for every other key, what it returned before.
    Both calls return [nil]. *)
Theorem Skiplist_Get_after_write (cap : option nat) (ops : list op)
    (key val k : bytes) (sq : N) :
  let s := Skiplist.run ops (Skiplist.NewSkiplist (option_map Arena.NewArena cap)) in
  Skiplist.Get (fst (Skiplist.Put s key val sq)) k
  = (if decide (k = key) then
       if Skiplist.stale s key sq then Skiplist.Get s k else Some val
     else Skiplist.Get s k)
  /\ Skiplist.Get (fst (Skiplist.Delete s key sq)) k
     = (if decide (k = key) then
          if Skiplist.stale s key sq then Skiplist.Get s k else None
        else Skiplist.Get s k)
  /\ snd (Skiplist.Put s key val sq) = None
  /\ snd (Skiplist.Delete s key sq) = None.
Proof.
  intros s.
  assert (Skiplist.wf s) as Hwf by apply run_wf, NewSkiplist_wf, fresh_arena_wf.
  split; [exact (Get_apply s (OpPut key val sq) k Hwf)|].
  split; [exact (Get_apply s (OpDelete key sq) k Hwf)|].
  unfold Skiplist.Put, Skiplist.Delete.
  destruct (Skiplist.stale s key sq); [easy|].
  destruct (Skiplist.arena s) as [a|]; [|easy].
  destruct (Arena.Copy a val). easy.
Qed.

(** ** Seeking *)

Lemma In_skipn_nth_error {A : Type} (l : list A) (r : nat) (x : A) :
  In x (skipn r l) <-> exists i, (r <= i)%nat /\ nth_error l i = Some x.
Proof.
  revert l. induction r as [|r IH]; intros l.
  - rewrite List.skipn_O. split.
    + intros H. apply In_nth_error in H as [i Hi]. exists i. split; [lia|assumption].
    + intros (i & _ & Hi). eapply nth_error_In, Hi.
  - destruct l as [|a l]; simpl.
    + split; [easy|]. intros (i & _ & Hi). now destruct i.
    + rewrite IH. split.
      * intros (i & Hle & Hi). exists (S i). split; [lia|assumption].
      * intros (i & Hle & Hi). destruct i as [|i]; [lia|].
        exists i. split; [lia|assumption].
Qed.

Lemma combine_nth_error_fst {A B : Type} (l : list A) (l' : list B) (i : nat)
    (x : A) (y : B) :
  nth_error (combine l l') i = Some (x, y) -> nth_error l i = Some x.
Proof.
  revert l' i. induction l as [|a l IH]; intros [|a' l'] [|i]; simpl; try easy.
  - now intros [= -> _].
  - apply IH.
Qed.

Lemma StronglySorted_skipn (l : list bytes) (r : nat) :
  StronglySorted bytes_lt l -> StronglySorted bytes_lt (skipn r l).
Proof.
  revert l. induction r as [|r IH]; intros l Hs; [now rewrite List.skipn_O|].
  destruct l as [|a l]; [assumption|]. simpl. apply IH. now inversion Hs.
Qed.

Lemma map_fst_skipn {A B : Type} (l : list (A * B)) (r : nat) :
  map fst (skipn r l) = skipn r (map fst l).
Proof.
  revert l. induction r as [|r IH]; intros [|a l]; simpl; auto.
Qed.

Lemma SeekGE_drain (s : Skiplist.t) (target : bytes) :
  Skiplist.wf s ->
  let it := Iterator.SeekGE (Skiplist.NewIterator s) target in
  exists L,
    Iterator.drain (S (length (Iterator.keys it))) it = Some L
    /\ StronglySorted bytes_lt (map fst L)
    /\ forall k v,
         In (k, v) L <-> Skiplist.Get s k = Some v /\ ~ bytes_lt k target.
Proof.
  intros Hwf it.
  destruct (NewIterator_drain s Hwf) as (L0 & Hd0 & Hs0 & Hin0).
  cbv zeta in Hd0. rewrite SeekGE_nil in Hd0.
  destruct Hwf as (Hs & Hdom & _).
  subst it. unfold Iterator.SeekGE, Skiplist.NewIterator in *.
  pose proof (snapshot_length (Skiplist.entries s) (Skiplist.keys s)) as Hlen.
  pose proof (snapshot_sorted (Skiplist.entries s) (Skiplist.keys s) Hs) as Hsorted.
  destruct (Skiplist.snapshot _ _) as [keys vals].
  cbn [fst snd Iterator.keys Iterator.vals Iterator.idx Iterator.Next] in *.
  change 0%Z with (Z.of_nat 0) in Hd0.
  rewrite drain_from in Hd0 by (assumption || lia).
  rewrite List.skipn_O in Hd0. injection Hd0 as <-.
  pose proof (search_loop_spec keys target Hsorted (length keys) 0 (length keys)) as H.
  cbv zeta in H. destruct H as (Hr & Hbelow & Habove); try lia.
  remember (search_loop _ _ _ _ _) as r eqn:Er. clear Er.
  exists (skipn r (combine keys vals)). split; [|split].
  - unfold Iterator.Next. cbn [Iterator.keys Iterator.vals Iterator.idx].
    replace (Z.of_nat r - 1 + 1)%Z with (Z.of_nat r) by lia.
    apply drain_from; [assumption|lia].
  - rewrite map_fst_skipn, combine_fst by assumption.
    now apply StronglySorted_skipn.
  - intros k v. rewrite <- Hin0, In_skipn_nth_error. split.
    + intros (i & Hle & Hi). split; [eapply nth_error_In, Hi|].
      pose proof (combine_nth_error_fst _ _ _ _ _ Hi) as Hk.
      assert (i < length keys)%nat as Hlt by (apply nth_error_Some; congruence).
      rewrite <- (nth_error_nth keys i [] Hk). now apply Habove.
    + intros [Hin Hnlt]. apply In_nth_error in Hin as [i Hi]. exists i.
      split; [|assumption].
      destruct (Nat.le_gt_cases r i) as [|Hlt]; [assumption|]. exfalso.
      apply Hnlt. pose proof (combine_nth_error_fst _ _ _ _ _ Hi) as Hk.
      rewrite <- (nth_error_nth keys i [] Hk). now apply Hbelow.
Qed.

(** [SeekGE(target)] puts the iterator on the first key that is not below
    the target: from there it yields, in ascending order, exactly the
    pairs of the snapshot whose key is not below the target.  It yields
    nothing when the target is above every key. *)
Theorem Iterator_SeekGE_first_not_below (cap : option nat) (ops : list op)
    (target : bytes) :
  let s := Skiplist.run ops (Skiplist.NewSkiplist (option_map Arena.NewArena cap)) in
  let it := Iterator.SeekGE (Skiplist.NewIterator s) target in
  exists L,
    Iterator.drain (S (length (Iterator.keys it))) it = Some L
    /\ StronglySorted bytes_lt (map fst L)
    /\ forall k v,
         In (k, v) L <-> Skiplist.Get s k = Some v /\ ~ bytes_lt k target.
Proof. intros s. apply SeekGE_drain, run_wf, NewSkiplist_wf, fresh_arena_wf. Qed.

(** The seek of the Go test: keys a, b, c, d and the target "bb". *)
Example SeekGE_between_keys :
  let s := Skiplist.run [OpPut (b "a") (b "v") 1; OpPut (b "b") (b "v") 2;
                         OpPut (b "c") (b "v") 3; OpPut (b "d") (b "v") 4]
             (Skiplist.NewSkiplist None) in
  Iterator.Key (Iterator.SeekGE (Skiplist.NewIterator s) (b "bb")) = Some (b "c")
  /\ Iterator.Valid (Iterator.SeekGE (Skiplist.NewIterator s) (b "zzzz")) = false.
Proof. vm_compute. auto. Qed.

(** ** The controller *)

Local Open Scope nat_scope.

Lemma fresh_table_wf (capacity : nat) :
  Skiplist.wf (Skiplist.NewSkiplist (Some (Arena.NewArena capacity))).
Proof. apply NewSkiplist_wf. intros a [= <-]. apply NewArena_wf. Qed.

Lemma Memtable_apply_wf (m : Memtable.t) (o : op) :
  Skiplist.wf (Memtable.current m) ->
  (forall i, Memtable.imm m = Some i -> Skiplist.wf i) ->
  Skiplist.wf (Memtable.current (Memtable.apply m o))
  /\ (forall i, Memtable.imm (Memtable.apply m o) = Some i -> Skiplist.wf i)
  /\ Memtable.threshold (Memtable.apply m o) = Memtable.threshold m.
Proof.
  intros Hc Hi. destruct o as [k v sq | k sq]; cbn [Memtable.apply].
  - unfold Memtable.Put.
    assert (Skiplist.wf (Memtable.current (Memtable.flip m k v))
            /\ (forall i, Memtable.imm (Memtable.flip m k v) = Some i -> Skiplist.wf i)
            /\ Memtable.threshold (Memtable.flip m k v) = Memtable.threshold m)
      as (Hc' & Hi' & Ht).
    { unfold Memtable.flip. destruct (_ && _ && _); [|auto].
      cbn [Memtable.current Memtable.imm Memtable.threshold].
      split; [|split; [|reflexivity]].
      - apply fresh_table_wf.
      - now intros i [= <-]. }
    pose proof (apply_spec _ (OpPut k v sq) Hc') as [Hw _].
    cbn [Skiplist.apply] in Hw.
    destruct (Skiplist.Put _ k v sq) as [cur err]. cbn [fst] in *. auto.
  - unfold Memtable.Delete.
    pose proof (apply_spec _ (OpDelete k sq) Hc) as [Hw _].
    cbn [Skiplist.apply] in Hw.
    destruct (Skiplist.Delete _ k sq) as [cur err]. cbn [fst] in *. auto.
Qed.

Lemma Memtable_run_wf (th : Z) (ops : list op) :
  let m := Memtable.run ops (Memtable.NewMemtable th) in
  Skiplist.wf (Memtable.current m)
  /\ (forall i, Memtable.imm m = Some i -> Skiplist.wf i)
  /\ Memtable.threshold m = th.
Proof.
  induction ops as [|o ops IH] using rev_ind.
  - unfold Memtable.run, Memtable.NewMemtable.
    cbn [fold_left Memtable.current Memtable.imm Memtable.threshold].
    split; [|split; [discriminate|reflexivity]].
    apply fresh_table_wf.
  - cbv zeta in *. rewrite Memtable_run_app. destruct IH as (Hc & Hi & Ht).
    destruct (Memtable_apply_wf _ o Hc Hi) as (Hc' & Hi' & Ht').
    split; [assumption|]. split; [assumption|]. congruence.
Qed.

Lemma Get_fresh (ar : option Arena.t) (k : bytes) :
  Skiplist.Get (Skiplist.NewSkiplist ar) k = None.
Proof. unfold Skiplist.Get. cbn. now rewrite lookup_empty. Qed.

(** When the immutable slot is free, the threshold is positive and the
    projected size passes it, [Put] seals: the old current table goes to
    the slot untouched, the new current table holds the written key and
    nothing else, and the counter restarts at the size of this write.  In
    every other case [Put] is the [Put] of the current table, and the
    slot stays as it is. *)
Theorem Memtable_Put_seals_over_threshold (m : Memtable.t) (key val : bytes)
    (sq : N) :
  let projected := int_add (int_add (Memtable.sizeBytes m) (len key)) (len val) in
  let m' := fst (Memtable.Put m key val sq) in
  (Memtable.imm m = None -> (0 < Memtable.threshold m)%Z ->
   (Memtable.threshold m < projected)%Z ->
   Memtable.imm m' = Some (Memtable.current m)
   /\ Skiplist.entries (Memtable.current m') = {[ key := mkEntry sq val false ]}
   /\ Skiplist.keys (Memtable.current m') = [key]
   /\ Memtable.sizeBytes m' = int_add 0 (int_add (len key) (len val)))
  /\ (~ (Memtable.imm m = None /\ (0 < Memtable.threshold m)%Z
         /\ (Memtable.threshold m < projected)%Z) ->
      Memtable.imm m' = Memtable.imm m
      /\ Memtable.current m' = fst (Skiplist.Put (Memtable.current m) key val sq)).
Proof.
  intros projected m'. subst m'. unfold Memtable.Put, Memtable.flip. fold projected.
  split.
  - intros -> H0 Hp.
    apply Z.ltb_lt in H0 as ->. apply Z.ltb_lt in Hp as ->. cbn [andb].
    cbn [Memtable.current Memtable.imm Memtable.sizeBytes Memtable.threshold
         Memtable.arenaCap].
    set (fresh := Skiplist.NewSkiplist (Some (Arena.NewArena (Memtable.arenaCap m)))).
    assert (Skiplist.wf fresh) as Hwf by apply fresh_table_wf.
    pose proof (apply_spec fresh (OpPut key val sq) Hwf) as [(Hs & Hdom & _) He].
    cbn [Skiplist.apply op_key op_seq entry_of] in *.
    assert (Skiplist.stale fresh key sq = false) as Hst
      by (unfold Skiplist.stale, fresh; cbn; now rewrite lookup_empty).
    rewrite Hst in He.
    assert (snd (Skiplist.Put fresh key val sq) = None) as Herr.
    { unfold Skiplist.Put. rewrite Hst. cbn [fresh Skiplist.NewSkiplist Skiplist.arena].
      now destruct (Arena.Copy _ val). }
    assert (Skiplist.keys (fst (Skiplist.Put fresh key val sq)) = [key]) as Hk.
    { unfold Skiplist.Put. rewrite Hst.
      cbn [fresh Skiplist.NewSkiplist Skiplist.arena Skiplist.entries Skiplist.keys].
      destruct (Arena.Copy _ val) as [a' st]. cbn [fst].
      unfold Skiplist.track, Skiplist.keyPresent. cbn. reflexivity. }
    destruct (Skiplist.Put fresh key val sq) as [cur err]. cbn [fst snd] in *.
    subst err. cbn [fst Memtable.current Memtable.imm Memtable.sizeBytes].
    split; [reflexivity|]. split; [|split; [assumption|reflexivity]].
    rewrite He. unfold fresh. cbn [Skiplist.NewSkiplist Skiplist.entries].
    apply insert_empty.
  - intros Hno.
    assert ((match Memtable.imm m with None => true | Some _ => false end)
            && (0 <? Memtable.threshold m)%Z
            && (Memtable.threshold m <? projected)%Z = false) as ->.
    { destruct (Memtable.imm m); [reflexivity|]. cbn [andb].
      destruct (Z.ltb_spec 0 (Memtable.threshold m)); [|reflexivity].
      destruct (Z.ltb_spec (Memtable.threshold m) projected); [|reflexivity].
      exfalso. apply Hno. auto. }
    destruct (Skiplist.Put _ key val sq) as [cur err]. cbn. auto.
Qed.

Lemma Memtable_Put_seals_over_threshold_witness :
  Memtable.imm stale_start = None
  /\ (0 < Memtable.threshold stale_start)%Z
  /\ (Memtable.threshold stale_start
      < int_add (int_add (Memtable.sizeBytes stale_start) (len (b "bb"))) (len (b "22")))%Z
  /\ Skiplist.keys (Memtable.current (fst (Memtable.Put stale_start (b "bb") (b "22") 2)))
     = [b "bb"].
Proof.
  assert (Memtable.imm stale_start = None) as H1 by (vm_compute; reflexivity).
  assert (0 < Memtable.threshold stale_start)%Z as H2 by (vm_compute; reflexivity).
  assert (Memtable.threshold stale_start
          < int_add (int_add (Memtable.sizeBytes stale_start) (len (b "bb")))
              (len (b "22")))%Z as H3 by (vm_compute; reflexivity).
  split; [exact H1|]. split; [exact H2|]. split; [exact H3|].
  exact (proj1 (proj2 (proj2 (proj1
    (Memtable_Put_seals_over_threshold stale_start (b "bb") (b "22") 2) H1 H2 H3)))).
Defined.

Local Open Scope nat_scope.

Lemma flip_no_threshold (m : Memtable.t) (key val : bytes) :
  (Memtable.threshold m <= 0)%Z -> Memtable.flip m key val = m.
Proof.
  intros H. unfold Memtable.flip.
  destruct (Z.ltb_spec 0 (Memtable.threshold m)); [lia|].
  now rewrite andb_false_r.
Qed.

(** With a threshold that is not positive the controller never seals: it
    is one table, the run of its writes is the run of the same writes on
    that table, and [Get] is the [Get] of that table. *)
Theorem Memtable_without_threshold_is_one_table (th : Z) (ops : list op) :
  (th <= 0)%Z ->
  let m := Memtable.run ops (Memtable.NewMemtable th) in
  Memtable.HasImmutable m = false
  /\ Memtable.current m
     = Skiplist.run ops
         (Skiplist.NewSkiplist (Some (Arena.NewArena (Nat.shiftl 1 20))))
  /\ forall k, Memtable.Get m k = Skiplist.Get (Memtable.current m) k.
Proof.
  intros Hth m.
  assert (Memtable.imm m = None
          /\ Memtable.current m
             = Skiplist.run ops
                 (Skiplist.NewSkiplist (Some (Arena.NewArena (Nat.shiftl 1 20)))))
    as [Hi Hc].
  { subst m. induction ops as [|o ops [IH1 IH2]] using rev_ind.
    - split; reflexivity.
    - rewrite Memtable_run_app, run_app, <- IH2.
      pose proof (Memtable_run_wf th ops) as (_ & _ & Ht). cbv zeta in Ht.
      destruct o as [k v sq | k sq]; cbn [Memtable.apply Skiplist.apply].
      + unfold Memtable.Put. rewrite flip_no_threshold by lia.
        destruct (Skiplist.Put _ k v sq) as [cur err]. cbn. auto.
      + unfold Memtable.Delete.
        destruct (Skiplist.Delete _ k sq) as [cur err]. cbn. auto. }
  unfold Memtable.HasImmutable, Memtable.Get. rewrite Hi.
  split; [reflexivity|]. split; [assumption|].
  intros k. now destruct (Skiplist.Get (Memtable.current m) k).
Qed.

Lemma Memtable_without_threshold_is_one_table_witness :
  (0 <= 0)%Z
  /\ Memtable.HasImmutable (Memtable.run S3_ops (Memtable.NewMemtable 0)) = false.
Proof.
  split; [lia|].
  exact (proj1 (Memtable_without_threshold_is_one_table 0 S3_ops ltac:(lia))).
Defined.

(** A [Put] changes what [Get] returns for its own key only, whether it
    seals the current table or not: the key written reads as the new
    value unless the table that receives the write rejects it as stale,
    and every other key reads as before. *)
Theorem Memtable_Put_changes_one_key (th : Z) (ops : list op)
    (key val k : bytes) (sq : N) :
  let m := Memtable.run ops (Memtable.NewMemtable th) in
  Memtable.Get (fst (Memtable.Put m key val sq)) k
  = if decide (k = key) then
      if Skiplist.stale (Memtable.current (Memtable.flip m key val)) key sq
      then Memtable.Get m k else Some val
    else Memtable.Get m k.
Proof.
  intros m. pose proof (Memtable_run_wf th ops) as (Hc & Hi & _).
  cbv zeta in Hc, Hi. fold m in Hc, Hi.
  unfold Memtable.Put.
  assert (Memtable.flip m key val = m
          \/ (Memtable.imm m = None
              /\ Memtable.flip m key val
                 = {| Memtable.current :=
                        Skiplist.NewSkiplist (Some (Arena.NewArena (Memtable.arenaCap m)));
                      Memtable.imm := Some (Memtable.current m);
                      Memtable.threshold := Memtable.threshold m;
                      Memtable.arenaCap := Memtable.arenaCap m;
                      Memtable.sizeBytes := 0 |})) as [Hf | [Himm Hf]].
  { unfold Memtable.flip. destruct (Memtable.imm m); [now left|].
    destruct (_ && _ && _); [right|left]; auto. }
  - rewrite Hf.
    pose proof (Get_apply (Memtable.current m) (OpPut key val sq) k Hc) as HG.
    cbn [Skiplist.apply op_key op_seq op_visible] in HG.
    destruct (Skiplist.Put (Memtable.current m) key val sq) as [cur err].
    cbn [fst] in *. unfold Memtable.Get. cbn [Memtable.current Memtable.imm].
    rewrite HG. destruct (decide (k = key)); [|reflexivity].
    now destruct (Skiplist.stale (Memtable.current m) key sq).
  - rewrite Hf. cbn [Memtable.current Memtable.imm Memtable.threshold
                     Memtable.arenaCap Memtable.sizeBytes].
    set (fresh := Skiplist.NewSkiplist _).
    pose proof (Get_apply fresh (OpPut key val sq) k (fresh_table_wf _)) as HG.
    cbn [Skiplist.apply op_key op_seq op_visible] in HG.
    assert (Skiplist.stale fresh key sq = false) as Hst
      by (unfold Skiplist.stale, fresh; cbn; now rewrite lookup_empty).
    assert (Skiplist.Get fresh k = None) as Hfk by apply Get_fresh.
    rewrite Hst, Hfk in *.
    destruct (Skiplist.Put fresh key val sq) as [cur err].
    cbn [fst] in *. unfold Memtable.Get. cbn [Memtable.current Memtable.imm].
    rewrite HG, Himm. destruct (decide (k = key)); [reflexivity|].
    now destruct (Skiplist.Get (Memtable.current m) k).
Qed.

(** [Delete] never seals and never counts: the slot and the byte counter
    stay as they are.  Every other key reads as before, and while the
    slot is free an accepted [Delete] makes its key read as absent. *)
Theorem Memtable_Delete_hides_in_one_generation (th : Z) (ops : list op)
    (key k : bytes) (sq : N) :
  let m := Memtable.run ops (Memtable.NewMemtable th) in
  let m' := fst (Memtable.Delete m key sq) in
  Memtable.imm m' = Memtable.imm m
  /\ Memtable.sizeBytes m' = Memtable.sizeBytes m
  /\ snd (Memtable.Delete m key sq) = None
  /\ (k <> key -> Memtable.Get m' k = Memtable.Get m k)
  /\ (Memtable.imm m = None ->
      Memtable.Get m' key
      = if Skiplist.stale (Memtable.current m) key sq then Memtable.Get m key
        else None).
Proof.
  intros m m'. pose proof (Memtable_run_wf th ops) as (Hc & _ & _).
  cbv zeta in Hc. fold m in Hc. subst m'. unfold Memtable.Delete.
  pose proof (Get_apply (Memtable.current m) (OpDelete key sq) k Hc) as HG.
  pose proof (Get_apply (Memtable.current m) (OpDelete key sq) key Hc) as HGk.
  cbn [Skiplist.apply op_key op_seq op_visible] in HG, HGk.
  assert (snd (Skiplist.Delete (Memtable.current m) key sq) = None) as Herr.
  { unfold Skiplist.Delete. now destruct (Skiplist.stale _ key sq). }
  destruct (Skiplist.Delete (Memtable.current m) key sq) as [cur err].
  cbn [fst snd] in *. subst err.
  cbn [Memtable.imm Memtable.sizeBytes].
  split; [reflexivity|]. split; [reflexivity|]. split; [reflexivity|]. split.
  - intros Hne. unfold Memtable.Get. cbn [Memtable.current Memtable.imm].
    rewrite HG. now destruct (decide (k = key)).
  - intros Himm. unfold Memtable.Get. cbn [Memtable.current Memtable.imm].
    rewrite HGk, Himm. destruct (decide (key = key)); [|contradiction].
    destruct (Skiplist.stale (Memtable.current m) key sq); [|reflexivity].
    reflexivity.
Qed.

(** ** The merged iterator over one generation *)

Local Open Scope nat_scope.

Lemma Iterator_Valid_Key (c : Iterator.t) :
  length (Iterator.keys c) = length (Iterator.vals c) ->
  Iterator.Valid c = true ->
  exists k v,
    Iterator.Key c = Some k /\ Iterator.Value c = Some v
    /\ nth_error (Iterator.keys c) (Z.to_nat (Iterator.idx c)) = Some k.
Proof.
  intros Hlen Hv. unfold Iterator.Valid in Hv.
  apply andb_true_iff in Hv as [H0 H1].
  apply Z.leb_le in H0. apply Z.ltb_lt in H1.
  unfold Iterator.Key, Iterator.Value.
  destruct (Z.leb_spec 0 (Iterator.idx c)); [|lia].
  destruct (nth_error (Iterator.keys c) (Z.to_nat (Iterator.idx c))) as [k|] eqn:Ek;
    [|apply nth_error_None in Ek; lia].
  destruct (nth_error (Iterator.vals c) (Z.to_nat (Iterator.idx c))) as [v|] eqn:Ev;
    [|apply nth_error_None in Ev; lia].
  eauto.
Qed.

Lemma sorted_nth_error_neq (l : list bytes) (i : nat) (x y : bytes) :
  StronglySorted bytes_lt l ->
  nth_error l i = Some x -> nth_error l (S i) = Some y -> x <> y.
Proof.
  intros Hs Hx Hy ->.
  assert (S i < length l) as Hlt by (apply nth_error_Some; congruence).
  pose proof (sorted_nth l i (S i) Hs ltac:(lia) Hlt) as H.
  rewrite (nth_error_nth l i [] Hx), (nth_error_nth l (S i) [] Hy) in H.
  now apply (bytes_lt_irrefl y).
Qed.

(** With no immutable iterator, the merged iterator steps as the iterator
    of the current table does. *)
Lemma merged_drain_single (fuel : nat) :
  forall (c : Iterator.t) (ck ik cv iv : option bytes) (vld : bool),
    StronglySorted bytes_lt (Iterator.keys c) ->
    length (Iterator.keys c) = length (Iterator.vals c) ->
    mergedIterator.drain fuel
      (mergedIterator.advance
         {| mergedIterator.curIt := Some c; mergedIterator.immIt := None;
            mergedIterator.curK := ck; mergedIterator.immK := ik;
            mergedIterator.curV := cv; mergedIterator.immV := iv;
            mergedIterator.valid := vld |})
    = Iterator.drain fuel c.
Proof.
  induction fuel as [|fuel IH]; intros c ck ik cv iv vld Hs Hlen; [reflexivity|].
  set (it := mergedIterator.advance _).
  destruct (Iterator.Valid c) eqn:Hv.
  - destruct (Iterator_Valid_Key c Hlen Hv) as (k & v & Hk & Hval & Hnth).
    assert (it = {| mergedIterator.curIt := Some c; mergedIterator.immIt := None;
                    mergedIterator.curK := Some k; mergedIterator.immK := None;
                    mergedIterator.curV := Some v; mergedIterator.immV := None;
                    mergedIterator.valid := true |}) as ->.
    { unfold it, mergedIterator.advance.
      cbn [mergedIterator.curIt mergedIterator.immIt mergedIterator.peek].
      now rewrite Hv, Hk, Hval. }
    cbn [mergedIterator.drain Iterator.drain]. rewrite Hv, Hk, Hval.
    unfold mergedIterator.Valid, mergedIterator.Next,
      mergedIterator.advanceFromCurrentKey, mergedIterator.Key, mergedIterator.Value.
    cbn [mergedIterator.valid mergedIterator.curK mergedIterator.immK
         mergedIterator.curV mergedIterator.immV mergedIterator.curIt
         mergedIterator.immIt negb mergedIterator.str mergedIterator.skip_dup].
    assert (Iterator.Valid (Iterator.Next c)
            && bytes_eqb (mergedIterator.str (Iterator.Key (Iterator.Next c))) k = false)
      as ->.
    { destruct (Iterator.Valid (Iterator.Next c)) eqn:Hv'; [|reflexivity].
      assert (length (Iterator.keys (Iterator.Next c))
              = length (Iterator.vals (Iterator.Next c))) as Hlen' by assumption.
      destruct (Iterator_Valid_Key _ Hlen' Hv') as (k' & _ & Hk' & _ & Hnth').
      rewrite Hk'. cbn [andb mergedIterator.str].
      destruct (bytes_eqb k' k) eqn:E; [|reflexivity].
      apply bytes_eqb_eq in E. subst k'. exfalso.
      unfold Iterator.Next in Hnth'. cbn [Iterator.keys Iterator.idx] in Hnth'.
      unfold Iterator.Valid in Hv. apply andb_true_iff in Hv as [H0 _].
      apply Z.leb_le in H0.
      replace (Z.to_nat (Iterator.idx c + 1)) with (S (Z.to_nat (Iterator.idx c)))
        in Hnth' by lia.
      now apply (sorted_nth_error_neq _ _ k k Hs Hnth Hnth'). }
    rewrite IH by assumption.
    unfold clone. reflexivity.
  - assert (mergedIterator.valid it = false) as Hit.
    { unfold it, mergedIterator.advance.
      cbn [mergedIterator.curIt mergedIterator.immIt mergedIterator.peek].
      now rewrite Hv. }
    cbn [mergedIterator.drain Iterator.drain]. unfold mergedIterator.Valid.
    now rewrite Hit, Hv.
Qed.

(** While the immutable slot is free, the merged iterator is right: from
    any seek it yields, in ascending order, exactly the pairs that [Get]
    returns and whose key is not below the target, each key once. *)
Theorem mergedIterator_one_generation (th : Z) (ops : list op) (target : bytes) :
  let m := Memtable.run ops (Memtable.NewMemtable th) in
  Memtable.imm m = None ->
  exists (fuel : nat) (L : list (bytes * bytes)),
    mergedIterator.drain fuel
      (mergedIterator.SeekGE (mergedIterator.NewIterator m) target) = Some L
    /\ StronglySorted bytes_lt (map fst L)
    /\ forall k v,
         In (k, v) L <-> Memtable.Get m k = Some v /\ ~ bytes_lt k target.
Proof.
  intros m Himm. pose proof (Memtable_run_wf th ops) as (Hc & _ & _).
  cbv zeta in Hc. fold m in Hc.
  destruct (SeekGE_drain (Memtable.current m) target Hc) as (L & Hd & Hs & Hin).
  set (c := Iterator.SeekGE (Skiplist.NewIterator (Memtable.current m)) target) in *.
  exists (S (length (Iterator.keys c))), L.
  split; [|split; [assumption|]].
  - unfold mergedIterator.SeekGE, mergedIterator.NewIterator. rewrite Himm.
    cbn [option_map mergedIterator.curIt mergedIterator.immIt mergedIterator.curK
         mergedIterator.immK mergedIterator.curV mergedIterator.immV
         mergedIterator.valid]. fold c.
    rewrite merged_drain_single; [assumption| |].
    + unfold c, Iterator.SeekGE, Skiplist.NewIterator.
      pose proof (snapshot_sorted (Skiplist.entries (Memtable.current m))
                    (Skiplist.keys (Memtable.current m)) (proj1 Hc)) as H.
      destruct (Skiplist.snapshot _ _). exact H.
    + unfold c, Iterator.SeekGE, Skiplist.NewIterator.
      pose proof (snapshot_length (Skiplist.entries (Memtable.current m))
                    (Skiplist.keys (Memtable.current m))) as H.
      destruct (Skiplist.snapshot _ _). exact H.
  - intros k v. rewrite Hin. unfold Memtable.Get. rewrite Himm.
    now destruct (Skiplist.Get (Memtable.current m) k).
Qed.

Lemma mergedIterator_one_generation_witness :
  Memtable.imm (Memtable.run S3_ops (Memtable.NewMemtable 32)) = None
  /\ exists (fuel : nat) (L : list (bytes * bytes)),
       mergedIterator.drain fuel
         (mergedIterator.SeekGE
            (mergedIterator.NewIterator (Memtable.run S3_ops (Memtable.NewMemtable 32)))
            []) = Some L
       /\ StronglySorted bytes_lt (map fst L)
       /\ forall k v,
            In (k, v) L
            <-> Memtable.Get (Memtable.run S3_ops (Memtable.NewMemtable 32)) k = Some v
                /\ ~ bytes_lt k [].
Proof.
  assert (Memtable.imm (Memtable.run S3_ops (Memtable.NewMemtable 32)) = None) as Hi
    by (vm_compute; reflexivity).
  split; [exact Hi|].
  exact (mergedIterator_one_generation 32 S3_ops [] Hi).
Defined.

(** ** The codec *)

Local Open Scope Z_scope.

(** The frame that [Encode] writes in place is the layout of the format:
    the payload length, the CRC-32 of the payload, and the payload, which
    is the type byte, the sequence number, and the key and the value each
    after its length, all big-endian.  It is 25 bytes longer than the key
    and the value together. *)
Theorem Encode_frame_layout (r : wal.Record_) :
  wal.Encode r
  = BigEndian.PutUint32 (uint32 (17 + len (wal.Key r) + len (wal.Value r)))
      ++ BigEndian.PutUint32 (crc32.ChecksumIEEE (wal.payload r))
      ++ [wal.Type_ r]
      ++ BigEndian.PutUint64 (wal.SeqNum r)
      ++ BigEndian.PutUint32 (uint32 (len (wal.Key r))) ++ wal.Key r
      ++ BigEndian.PutUint32 (uint32 (len (wal.Value r))) ++ wal.Value r
  /\ length (wal.Encode r)
     = (25 + length (wal.Key r) + length (wal.Value r))%nat.
Proof.
  split; [|apply Encode_length].
  rewrite Encode_eq, payload_length. unfold len. f_equal.
  f_equal. f_equal. lia.
Qed.

(** [Decode] reads one frame and no more: bytes that follow the frame in
    the buffer, and the spare capacity of the buffer, do not change the
    record it returns. *)
Theorem Decode_ignores_trailing_bytes (r : wal.Record_) (extra spare : bytes) :
  wal.fits r ->
  wal.Decode {| wal.data := wal.Encode r ++ extra; wal.spare := spare |} = Ok r.
Proof.
  intros Hfits. destruct (fits_payload r Hfits) as (Hu & Hfit & Hk & Hv).
  destruct Hfits as [Hsz Hseq].
  rewrite Encode_eq, Hu. unfold wal.Decode.
  cbn [wal.data wal.spare]. rewrite <- !app_assoc.
  set (hl := BigEndian.PutUint32 (Z.of_nat (length (wal.payload r)))).
  set (hc := BigEndian.PutUint32 (crc32.ChecksumIEEE (wal.payload r))).
  set (tl := extra ++ spare).
  assert (BigEndian.Uint32 hl = Z.of_nat (length (wal.payload r))) as EHl
    by (apply Uint32_Put; lia).
  assert (BigEndian.Uint32 hc = crc32.ChecksumIEEE (wal.payload r)) as EHc
    by (apply Uint32_Put, ChecksumIEEE_word32).
  assert (length hl = 4%nat /\ length hc = 4%nat) as (Lhl & Lhc)
    by (split; reflexivity).
  assert (length (hl ++ hc ++ wal.payload r ++ extra)
          = (8 + length (wal.payload r) + length extra)%nat)
    as Hn by (rewrite !length_app; lia).
  assert (length (hl ++ hc ++ wal.payload r ++ tl)
          = (8 + length (wal.payload r) + length tl)%nat)
    as Hcap by (rewrite !length_app; lia).
  rewrite Hn, Hcap.
  replace (sub (hl ++ hc ++ wal.payload r ++ tl) 0 4) with hl
    by (symmetry; apply sub_here; reflexivity).
  replace (sub (hl ++ hc ++ wal.payload r ++ tl) 4 8) with hc.
  2:{ symmetry. rewrite sub_skip by lia. apply sub_here; reflexivity. }
  rewrite !EHl, !EHc, !uint32_small by lia.
  replace (Z.to_nat (8 + Z.of_nat (length (wal.payload r))))
    with (8 + length (wal.payload r))%nat by lia.
  replace (sub (hl ++ hc ++ wal.payload r ++ tl) 8 (8 + length (wal.payload r)))
    with (wal.payload r).
  2:{ symmetry. rewrite sub_skip by lia. rewrite sub_skip by lia.
      apply sub_here; lia. }
  rewrite Z.eqb_refl. cbn [negb].
  rewrite payload_length in *. unfold wal.payload. rewrite <- !app_assoc.
  set (S := BigEndian.PutUint64 _).
  set (KL := BigEndian.PutUint32 (uint32 (len (wal.Key r)))).
  set (VL := BigEndian.PutUint32 (uint32 (len (wal.Value r)))).
  assert (BigEndian.Uint64 S = wal.SeqNum r) as ES by (now apply Uint64_Put).
  assert (BigEndian.Uint32 KL = len (wal.Key r)) as EKL
    by (unfold KL; rewrite Hk; apply Uint32_Put; unfold len; lia).
  assert (BigEndian.Uint32 VL = len (wal.Value r)) as EVL
    by (unfold VL; rewrite Hv; apply Uint32_Put; unfold len; lia).
  assert (length S = 8%nat /\ length KL = 4%nat /\ length VL = 4%nat)
    as (LS & LKL & LVL) by (repeat split; reflexivity).
  set (K := wal.Key r) in *. set (V := wal.Value r) in *.
  set (T := [wal.Type_ r]).
  assert (length T = 1%nat) as LT by reflexivity.
  replace (nth_error (hl ++ hc ++ T ++ S ++ KL ++ K ++ VL ++ V ++ extra) 8)
    with (Some (wal.Type_ r)).
  2:{ rewrite nth_error_app2 by lia. rewrite nth_error_app2 by lia.
      rewrite Lhl, Lhc. reflexivity. }
  replace (sub (hl ++ hc ++ T ++ S ++ KL ++ K ++ VL ++ V ++ tl) (8 + 1) (8 + 1 + 8))
    with S.
  2:{ symmetry. do 3 (rewrite sub_skip by lia). apply sub_here; lia. }
  replace (sub (hl ++ hc ++ T ++ S ++ KL ++ K ++ VL ++ V ++ tl)
             (8 + 1 + 8) (8 + 1 + 8 + 4)) with KL.
  2:{ symmetry. do 4 (rewrite sub_skip by lia). apply sub_here; lia. }
  rewrite ES, !EKL. unfold len. rewrite !Nat2Z.id. fold K.
  replace (sub (hl ++ hc ++ T ++ S ++ KL ++ K ++ VL ++ V ++ tl)
             (8 + 1 + 8 + 4 + length K) (8 + 1 + 8 + 4 + length K + 4)) with VL.
  2:{ symmetry. do 6 (rewrite sub_skip by lia). apply sub_here; lia. }
  rewrite !EVL. unfold len. rewrite !Nat2Z.id. fold V.
  replace (sub (hl ++ hc ++ T ++ S ++ KL ++ K ++ VL ++ V ++ tl)
             (8 + 1 + 8 + 4) (8 + 1 + 8 + 4 + length K)) with K.
  2:{ symmetry. do 5 (rewrite sub_skip by lia). apply sub_here; lia. }
  replace (sub (hl ++ hc ++ T ++ S ++ KL ++ K ++ VL ++ V ++ tl)
             (8 + 1 + 8 + 4 + length K + 4)
             (8 + 1 + 8 + 4 + length K + 4 + length V)) with V.
  2:{ symmetry. do 7 (rewrite sub_skip by lia). apply sub_here; lia. }
  repeat match goal with
         | |- context [Nat.ltb ?a ?b] =>
             destruct (Nat.ltb_spec a b); [lia|]
         end.
  unfold K, V. now destruct r.
Qed.

Lemma Decode_ignores_trailing_bytes_witness :
  wal.fits test_record
  /\ wal.Decode {| wal.data := wal.Encode test_record ++ b "next";
                   wal.spare := b "junk" |} = Ok test_record.
Proof.
  split; [exact test_record_fits|].
  exact (Decode_ignores_trailing_bytes test_record (b "next") (b "junk")
           test_record_fits).
Defined.




(** [Decode] returns a record only from a buffer of at least eight bytes
    whose checksum field is the CRC-32 of the bytes that its length field
    delimits, and the key and the value it returns have the lengths that
    their length fields say. *)
Theorem Decode_Ok_checksum_holds (buf : wal.buffer) (r : wal.Record_) :
  wal.Decode buf = Ok r ->
  let all := wal.data buf ++ wal.spare buf in
  let stop := Z.to_nat (uint32 (8 + BigEndian.Uint32 (sub all 0 4))) in
  (8 <= stop <= length (wal.data buf))%nat
  /\ BigEndian.Uint32 (sub all 4 8) = crc32.ChecksumIEEE (sub all 8 stop)
  /\ nth_error (wal.data buf) 8 = Some (wal.Type_ r)
  /\ wal.SeqNum r = BigEndian.Uint64 (sub all 9 17)
  /\ Z.of_nat (length (wal.Key r)) = BigEndian.Uint32 (sub all 17 21)
  /\ Z.of_nat (length (wal.Value r))
     = BigEndian.Uint32 (sub all (21 + length (wal.Key r)) (25 + length (wal.Key r))).
Proof.
  intros H all stop. unfold wal.Decode in H. fold all in H. fold stop in H.
  destruct (Nat.ltb_spec (length (wal.data buf)) 8); [discriminate|].
  destruct (Nat.ltb_spec (length (wal.data buf)) stop); [discriminate|].
  destruct (Nat.ltb_spec stop 8); [discriminate|].
  destruct (Z.eqb_spec (BigEndian.Uint32 (sub all 4 8))
              (crc32.ChecksumIEEE (sub all 8 stop))) as [Hcs|]; [|discriminate].
  cbn [negb] in H.
  destruct (nth_error (wal.data buf) 8) as [ty|]; [|discriminate].
  change (8 + 1)%nat with 9%nat in H. change (9 + 8)%nat with 17%nat in H.
  change (17 + 4)%nat with 21%nat in H.
  repeat match type of H with
         | context [Nat.ltb ?a ?b] =>
             destruct (Nat.ltb_spec a b); [discriminate|]
         end.
  apply (f_equal (fun o => match o with Ok a => a | _ => r end)) in H.
  cbv beta iota in H. subst r. cbn [wal.Type_ wal.Key wal.Value wal.SeqNum].
  pose proof (Uint32_range (sub all 17 21)) as Hkl.
  set (kl := Z.to_nat (BigEndian.Uint32 (sub all 17 21))) in *.
  assert (length (sub all 21 (21 + kl)) = kl) as Hklen.
  { unfold sub. rewrite length_firstn, length_skipn. lia. }
  rewrite Hklen.
  pose proof (Uint32_range (sub all (21 + kl) (21 + kl + 4))) as Hvl.
  set (vl := Z.to_nat (BigEndian.Uint32 (sub all (21 + kl) (21 + kl + 4)))) in *.
  assert (length (sub all (21 + kl + 4) (21 + kl + 4 + vl)) = vl) as Hvlen.
  { unfold sub. rewrite length_firstn, length_skipn. lia. }
  rewrite Hvlen.
  replace (25 + kl)%nat with (21 + kl + 4)%nat by lia.
  repeat split; try lia; try assumption.
Qed.

Lemma Decode_Ok_checksum_holds_witness :
  wal.Decode (wal.exact (wal.Encode test_record)) = Ok test_record
  /\ nth_error (wal.data (wal.exact (wal.Encode test_record))) 8
     = Some (wal.Type_ test_record).
Proof.
  assert (wal.Decode (wal.exact (wal.Encode test_record)) = Ok test_record) as H
    by (vm_compute; reflexivity).
  split; [exact H|].
  exact (proj1 (proj2 (proj2 (Decode_Ok_checksum_holds _ _ H)))).
Defined.

(** ** Replay *)

Local Open Scope nat_scope.

Lemma ReadRecord_empty :
  Reader.ReadRecord {| Reader.unread := [] |} = ({| Reader.unread := [] |}, Err io_EOF).
Proof. reflexivity. Qed.

Lemma deliver_app {St : Type} (callback : St -> wal.Record_ -> St * option error)
    (pre post : list wal.Record_) (st : St) :
  Reader.deliver callback st (pre ++ post)
  = match Reader.deliver callback st pre with
    | (st', Some e) => (st', Some e)
    | (st', None) => Reader.deliver callback st' post
    end.
Proof.
  revert st. induction pre as [|r pre IH]; intros st; [reflexivity|].
  cbn [app Reader.deliver]. destruct (callback st r) as [st1 [e|]]; [reflexivity|].
  apply IH.
Qed.

Lemma deliver_collect (st recs : list wal.Record_) :
  Reader.deliver collect st recs = (st ++ recs, None).
Proof.
  revert st. induction recs as [|r recs IH]; intros st; cbn [Reader.deliver].
  - now rewrite app_nil_r.
  - unfold collect at 1. rewrite IH, <- app_assoc. reflexivity.
Qed.

(** [Replay] on a log of whole frames, each shorter than [2^32] bytes
    ([wal.fits]), hands every record to the callback in the order of the
    file and returns [nil] at the end of the file; if the callback
    fails, [Replay] returns its error.  A callback that keeps what it is
    given ends with the list of the records written.  (A frame of
    [2^32 - 8] bytes of payload or more is another matter: [ReadRecord]
    panics on it, see [ReadRecord_wide_frame].) *)
Theorem Replay_delivers_whole_log {St : Type}
    (callback : St -> wal.Record_ -> St * option error)
    (recs : list wal.Record_) (st : St) :
  Forall wal.fits recs ->
  Reader.Replay callback {| Reader.unread := Reader.frames recs |} st
  = Some (fst (Reader.deliver callback st recs),
          match snd (Reader.deliver callback st recs) with
          | Some e => Err e
          | None => Ok tt
          end)
  /\ Reader.Replay collect {| Reader.unread := Reader.frames recs |} []
     = Some (recs, Ok tt).
Proof.
  intros Hfits.
  assert (forall (T : Type) (cb : T -> wal.Record_ -> T * option error) (s : T),
            Reader.Replay cb {| Reader.unread := Reader.frames recs |} s
            = Some (fst (Reader.deliver cb s recs),
                    match snd (Reader.deliver cb s recs) with
                    | Some e => Err e
                    | None => Ok tt
                    end)) as H.
  { intros T cb s. rewrite <- (app_nil_r (Reader.frames recs)).
    rewrite (Replay_frames cb recs [] s Hfits).
    destruct (Reader.deliver cb s recs) as [st' [e|]]; [reflexivity|].
    pose proof (frames_length recs) as Hlen.
    assert (exists fuel, S (length (Reader.frames recs ++ [])) - length recs = S fuel)
      as [fuel ->].
    { exists (length (Reader.frames recs ++ []) - length recs).
      rewrite length_app. lia. }
    cbn [Reader.loop]. rewrite ReadRecord_empty. reflexivity. }
  split; [apply H|]. rewrite H, deliver_collect. reflexivity.
Qed.

Lemma Replay_delivers_whole_log_witness :
  Forall wal.fits torn_log_records
  /\ Reader.Replay collect {| Reader.unread := Reader.frames torn_log_records |} []
     = Some (torn_log_records, Ok tt).
Proof.
  split; [exact torn_log_records_fit|].
  exact (proj2 (Replay_delivers_whole_log collect torn_log_records []
                  torn_log_records_fit)).
Defined.

(** When the callback fails on a record, [Replay] returns its error at
    once: nothing that follows the frame of that record in the file is
    read, whatever it is. *)
Theorem Replay_callback_error_aborts {St : Type}
    (callback : St -> wal.Record_ -> St * option error)
    (pre : list wal.Record_) (r : wal.Record_) (rest : bytes)
    (st st1 st2 : St) (e : error) :
  Forall wal.fits pre -> wal.fits r ->
  Reader.deliver callback st pre = (st1, None) ->
  callback st1 r = (st2, Some e) ->
  Reader.Replay callback
    {| Reader.unread := Reader.frames pre ++ wal.Encode r ++ rest |} st
  = Some (st2, Err e).
Proof.
  intros Hpre Hr Hd Hcb.
  assert (Forall wal.fits (pre ++ [r])) as Hfits
    by (apply Forall_app; split; [assumption|now constructor]).
  pose proof (Replay_frames callback (pre ++ [r]) rest st Hfits) as H.
  unfold Reader.frames in H. rewrite map_app, concat_app in H.
  cbn [map concat] in H. rewrite app_nil_r, <- app_assoc in H.
  fold (Reader.frames pre) in H. rewrite H, deliver_app, Hd.
  cbn [Reader.deliver]. now rewrite Hcb.
Qed.

Lemma delete_record_fits : wal.fits delete_record.
Proof. unfold wal.fits, delete_record, len. simpl. lia. Qed.

Lemma Replay_callback_error_aborts_witness :
  Forall wal.fits [test_record] /\ wal.fits delete_record
  /\ Reader.deliver no_deletes 0 [test_record] = (1, None)
  /\ no_deletes 1 delete_record = (1, Some (errors_New "delete in log"))
  /\ Reader.Replay no_deletes
       {| Reader.unread := Reader.frames [test_record]
                             ++ wal.Encode delete_record ++ b "not a frame" |} 0
     = Some (1, Err (errors_New "delete in log")).
Proof.
  assert (Forall wal.fits [test_record]) as H1
    by (constructor; [exact test_record_fits|constructor]).
  split; [exact H1|]. split; [exact delete_record_fits|].
  split; [reflexivity|]. split; [reflexivity|].
  exact (Replay_callback_error_aborts no_deletes [test_record] delete_record
           (b "not a frame") 0 1 1 _ H1 delete_record_fits eq_refl eq_refl).
Defined.

Local Open Scope nat_scope.

(** What [io.ReadFull] leaves behind: after a read without error the
    file is shorter by the bytes asked for. *)
Lemma ReadFull_ok (r : Reader.t) (n : nat) :
  snd (Reader.ReadFull r n) = None ->
  length (Reader.unread (fst (fst (Reader.ReadFull r n)))) + n
  = length (Reader.unread r)
  /\ length (snd (fst (Reader.ReadFull r n))) = n.
Proof.
  unfold Reader.ReadFull.
  destruct (Nat.eqb_spec n 0) as [->|Hn]; [cbn; lia|].
  destruct (Nat.eqb_spec (length (Reader.unread r)) 0); [discriminate|].
  destruct (Nat.ltb_spec (length (Reader.unread r)) n); [discriminate|].
  cbn. intros _. rewrite length_skipn, firstn_length_le; lia.
Qed.

(** A record read takes at least the eight bytes of its header off the
    file. *)
Lemma ReadRecord_Ok_consumes (r r' : Reader.t) (rec : wal.Record_) :
  Reader.ReadRecord r = (r', Ok rec) ->
  length (Reader.unread r') + 8 <= length (Reader.unread r).
Proof.
  unfold Reader.ReadRecord.
  pose proof (ReadFull_ok r 4) as H1.
  destruct (Reader.ReadFull r 4) as [[r1 lenBytes] [e|]]; [discriminate|].
  cbn [fst snd] in H1. destruct (H1 eq_refl) as [L1 _].
  pose proof (ReadFull_ok r1 4) as H2.
  destruct (Reader.ReadFull r1 4) as [[r2 checksumBytes] [e|]]; [discriminate|].
  cbn [fst snd] in H2. destruct (H2 eq_refl) as [L2 _].
  pose proof (ReadFull_ok r2 (Z.to_nat (BigEndian.Uint32 lenBytes))) as H3.
  destruct (Reader.ReadFull r2 _) as [[r3 buf] [e|]]; [discriminate|].
  cbn [fst snd] in H3. destruct (H3 eq_refl) as [L3 _].
  destruct (negb _).
  - destruct (Reader.rebuild _ _ _ _); [|discriminate].
    destruct (wal.Decode _); discriminate.
  - destruct (Reader.rebuild _ _ _ _); [|discriminate].
    intros [= <- _]. lia.
Qed.

Lemma loop_total {St : Type} (callback : St -> wal.Record_ -> St * option error)
    (fuel : nat) :
  forall (r : Reader.t) (count : nat) (st : St),
    length (Reader.unread r) < fuel ->
    exists res, Reader.loop callback fuel r count st = Some res.
Proof.
  induction fuel as [|fuel IH]; intros r count st Hlen; [lia|].
  cbn [Reader.loop].
  destruct (Reader.ReadRecord r) as [r' res] eqn:E.
  destruct res as [rec|e|].
  - apply ReadRecord_Ok_consumes in E.
    destruct (callback st rec) as [st1 [e|]]; [eauto|].
    apply IH. lia.
  - destruct e; eauto. destruct (count =? 0); eauto.
  - eauto.
Qed.

(** [Replay] comes to an end on every file and with every callback: each
    turn of its loop either returns or has taken a whole record off the
    file. *)
Theorem Replay_terminates {St : Type}
    (callback : St -> wal.Record_ -> St * option error) (r : Reader.t) (st : St) :
  exists (st' : St) (res : outcome unit),
    Reader.Replay callback r st = Some (st', res).
Proof.
  destruct (loop_total callback (S (length (Reader.unread r))) r 0 st ltac:(lia))
    as [[st' res] H].
  exists st', res. exact H.
Qed.

Lemma ReadFull_short (l : bytes) (n : nat) :
  length l < n ->
  Reader.ReadFull {| Reader.unread := l |} n
  = if (length l =? 0) then ({| Reader.unread := l |}, [], Some io_EOF)
    else ({| Reader.unread := [] |}, l, Some io_ErrUnexpectedEOF).
Proof.
  intros H. unfold Reader.ReadFull. cbn [Reader.unread].
  destruct (Nat.eqb_spec n 0); [lia|].
  destruct (Nat.eqb_spec (length l) 0); [reflexivity|].
  destruct (Nat.ltb_spec (length l) n); [reflexivity|lia].
Qed.

Lemma firstn_app_ge {A : Type} (l l' : list A) (n : nat) :
  length l <= n -> firstn n (l ++ l') = l ++ firstn (n - length l) l'.
Proof. intros H. now rewrite List.firstn_app, firstn_all2 by lia. Qed.

(** Reading a frame cut short ends in [io.EOF] when the cut is at the
    start of the frame, after the length or after the checksum, and in
    [io.ErrUnexpectedEOF] anywhere else. *)
Lemma ReadRecord_cut (r : wal.Record_) (n : nat) :
  wal.fits r -> n < length (wal.Encode r) ->
  snd (Reader.ReadRecord {| Reader.unread := firstn n (wal.Encode r) |})
  = Err (if (n =? 0) || (n =? 4) || (n =? 8) then io_EOF
         else io_ErrUnexpectedEOF).
Proof.
  intros Hfits Hn. destruct (fits_payload r Hfits) as (Hu & Hfit & _ & _).
  rewrite Encode_length in Hn. rewrite Encode_eq, Hu.
  set (hl := BigEndian.PutUint32 (Z.of_nat (length (wal.payload r)))).
  set (hc := BigEndian.PutUint32 (crc32.ChecksumIEEE (wal.payload r))).
  assert (BigEndian.Uint32 hl = Z.of_nat (length (wal.payload r))) as EHl
    by (apply Uint32_Put; lia).
  assert (length hl = 4 /\ length hc = 4) as (Lhl & Lhc) by (split; reflexivity).
  pose proof (payload_length r) as Lpl.
  unfold Reader.ReadRecord.
  destruct (Nat.lt_ge_cases n 4) as [H4|H4].
  { rewrite ReadFull_short by (rewrite length_firstn, !length_app; lia).
    rewrite length_firstn, !length_app.
    destruct n as [|[|[|[|n]]]]; try lia; reflexivity. }
  rewrite firstn_app_ge by lia. rewrite Lhl.
  rewrite (ReadFull_enough hl _ 4 Lhl). cbn [Nat.eqb].
  destruct (Nat.lt_ge_cases n 8) as [H8|H8].
  { rewrite ReadFull_short by (rewrite length_firstn, !length_app; lia).
    rewrite length_firstn, !length_app.
    destruct (Nat.eqb_spec n 4) as [->|Hne].
    - reflexivity.
    - destruct (Nat.eqb_spec (Init.Nat.min (n - 4) (length hc + length (wal.payload r))) 0);
        [lia|].
      destruct n as [|[|[|[|[|[|[|[|n]]]]]]]]; try lia; reflexivity. }
  rewrite firstn_app_ge by lia. rewrite Lhc.
  rewrite (ReadFull_enough hc _ 4 Lhc). cbn [Nat.eqb].
  rewrite EHl, Nat2Z.id.
  rewrite ReadFull_short by (rewrite length_firstn; lia).
  rewrite length_firstn.
  destruct (Nat.eqb_spec n 8) as [->|Hne].
  - replace (8 - 4 - 4) with 0 by lia. reflexivity.
  - destruct (Nat.eqb_spec (Init.Nat.min (n - 4 - 4) (length (wal.payload r))) 0);
      [lia|].
    destruct n as [|[|[|[|[|[|[|[|[|n]]]]]]]]]; try lia; reflexivity.
Qed.



Local Open Scope nat_scope.





Local Open Scope Z_scope.

Lemma int_wrap_add_l (x y : Z) : int_wrap (int_wrap x + y) = int_wrap (x + y).
Proof.
  unfold int_wrap. f_equal.
  replace (((x + 2 ^ 63) mod 2 ^ 64 - 2 ^ 63) + y + 2 ^ 63)
    with ((x + 2 ^ 63) mod 2 ^ 64 + y) by lia.
  rewrite Zplus_mod_idemp_l. f_equal. lia.
Qed.

Lemma int_wrap_add_r (x y : Z) : int_wrap (x + int_wrap y) = int_wrap (x + y).
Proof. rewrite (Z.add_comm x), int_wrap_add_l. f_equal. lia. Qed.

Lemma put_bytes_app (ops ops' : list op) :
  Memtable.put_bytes (ops ++ ops') = Memtable.put_bytes ops + Memtable.put_bytes ops'.
Proof.
  induction ops as [|[k v sq|k sq] ops IH]; cbn [app Memtable.put_bytes]; lia.
Qed.

(** While the controller does not seal, its byte counter is the sum of
    the key and value lengths of every [Put] of the run, the rejected
    ones included, in the 64-bit arithmetic of [int]; a [Delete] adds
    nothing. *)
Theorem Memtable_counter_counts_every_put (th : Z) (ops : list op) :
  th <= 0 ->
  Memtable.sizeBytes (Memtable.run ops (Memtable.NewMemtable th))
  = int_wrap (Memtable.put_bytes ops).
Proof.
  intros Hth. induction ops as [|o ops IH] using rev_ind; [reflexivity|].
  rewrite Memtable_run_app, put_bytes_app.
  pose proof (Memtable_run_wf th ops) as (_ & _ & Ht). cbv zeta in Ht.
  destruct o as [k v sq | k sq]; cbn [Memtable.apply Memtable.put_bytes].
  - unfold Memtable.Put. rewrite flip_no_threshold by lia.
    assert (snd (Skiplist.Put (Memtable.current
                   (Memtable.run ops (Memtable.NewMemtable th))) k v sq) = None) as He.
    { unfold Skiplist.Put. destruct (Skiplist.stale _ k sq); [reflexivity|].
      destruct (Skiplist.arena _) as [a|]; [|reflexivity].
      now destruct (Arena.Copy a v). }
    destruct (Skiplist.Put _ k v sq) as [cur err]. cbn [snd] in He. subst err.
    cbn [fst Memtable.sizeBytes]. rewrite IH. unfold int_add.
    rewrite int_wrap_add_r, int_wrap_add_l. f_equal. lia.
  - unfold Memtable.Delete.
    destruct (Skiplist.Delete _ k sq) as [cur err].
    cbn [fst Memtable.sizeBytes]. rewrite IH. f_equal. lia.
Qed.

Lemma Memtable_counter_counts_every_put_witness :
  0 <= 0
  /\ Memtable.sizeBytes (Memtable.run S1_ops (Memtable.NewMemtable 0)) = 9.
Proof.
  split; [lia|].
  rewrite (Memtable_counter_counts_every_put 0 S1_ops ltac:(lia)).
  vm_compute. reflexivity.
Defined.

Local Open Scope nat_scope.

(** ** The merged iterator over two generations *)

Lemma rest_valid (c : Iterator.t) :
  length (Iterator.keys c) = length (Iterator.vals c) ->
  Iterator.Valid c = true ->
  exists k v,
    Iterator.Key c = Some k /\ Iterator.Value c = Some v
    /\ Iterator.rest c = (k, v) :: Iterator.rest (Iterator.Next c)
    /\ (0 <= Iterator.idx c)%Z.
Proof.
  intros Hlen Hv.
  destruct (Iterator_Valid_Key c Hlen Hv) as (k & v & Hk & Hval & Hnth).
  unfold Iterator.Valid in Hv. apply andb_true_iff in Hv as [H0 _].
  apply Z.leb_le in H0.
  exists k, v. repeat split; try assumption.
  unfold Iterator.Value in Hval. destruct (Z.leb_spec 0 (Iterator.idx c)); [|lia].
  unfold Iterator.rest, Iterator.Next.
  cbn [Iterator.keys Iterator.vals Iterator.idx].
  replace (Z.to_nat (Iterator.idx c + 1)) with (S (Z.to_nat (Iterator.idx c))) by lia.
  apply skipn_nth_error. now apply combine_nth_error.
Qed.

Lemma rest_invalid (c : Iterator.t) :
  length (Iterator.keys c) = length (Iterator.vals c) ->
  (0 <= Iterator.idx c)%Z -> Iterator.Valid c = false -> Iterator.rest c = [].
Proof.
  intros Hlen H0 Hv. unfold Iterator.Valid in Hv.
  apply andb_false_iff in Hv as [Hv|Hv];
    [apply Z.leb_gt in Hv; lia | apply Z.ltb_ge in Hv].
  unfold Iterator.rest. apply skipn_all2. rewrite length_combine. lia.
Qed.

(** On a strictly ascending snapshot the key that follows is another
    one: the skip of a duplicate never fires on the iterator that was
    just stepped. *)
Lemma Next_other_key (c : Iterator.t) (k : bytes) :
  StronglySorted bytes_lt (Iterator.keys c) ->
  length (Iterator.keys c) = length (Iterator.vals c) ->
  Iterator.Valid c = true -> Iterator.Key c = Some k ->
  mergedIterator.skip_dup (Some (Iterator.Next c)) k = Some (Iterator.Next c).
Proof.
  intros Hs Hlen Hv Hk. unfold mergedIterator.skip_dup.
  destruct (Iterator.Valid (Iterator.Next c)) eqn:Hv'; [|reflexivity].
  destruct (Iterator_Valid_Key c Hlen Hv) as (k0 & _ & Hk0 & _ & Hnth).
  assert (k0 = k) by congruence. subst k0.
  destruct (Iterator_Valid_Key (Iterator.Next c) Hlen Hv') as (k' & _ & Hk' & _ & Hnth').
  rewrite Hk'. cbn [andb mergedIterator.str].
  destruct (bytes_eqb k' k) eqn:E; [|reflexivity].
  apply bytes_eqb_eq in E. subst k'. exfalso.
  unfold Iterator.Next in Hnth'. cbn [Iterator.keys Iterator.idx] in Hnth'.
  unfold Iterator.Valid in Hv. apply andb_true_iff in Hv as [H0 _].
  apply Z.leb_le in H0.
  replace (Z.to_nat (Iterator.idx c + 1)) with (S (Z.to_nat (Iterator.idx c)))
    in Hnth' by lia.
  now apply (sorted_nth_error_neq _ _ k k Hs Hnth Hnth').
Qed.


Lemma advance_eq (oc oi : option Iterator.t) (ck ik cv iv : option bytes)
    (vld : bool) :
  mergedIterator.advance
    {| mergedIterator.curIt := oc; mergedIterator.immIt := oi;
       mergedIterator.curK := ck; mergedIterator.immK := ik;
       mergedIterator.curV := cv; mergedIterator.immV := iv;
       mergedIterator.valid := vld |}
  = {| mergedIterator.curIt := oc; mergedIterator.immIt := oi;
       mergedIterator.curK := fst (mergedIterator.peek oc);
       mergedIterator.immK := fst (mergedIterator.peek oi);
       mergedIterator.curV := snd (mergedIterator.peek oc);
       mergedIterator.immV := snd (mergedIterator.peek oi);
       mergedIterator.valid :=
         match fst (mergedIterator.peek oc), fst (mergedIterator.peek oi) with
         | None, None => false
         | _, _ => true
         end |}.
Proof.
  unfold mergedIterator.advance.
  cbn [mergedIterator.curIt mergedIterator.immIt].
  destruct (mergedIterator.peek oc) as [a b], (mergedIterator.peek oi) as [a' b'].
  reflexivity.
Qed.

Lemma Next_in_step (i : Iterator.t) :
  Iterator.in_step i -> Iterator.in_step (Iterator.Next i).
Proof. intros [H1 H2]. split; cbn; [assumption|lia]. Qed.

Lemma Next_rest (i : Iterator.t) :
  Iterator.in_step i ->
  length (Iterator.rest (Iterator.Next i)) <= length (Iterator.rest i)
  /\ incl (Iterator.rest (Iterator.Next i)) (Iterator.rest i).
Proof.
  intros [Hlen H0]. destruct (Iterator.Valid i) eqn:Hv.
  - destruct (rest_valid i Hlen Hv) as (k & v & _ & _ & -> & _).
    split; [cbn [length]; lia | apply incl_tl, incl_refl].
  - assert (Iterator.rest (Iterator.Next i) = []) as ->.
    { apply rest_invalid; [assumption|cbn; lia|].
      unfold Iterator.Valid in *. cbn [Iterator.Next Iterator.keys Iterator.idx].
      apply andb_false_iff in Hv as [Hv|Hv];
        [apply Z.leb_gt in Hv; lia | apply Z.ltb_ge in Hv].
      apply andb_false_iff. right. apply Z.ltb_ge. lia. }
    split; [cbn; lia | apply incl_nil_l].
Qed.

Lemma skip_dup_rest (o : option Iterator.t) (ch : bytes) :
  (forall i, o = Some i -> Iterator.in_step i) ->
  (forall i, mergedIterator.skip_dup o ch = Some i -> Iterator.in_step i)
  /\ length (mergedIterator.pending (mergedIterator.skip_dup o ch))
     <= length (mergedIterator.pending o)
  /\ incl (mergedIterator.pending (mergedIterator.skip_dup o ch))
          (mergedIterator.pending o).
Proof.
  intros Hw. destruct o as [i|]; cbn [mergedIterator.skip_dup].
  - specialize (Hw i eq_refl).
    destruct (Iterator.Valid i && _).
    + cbn [mergedIterator.pending]. split; [|now apply Next_rest].
      intros i' [= <-]. now apply Next_in_step.
    + split; [now intros i' [= <-]|]. split; [lia|apply incl_refl].
  - split; [discriminate|]. split; [lia|apply incl_refl].
Qed.

Lemma peek_pending (o : option Iterator.t) :
  (forall i, o = Some i -> Iterator.in_step i) ->
  match mergedIterator.peek o with
  | (Some k, Some v) =>
      exists i, o = Some i /\ Iterator.Valid i = true
                /\ Iterator.Key i = Some k
                /\ Iterator.rest i = (k, v) :: Iterator.rest (Iterator.Next i)
  | (None, None) => mergedIterator.pending o = []
  | _ => False
  end.
Proof.
  intros Hw. destruct o as [i|]; cbn [mergedIterator.peek]; [|reflexivity].
  destruct (Hw i eq_refl) as [Hlen H0].
  destruct (Iterator.Valid i) eqn:Hv.
  - destruct (rest_valid i Hlen Hv) as (k & v & Hk & Hval & Hr & _).
    rewrite Hk, Hval. eauto.
  - cbn [mergedIterator.pending]. now apply rest_invalid.
Qed.

Lemma merged_drain_two (fuel : nat) :
  forall (c : Iterator.t) (oi : option Iterator.t) (ck ik cv iv : option bytes)
         (vld : bool),
    StronglySorted bytes_lt (Iterator.keys c) ->
    Iterator.in_step c ->
    (forall i, oi = Some i -> Iterator.in_step i) ->
    length (Iterator.rest c) + length (mergedIterator.pending oi) < fuel ->
    exists L,
      mergedIterator.drain fuel
        (mergedIterator.advance
           {| mergedIterator.curIt := Some c; mergedIterator.immIt := oi;
              mergedIterator.curK := ck; mergedIterator.immK := ik;
              mergedIterator.curV := cv; mergedIterator.immV := iv;
              mergedIterator.valid := vld |}) = Some L
      /\ length L <= length (Iterator.rest c) + length (mergedIterator.pending oi)
      /\ incl (Iterator.rest c) L
      /\ incl L (Iterator.rest c ++ mergedIterator.pending oi).
Proof.
  induction fuel as [|fuel IH]; intros c oi ck ik cv iv vld Hs Hc Hi Hf; [lia|].
  rewrite advance_eq.
  assert (forall x, Some c = Some x -> Iterator.in_step x) as Hc'
    by (now intros x [= <-]).
  pose proof (peek_pending (Some c) Hc') as Pc.
  pose proof (peek_pending oi Hi) as Pi.
  destruct (mergedIterator.peek (Some c)) as [[k|] [v|]]; try contradiction;
    destruct (mergedIterator.peek oi) as [[k'|] [v'|]]; try contradiction;
    cbn [fst snd mergedIterator.drain mergedIterator.Valid mergedIterator.valid
         mergedIterator.Next mergedIterator.advanceFromCurrentKey negb
         mergedIterator.curK mergedIterator.immK mergedIterator.curV
         mergedIterator.immV mergedIterator.curIt mergedIterator.immIt
         mergedIterator.Key mergedIterator.Value mergedIterator.str].
  - (* both components have a pair *)
    destruct Pc as (c0 & [= <-] & Hvc & Hkc & Hrc).
    destruct Pi as (i & -> & Hvi & Hki & Hri).
    specialize (Hi i eq_refl). cbn [mergedIterator.pending] in *.
    destruct (bytes_leb k k') eqn:Hle.
    + rewrite (Next_other_key c k Hs (proj1 Hc) Hvc Hkc).
      destruct (skip_dup_rest (Some i) k) as (Hw & Hlen & Hincl);
        [now intros x [= <-]|].
      cbn [mergedIterator.pending] in Hlen, Hincl.
      destruct (IH (Iterator.Next c) (mergedIterator.skip_dup (Some i) k)
                  (Some k) (Some k') (Some v) (Some v') true Hs
                  (Next_in_step c Hc) Hw) as (L & -> & HL & Hin & Hout).
      { rewrite Hrc in Hf. cbn [length] in Hf. lia. }
      exists ((k, v) :: L). rewrite Hrc. cbn [length].
      split; [reflexivity|]. split; [lia|]. split.
      * apply incl_cons; [now left | now apply incl_tl].
      * apply incl_cons; [now left|]. cbn [app]. apply incl_tl.
        eapply incl_tran; [exact Hout|].
        apply incl_app; [now apply incl_appl, incl_refl | now apply incl_appr].
    + assert (mergedIterator.skip_dup (Some c) k' = Some c) as ->.
      { unfold mergedIterator.skip_dup. rewrite Hvc, Hkc.
        cbn [andb mergedIterator.str].
        destruct (bytes_eqb k k') eqn:E; [|reflexivity].
        apply bytes_eqb_eq in E. subst k'.
        assert (bytes_leb k k = true) as Hrefl by (apply bytes_leb_le; now right).
        congruence. }
      destruct (skip_dup_rest (Some (Iterator.Next i)) k') as (Hw & Hlen & Hincl);
        [intros x [= <-]; now apply Next_in_step|].
      cbn [mergedIterator.pending] in Hlen, Hincl.
      destruct (IH c (mergedIterator.skip_dup (Some (Iterator.Next i)) k')
                  (Some k) (Some k') (Some v) (Some v') true Hs Hc Hw)
        as (L & -> & HL & Hin & Hout).
      { rewrite Hri in Hf. cbn [length] in Hf. lia. }
      exists ((k, v) :: L). rewrite Hri. cbn [length].
      split; [reflexivity|]. split; [lia|]. split.
      * now apply incl_tl.
      * apply incl_cons; [rewrite Hrc; now left|].
        eapply incl_tran; [exact Hout|].
        apply incl_app; [now apply incl_appl, incl_refl|].
        apply incl_appr. eapply incl_tran; [exact Hincl|]. apply incl_tl, incl_refl.
  - (* only the current table has a pair *)
    destruct Pc as (c0 & [= <-] & Hvc & Hkc & Hrc).
    rewrite (Next_other_key c k Hs (proj1 Hc) Hvc Hkc).
    destruct (skip_dup_rest oi k Hi) as (Hw & Hlen & Hincl).
    destruct (IH (Iterator.Next c) (mergedIterator.skip_dup oi k)
                (Some k) None (Some v) None true Hs (Next_in_step c Hc) Hw)
      as (L & -> & HL & Hin & Hout).
    { rewrite Hrc in Hf. cbn [length] in Hf. lia. }
    exists ((k, v) :: L). rewrite Hrc. cbn [length].
    split; [reflexivity|]. split; [lia|]. split.
    + apply incl_cons; [now left | now apply incl_tl].
    + apply incl_cons; [now left|]. cbn [app]. apply incl_tl.
      eapply incl_tran; [exact Hout|].
      apply incl_app; [now apply incl_appl, incl_refl | now apply incl_appr].
  - (* only the immutable table has a pair *)
    cbn [mergedIterator.pending] in Pc.
    destruct Pi as (i & -> & Hvi & Hki & Hri).
    specialize (Hi i eq_refl). cbn [mergedIterator.pending] in *.
    assert (mergedIterator.skip_dup (Some c) k' = Some c) as ->.
    { unfold mergedIterator.skip_dup.
      assert (Iterator.Valid c = false) as ->; [|reflexivity].
      destruct (Iterator.Valid c) eqn:Hv; [|reflexivity].
      destruct (rest_valid c (proj1 Hc) Hv) as (? & ? & _ & _ & Hr & _).
      congruence. }
    destruct (skip_dup_rest (Some (Iterator.Next i)) k') as (Hw & Hlen & Hincl);
      [intros x [= <-]; now apply Next_in_step|].
    cbn [mergedIterator.pending] in Hlen, Hincl.
    destruct (IH c (mergedIterator.skip_dup (Some (Iterator.Next i)) k')
                None (Some k') None (Some v') true Hs Hc Hw)
      as (L & -> & HL & Hin & Hout).
    { rewrite Hri in Hf. cbn [length] in Hf. lia. }
    exists ((k', v') :: L). rewrite Pc, Hri in *. cbn [length app] in *.
    split; [reflexivity|]. split; [lia|]. split.
    + apply incl_nil_l.
    + apply incl_cons; [now left|]. apply incl_tl.
      eapply incl_tran; [exact Hout|]. eapply incl_tran; [exact Hincl|].
      apply incl_refl.
  - (* neither has *)
    exists []. cbn [mergedIterator.pending] in Pc. rewrite Pc, Pi.
    split; [reflexivity|]. split; [cbn; lia|]. split; apply incl_nil_l.
Qed.

Lemma SeekGE_rest (s : Skiplist.t) (target : bytes) :
  Skiplist.wf s ->
  let it := Iterator.SeekGE (Skiplist.NewIterator s) target in
  Iterator.in_step it
  /\ StronglySorted bytes_lt (Iterator.keys it)
  /\ forall k v,
       In (k, v) (Iterator.rest it)
       <-> Skiplist.Get s k = Some v /\ ~ bytes_lt k target.
Proof.
  intros Hwf it.
  destruct (SeekGE_drain s target Hwf) as (L & Hd & _ & Hin). fold it in Hd.
  assert (Iterator.in_step it /\ StronglySorted bytes_lt (Iterator.keys it))
    as [Hstep Hsorted].
  { subst it. unfold Iterator.SeekGE, Skiplist.NewIterator, Iterator.in_step.
    pose proof (snapshot_length (Skiplist.entries s) (Skiplist.keys s)) as Hlen.
    pose proof (snapshot_sorted (Skiplist.entries s) (Skiplist.keys s)
                  (proj1 Hwf)) as Hso.
    destruct (Skiplist.snapshot _ _) as [keys vals].
    cbn [fst snd Iterator.keys Iterator.vals Iterator.idx Iterator.Next] in *.
    split; [split; [assumption|lia]|assumption]. }
  split; [assumption|]. split; [assumption|].
  assert (Iterator.drain (S (length (Iterator.keys it))) it
          = Some (Iterator.rest it)) as Hd'.
  { destruct Hstep as [Hlen H0]. destruct it as [keys vals idx].
    cbn [Iterator.keys Iterator.vals Iterator.idx] in *.
    unfold Iterator.rest. cbn [Iterator.keys Iterator.vals Iterator.idx].
    rewrite <- (Z2Nat.id idx) at 1 by assumption.
    apply drain_from; [assumption|lia]. }
  rewrite Hd in Hd'. injection Hd' as <-. exact Hin.
Qed.

(** With or without a sealed table, the merged iterator comes to an end
    from any seek and never panics.  It yields every pair of the current
    table whose key is not below the target, and nothing that is not a
    pair of the current or of the sealed table with a key not below the
    target; it has at most as many steps as the two tables have such
    pairs. *)
Theorem mergedIterator_ends_and_keeps_current (th : Z) (ops : list op)
    (target : bytes) :
  let m := Memtable.run ops (Memtable.NewMemtable th) in
  let it := mergedIterator.SeekGE (mergedIterator.NewIterator m) target in
  exists (fuel : nat) (L : list (bytes * bytes)),
    mergedIterator.drain fuel it = Some L
    /\ (forall k v,
          Skiplist.Get (Memtable.current m) k = Some v -> ~ bytes_lt k target ->
          In (k, v) L)
    /\ (forall k v,
          In (k, v) L ->
          ~ bytes_lt k target
          /\ (Skiplist.Get (Memtable.current m) k = Some v
              \/ exists i, Memtable.imm m = Some i /\ Skiplist.Get i k = Some v))
    /\ length L
       <= length (Iterator.rest
                    (Iterator.SeekGE (Skiplist.NewIterator (Memtable.current m)) target))
          + match Memtable.imm m with
            | Some i => length (Iterator.rest
                                  (Iterator.SeekGE (Skiplist.NewIterator i) target))
            | None => 0
            end.
Proof.
  intros m it. pose proof (Memtable_run_wf th ops) as (Hc & Hi & _).
  cbv zeta in Hc, Hi. fold m in Hc, Hi.
  destruct (SeekGE_rest (Memtable.current m) target Hc) as (Hstep & Hso & Hin).
  set (c := Iterator.SeekGE (Skiplist.NewIterator (Memtable.current m)) target) in *.
  set (oi := option_map (fun i => Iterator.SeekGE i target)
               (option_map Skiplist.NewIterator (Memtable.imm m))).
  assert (forall i, oi = Some i -> Iterator.in_step i) as Hoi.
  { intros i. unfold oi. destruct (Memtable.imm m) as [s|]; [|discriminate].
    intros [= <-]. apply (SeekGE_rest s target (Hi s eq_refl)). }
  destruct (merged_drain_two
              (S (length (Iterator.rest c) + length (mergedIterator.pending oi)))
              c oi None None None None false Hso Hstep Hoi ltac:(lia))
    as (L & Hd & Hlen & Hsub & Hsup).
  exists (S (length (Iterator.rest c) + length (mergedIterator.pending oi))), L.
  split; [exact Hd|]. split; [|split].
  - intros k v Hg Hnlt. apply Hsub, Hin. now split.
  - intros k v HL. apply Hsup, in_app_or in HL as [HL|HL].
    + apply Hin in HL as [Hg Hnlt]. split; [assumption|now left].
    + unfold oi in HL. destruct (Memtable.imm m) as [s|]; [|contradiction].
      cbn [option_map mergedIterator.pending] in HL.
      apply (SeekGE_rest s target (Hi s eq_refl)) in HL as [Hg Hnlt].
      split; [assumption|]. right. eauto.
  - unfold oi in Hlen. destruct (Memtable.imm m) as [s|];
      cbn [option_map mergedIterator.pending] in Hlen; exact Hlen.
Qed.

Local Open Scope nat_scope.

(** ** Payloads shorter than the fixed fields *)

(** A frame whose payload is shorter than its 13 bytes of fixed fields
    passes the checksum test when its checksum is right, and [Decode]
    then reads past the end of the buffer. *)
Lemma Decode_short (hl hc pl : bytes) :
  length hl = 4 -> length hc = 4 ->
  BigEndian.Uint32 hl = Z.of_nat (length pl) ->
  BigEndian.Uint32 hc = crc32.ChecksumIEEE pl ->
  length pl < 13 ->
  wal.Decode (wal.exact (hl ++ hc ++ pl)) = Panic.
Proof.
  intros Hl Hc Hlen Hcrc Hshort. unfold wal.Decode, wal.exact.
  cbn [wal.data wal.spare]. rewrite app_nil_r.
  assert (length (hl ++ hc ++ pl) = 8 + length pl) as Hn
    by (rewrite !length_app; lia).
  rewrite Hn.
  destruct (Nat.ltb_spec (8 + length pl) 8); [lia|].
  replace (sub (hl ++ hc ++ pl) 0 4) with hl
    by (symmetry; apply sub_here; [reflexivity|lia]).
  replace (sub (hl ++ hc ++ pl) 4 8) with hc.
  2:{ symmetry. rewrite sub_skip by lia. apply sub_here; lia. }
  rewrite Hlen, uint32_small by lia.
  replace (Z.to_nat (8 + Z.of_nat (length pl))) with (8 + length pl) by lia.
  destruct (Nat.ltb_spec (8 + length pl) (8 + length pl)); [lia|].
  destruct (Nat.ltb_spec (8 + length pl) 8); [lia|].
  replace (sub (hl ++ hc ++ pl) 8 (8 + length pl)) with pl.
  2:{ symmetry. rewrite sub_skip by lia. rewrite sub_skip by lia.
      rewrite <- (app_nil_r pl) at 1. apply sub_here; lia. }
  rewrite Hcrc, Z.eqb_refl. cbn [negb].
  destruct (nth_error (hl ++ hc ++ pl) 8) as [ty|]; [|reflexivity].
  destruct (Nat.ltb_spec (8 + length pl) (8 + 1 + 8)); [reflexivity|].
  destruct (Nat.ltb_spec (8 + length pl) (8 + 1 + 8 + 4)); [reflexivity|lia].
Qed.

(** A checksum does not make a payload well formed.  For every payload
    shorter than the 13 bytes of the type, the sequence number and the
    key length, framed with its true length and its true CRC-32:
    [Decode] panics on the frame, [ReadRecord] panics on a file that
    goes on with it, and [Replay] panics when it comes to it, after the
    records before it have been delivered. *)
Theorem Decode_panics_on_short_payload {St : Type}
    (callback : St -> wal.Record_ -> St * option error)
    (pl rest : bytes) (recs : list wal.Record_) (st st' : St) :
  length pl < 13 ->
  Forall wal.fits recs ->
  Reader.deliver callback st recs = (st', None) ->
  let frame := BigEndian.PutUint32 (Z.of_nat (length pl))
                 ++ BigEndian.PutUint32 (crc32.ChecksumIEEE pl) ++ pl in
  wal.Decode (wal.exact frame) = Panic
  /\ Reader.ReadRecord {| Reader.unread := frame ++ rest |}
     = ({| Reader.unread := rest |}, Panic)
  /\ Reader.Replay callback
       {| Reader.unread := Reader.frames recs ++ frame ++ rest |} st
     = Some (st', Panic).
Proof.
  intros Hshort Hfits Hd frame.
  set (hl := BigEndian.PutUint32 (Z.of_nat (length pl))) in *.
  set (hc := BigEndian.PutUint32 (crc32.ChecksumIEEE pl)) in *.
  assert (BigEndian.Uint32 hl = Z.of_nat (length pl)) as EHl
    by (apply Uint32_Put; lia).
  assert (BigEndian.Uint32 hc = crc32.ChecksumIEEE pl) as EHc
    by (apply Uint32_Put, ChecksumIEEE_word32).
  assert (wal.Decode (wal.exact frame) = Panic) as HD
    by (apply Decode_short; (reflexivity || assumption)).
  assert (Reader.ReadRecord {| Reader.unread := frame ++ rest |}
          = ({| Reader.unread := rest |}, Panic)) as HR.
  { unfold Reader.ReadRecord, frame. rewrite <- !app_assoc.
    rewrite (ReadFull_enough hl _ 4 eq_refl). cbn [Nat.eqb].
    rewrite (ReadFull_enough hc _ 4 eq_refl). cbn [Nat.eqb].
    rewrite EHl, Nat2Z.id.
    rewrite (ReadFull_enough pl rest _ eq_refl).
    assert ((if length pl =? 0 then pl ++ rest else rest) = rest) as ->.
    { destruct (Nat.eqb_spec (length pl) 0) as [E|]; [|reflexivity].
      destruct pl; [reflexivity|discriminate]. }
    rewrite EHc, Z.eqb_refl. cbn [negb].
    rewrite rebuild_frame by (reflexivity || lia).
    fold frame. now rewrite HD. }
  split; [exact HD|]. split; [exact HR|].
  rewrite (Replay_frames callback recs _ st Hfits), Hd.
  pose proof (frames_length recs) as Hlen.
  match goal with
  | |- Reader.loop _ (S ?a - ?c) _ _ _ = _ =>
      assert (exists fuel, S a - c = S fuel) as [fuel ->]
        by (exists (a - c); rewrite length_app; lia)
  end.
  cbn [Reader.loop]. now rewrite HR.
Qed.

Lemma Decode_panics_on_short_payload_witness :
  length (b "abc") < 13
  /\ Reader.Replay collect
       {| Reader.unread :=
            Reader.frames torn_log_records
              ++ (BigEndian.PutUint32 (Z.of_nat (length (b "abc")))
                    ++ BigEndian.PutUint32 (crc32.ChecksumIEEE (b "abc"))
                    ++ b "abc")
              ++ wal.Encode empty_record |} []
     = Some (torn_log_records, Panic).
Proof.
  assert (length (b "abc") < 13) as H by (vm_compute; lia).
  split; [exact H|].
  exact (proj2 (proj2 (Decode_panics_on_short_payload collect (b "abc")
                         (wal.Encode empty_record) torn_log_records []
                         torn_log_records H torn_log_records_fit
                         (deliver_collect torn_log_records [])))).
Defined.

Local Open Scope nat_scope.

(** * The log writer *)

(** ** The buffered writer over a healthy file *)

Lemma os_Write_healthy (f : os.File) (p : bytes) :
  os.healthy f ->
  os.Write f p
  = ({| os.content := os.content f ++ p; os.room := None; os.closed := false |},
     length p, None).
Proof. intros [Hc Hr]. unfold os.Write. now rewrite Hc, Hr. Qed.

Lemma Flush_sound (b : bufio.Writer) :
  bufio.sound b ->
  exists b',
    bufio.Flush b = (b', None)
    /\ bufio.sound b' /\ bufio.buf b' = []
    /\ os.content (bufio.wr b') = bufio.stream b
    /\ bufio.size b' = bufio.size b.
Proof.
  intros [He Hh]. unfold bufio.Flush, bufio.Buffered. rewrite He.
  destruct (Nat.eqb_spec (length (bufio.buf b)) 0) as [E|E].
  - exists b. apply length_zero_iff_nil in E.
    unfold bufio.stream. rewrite E, app_nil_r. repeat split; auto; apply Hh.
  - rewrite (os_Write_healthy _ _ Hh). rewrite Nat.ltb_irrefl.
    eexists. split; [reflexivity|]. repeat split.
Qed.

Lemma Write_loop_S (fuel : nat) (b : bufio.Writer) (p : bytes) (nn : nat) :
  bufio.Write_loop (S fuel) b p nn
  = if bufio.goes_on b p
    then
      if bufio.Buffered b =? 0 then
        let '(f, n, e) := os.Write (bufio.wr b) p in
        bufio.Write_loop fuel
          {| bufio.err := e; bufio.buf := bufio.buf b;
             bufio.size := bufio.size b; bufio.wr := f |}
          (skipn n p) (nn + n)
      else
        let n := Nat.min (bufio.Available b) (length p) in
        let b := {| bufio.err := bufio.err b;
                    bufio.buf := bufio.buf b ++ firstn n p;
                    bufio.size := bufio.size b; bufio.wr := bufio.wr b |} in
        bufio.Write_loop fuel (fst (bufio.Flush b)) (skipn n p) (nn + n)
    else (b, p, nn).
Proof. reflexivity. Qed.

Lemma os_Write_all (f : os.File) (q : bytes) :
  snd (os.Write f q) = None -> skipn (snd (fst (os.Write f q))) q = [].
Proof.
  unfold os.Write. destruct (os.closed f); [discriminate|].
  destruct (os.room f) as [r|].
  - destruct (length q <=? r); [|discriminate]. intros _. apply List.skipn_all.
  - intros _. apply List.skipn_all.
Qed.

(** A turn of the loop on an empty buffer is the last one. *)
Lemma Write_loop_empty (fuel : nat) (b : bufio.Writer) (p : bytes) (nn : nat) :
  bufio.Buffered b = 0 ->
  let '(b', p', _) := bufio.Write_loop (S fuel) b p nn in
  bufio.goes_on b' p' = false.
Proof.
  intros HB. rewrite Write_loop_S. fold (bufio.goes_on b p).
  destruct (bufio.goes_on b p) eqn:C; [|exact C].
  rewrite HB. cbn [Nat.eqb].
  pose proof (os_Write_all (bufio.wr b) p) as Hall.
  destruct (os.Write (bufio.wr b) p) as [[f n] e]. cbn [fst snd] in Hall.
  assert (bufio.goes_on {| bufio.err := e; bufio.buf := bufio.buf b;
                      bufio.size := bufio.size b; bufio.wr := f |}
            (skipn n p) = false) as Hstop.
  { unfold bufio.goes_on. cbn [bufio.err]. destruct e as [e|]; [apply andb_false_r|].
    rewrite (Hall eq_refl). cbn [length].
    now destruct (bufio.Available _). }
  destruct fuel as [|fuel]; [exact Hstop|].
  rewrite Write_loop_S. fold (bufio.goes_on {| bufio.err := e; bufio.buf := bufio.buf b;
                      bufio.size := bufio.size b; bufio.wr := f |} (skipn n p)).
  rewrite Hstop. exact Hstop.
Qed.

Lemma Flush_empties (b : bufio.Writer) :
  bufio.err (fst (bufio.Flush b)) = None ->
  bufio.Buffered (fst (bufio.Flush b)) = 0.
Proof.
  unfold bufio.Flush. destruct (bufio.err b) as [e|] eqn:E1.
  - cbn [fst]. congruence.
  - destruct (bufio.Buffered b =? 0) eqn:B; [intros _; now apply Nat.eqb_eq in B|].
    destruct (os.Write (bufio.wr b) (bufio.buf b)) as [[f n] e].
    destruct e as [e|]; [discriminate|].
    destruct (n <? bufio.Buffered b); [discriminate|]. reflexivity.
Qed.

(** The loop of [Write] has come to its end after two turns: what is
    left of [p] fits into the buffer, or a write has failed. *)
Lemma Write_loop_ends (b : bufio.Writer) (p : bytes) (nn : nat) :
  let '(b', p', _) := bufio.Write_loop 2 b p nn in
  bufio.goes_on b' p' = false.
Proof.
  destruct (bufio.Buffered b =? 0) eqn:B1.
  { apply Nat.eqb_eq in B1. now apply Write_loop_empty. }
  rewrite Write_loop_S. fold (bufio.goes_on b p). rewrite B1.
  destruct (bufio.goes_on b p) eqn:C1; [|exact C1]. cbv zeta.
  set (n := Nat.min (bufio.Available b) (length p)).
  set (b2 := fst (bufio.Flush _)).
  destruct (bufio.err b2) as [e|] eqn:E2.
  - rewrite Write_loop_S. unfold bufio.goes_on. rewrite E2, !andb_false_r.
    now rewrite E2, andb_false_r.
  - apply Write_loop_empty. now apply Flush_empties.
Qed.

Lemma Write_loop_stop (fuel : nat) (b : bufio.Writer) (p : bytes) (nn : nat) :
  bufio.goes_on b p = false -> bufio.Write_loop fuel b p nn = (b, p, nn).
Proof.
  intros H. destruct fuel; [reflexivity|].
  rewrite Write_loop_S. fold (bufio.goes_on b p). now rewrite H.
Qed.

Lemma Write_sound (b : bufio.Writer) (p : bytes) :
  bufio.sound b ->
  exists b',
    bufio.Write b p = (b', length p, None)
    /\ bufio.sound b'
    /\ bufio.stream b' = bufio.stream b ++ p
    /\ bufio.size b' = bufio.size b.
Proof.
  intros [He Hh]. unfold bufio.Write. rewrite Write_loop_S.
  fold (bufio.goes_on b p).
  destruct (bufio.goes_on b p) eqn:C1.
  - apply andb_true_iff in C1 as [C1 _]. apply Nat.ltb_lt in C1.
    destruct (bufio.Buffered b =? 0) eqn:B1.
    + apply Nat.eqb_eq, length_zero_iff_nil in B1.
      rewrite (os_Write_healthy _ _ Hh). cbv beta iota.
      rewrite Write_loop_stop.
      2:{ unfold bufio.goes_on. rewrite List.skipn_all. cbn [length].
          now destruct (bufio.Available _). }
      cbn [bufio.err bufio.buf bufio.size bufio.wr].
      rewrite List.skipn_all, B1. cbn [length]. rewrite Nat.min_0_r.
      cbn [firstn app].
      eexists. split; [f_equal; f_equal; lia|].
      unfold bufio.stream, bufio.sound, os.healthy.
      cbn [bufio.err bufio.buf bufio.size bufio.wr os.content os.closed os.room].
      rewrite B1, !app_nil_r. auto.
    + cbv zeta.
      set (n := Nat.min (bufio.Available b) (length p)).
      assert (n = bufio.Available b) as Hn by (unfold n; lia).
      set (b1 := {| bufio.err := bufio.err b; bufio.buf := _;
                    bufio.size := _; bufio.wr := _ |}).
      destruct (Flush_sound b1) as (b2 & HF & [He2 Hh2] & Hb2 & Hc2 & Hs2);
        [split; [exact He|exact Hh]|].
      rewrite HF. cbn [fst].
      unfold bufio.stream in Hc2.
      cbn [bufio.err bufio.buf bufio.size bufio.wr b1] in Hc2, Hs2.
      rewrite Write_loop_S. fold (bufio.goes_on b2 (skipn n p)).
      assert (bufio.Buffered b2 = 0) as HB2
        by (unfold bufio.Buffered; now rewrite Hb2).
      rewrite HB2. cbn [Nat.eqb].
      destruct (bufio.goes_on b2 (skipn n p)) eqn:C2.
      * rewrite (os_Write_healthy _ _ Hh2). cbv beta iota.
        cbn [bufio.Write_loop bufio.err bufio.buf bufio.size bufio.wr].
        rewrite List.skipn_all, Hb2. cbn [length]. rewrite Nat.min_0_r.
        cbn [firstn app].
        eexists. split.
        { f_equal. f_equal. rewrite length_skipn. lia. }
        unfold bufio.stream, bufio.sound, os.healthy.
        cbn [bufio.err bufio.buf bufio.size bufio.wr os.content os.closed os.room].
        rewrite Hc2, !app_nil_r.
        rewrite <- !app_assoc. rewrite firstn_skipn. auto.
      * unfold bufio.goes_on in C2. rewrite He2, andb_true_r in C2.
        apply Nat.ltb_ge in C2.
        cbn [bufio.Write_loop]. rewrite He2, Hb2.
        rewrite Nat.min_r by exact C2. rewrite List.firstn_all. cbn [app].
        eexists. split.
        { f_equal. f_equal. rewrite length_skipn. lia. }
        unfold bufio.stream, bufio.sound.
        cbn [bufio.err bufio.buf bufio.size bufio.wr].
        rewrite Hc2, <- !app_assoc, firstn_skipn. auto.
  - unfold bufio.goes_on in C1. rewrite He, andb_true_r in C1.
    apply Nat.ltb_ge in C1. rewrite He.
    rewrite Nat.min_r by exact C1. rewrite List.firstn_all.
    eexists. split; [reflexivity|].
    unfold bufio.stream, bufio.sound.
    cbn [bufio.err bufio.buf bufio.size bufio.wr].
    rewrite app_assoc. auto.
Qed.
(** ** The buffered writer over any file *)

Lemma os_Write_spec (f : os.File) (p : bytes) :
  os.content (fst (fst (os.Write f p)))
  = os.content f ++ firstn (snd (fst (os.Write f p))) p
  /\ (snd (os.Write f p) = None -> snd (fst (os.Write f p)) = length p).
Proof.
  unfold os.Write. destruct (os.closed f).
  - cbn [fst snd]. rewrite List.firstn_O, app_nil_r. split; [reflexivity|discriminate].
  - destruct (os.room f) as [r|].
    + destruct (length p <=? r); cbn [fst snd os.content].
      * now rewrite List.firstn_all.
      * split; [reflexivity|discriminate].
    + cbn [fst snd os.content]. now rewrite List.firstn_all.
Qed.

Lemma Flush_holds (b : bufio.Writer) (p all : bytes) :
  bufio.holds b p all ->
  bufio.holds (fst (bufio.Flush b)) p all
  /\ (snd (bufio.Flush b) = None ->
      bufio.err (fst (bufio.Flush b)) = None
      /\ bufio.buf (fst (bufio.Flush b)) = [])
  /\ (bufio.err (fst (bufio.Flush b)) = None -> snd (bufio.Flush b) = None).
Proof.
  unfold bufio.holds, bufio.Flush, bufio.Buffered.
  destruct (bufio.err b) as [e|] eqn:He.
  - cbn [fst snd]. rewrite He. intros H. split; [exact H|].
    split; [discriminate|congruence].
  - destruct (Nat.eqb_spec (length (bufio.buf b)) 0) as [E|E].
    + cbn [fst snd]. rewrite He. intros H. split; [exact H|].
      split; [|reflexivity]. intros _. split; [reflexivity|].
      now apply length_zero_iff_nil.
    + destruct (os_Write_spec (bufio.wr b) (bufio.buf b)) as [Hc Hn].
      destruct (os.Write (bufio.wr b) (bufio.buf b)) as [[f n] e].
      cbn [fst snd] in Hc, Hn. intros H.
      destruct e as [e|].
      * cbn [fst snd bufio.err bufio.wr]. split; [|split; discriminate].
        exists (skipn n (bufio.buf b) ++ p). subst all. unfold bufio.stream.
        rewrite Hc, <- !app_assoc. f_equal. rewrite app_assoc.
        now rewrite firstn_skipn.
      * rewrite (Hn eq_refl), Nat.ltb_irrefl.
        cbn [fst snd bufio.err bufio.wr bufio.buf]. split; [|split; auto].
        subst all. unfold bufio.stream.
        cbn [bufio.err bufio.wr bufio.buf].
        rewrite Hc, (Hn eq_refl), List.firstn_all. now rewrite app_nil_r.
Qed.

Lemma Write_loop_holds (fuel : nat) :
  forall (b : bufio.Writer) (p : bytes) (nn : nat) (all : bytes),
    bufio.holds b p all ->
    bufio.holds (fst (fst (bufio.Write_loop fuel b p nn)))
      (snd (fst (bufio.Write_loop fuel b p nn))) all.
Proof.
  induction fuel as [|fuel IH]; intros b p nn all H; [exact H|].
  rewrite Write_loop_S.
  destruct (bufio.goes_on b p) eqn:C; [|exact H].
  apply andb_true_iff in C as [_ He].
  destruct (bufio.err b) eqn:Eb; [discriminate|]. clear He.
  unfold bufio.holds in H. rewrite Eb in H.
  destruct (Nat.eqb_spec (bufio.Buffered b) 0) as [B|B].
  - apply length_zero_iff_nil in B.
    destruct (os_Write_spec (bufio.wr b) p) as [Hc Hn].
    destruct (os.Write (bufio.wr b) p) as [[f n] e]. cbn [fst snd] in Hc, Hn.
    apply IH. unfold bufio.holds, bufio.stream in *.
    cbn [bufio.err bufio.wr bufio.buf]. rewrite B, app_nil_r in *.
    destruct e as [e|].
    + exists (skipn n p). subst all. rewrite Hc, <- app_assoc.
      now rewrite firstn_skipn.
    + subst all. rewrite Hc, <- app_assoc. now rewrite firstn_skipn.
  - cbv zeta. apply IH. apply Flush_holds.
    unfold bufio.holds, bufio.stream in *.
    cbn [bufio.err bufio.wr bufio.buf].
    subst all. rewrite <- !app_assoc. now rewrite firstn_skipn.
Qed.

Lemma Write_holds (b : bufio.Writer) (p all : bytes) :
  bufio.holds b [] all ->
  bufio.holds (fst (fst (bufio.Write b p))) [] (all ++ p)
  /\ (bufio.err (fst (fst (bufio.Write b p))) = None <-> snd (bufio.Write b p) = None).
Proof.
  intros H.
  assert (bufio.holds b p (all ++ p)) as H0.
  { unfold bufio.holds in *. destruct (bufio.err b).
    - destruct H as [rest ->]. exists (rest ++ p). now rewrite app_assoc.
    - rewrite app_nil_r in H. now subst all. }
  pose proof (Write_loop_holds 2 b p 0 (all ++ p) H0) as HL.
  pose proof (Write_loop_ends b p 0) as Hend.
  unfold bufio.Write.
  destruct (bufio.Write_loop 2 b p 0) as [[b' p'] nn]. cbn [fst snd] in HL.
  unfold bufio.holds in HL. unfold bufio.goes_on in Hend.
  destruct (bufio.err b') as [e|] eqn:Eb'.
  - cbn [fst snd]. unfold bufio.holds. rewrite Eb'. split; [exact HL|].
    split; discriminate.
  - rewrite andb_true_r in Hend. apply Nat.ltb_ge in Hend.
    cbn [fst snd]. unfold bufio.holds, bufio.stream in *.
    cbn [bufio.err bufio.wr bufio.buf].
    rewrite Nat.min_r by exact Hend. rewrite List.firstn_all, app_nil_r.
    split; [|split; reflexivity]. now rewrite app_assoc.
Qed.

(** ** What a run of the log keeps true *)

Lemma frames_app (l l' : list wal.Record_) :
  Reader.frames (l ++ l') = Reader.frames l ++ Reader.frames l'.
Proof. unfold Reader.frames. now rewrite map_app, concat_app. Qed.

Lemma queued_app (ch ch' : list (option wal.Record_)) :
  WAL.queued (ch ++ ch') = WAL.queued ch ++ WAL.queued ch'.
Proof.
  induction ch as [|[r|] ch IH]; cbn [app WAL.queued]; [reflexivity| |exact IH].
  now rewrite IH.
Qed.

Lemma write_batch_holds (batch : list wal.Record_) :
  forall (b : bufio.Writer) (all : bytes),
    bufio.holds b [] all ->
    bufio.holds (WAL.write_batch b batch) [] (all ++ Reader.frames batch).
Proof.
  induction batch as [|r batch IH]; intros b all H.
  - cbn. now rewrite app_nil_r.
  - cbn [WAL.write_batch fold_left]. fold (WAL.write_batch
      (fst (fst (bufio.Write b (wal.Encode r)))) batch).
    change (Reader.frames (r :: batch)) with (wal.Encode r ++ Reader.frames batch).
    rewrite app_assoc. apply IH. now apply Write_holds.
Qed.

(** [flushBatch] gives the batch to the writer and flushes it, and
    touches nothing else. *)
Lemma flushBatch_spec (w : WAL.t) (all : bytes) :
  bufio.holds (WAL.buf w) [] all ->
  let w' := WAL.flushBatch w in
  bufio.holds (WAL.buf w') [] (all ++ Reader.frames (WAL.groupBuf w))
  /\ WAL.groupBuf w' = []
  /\ ((bufio.err (WAL.buf w) = None -> bufio.buf (WAL.buf w) = []) ->
      bufio.err (WAL.buf w') = None -> bufio.buf (WAL.buf w') = [])
  /\ WAL.options w' = WAL.options w /\ WAL.groupCh w' = WAL.groupCh w
  /\ WAL.groupCh_closed w' = WAL.groupCh_closed w
  /\ WAL.barrierCh w' = WAL.barrierCh w /\ WAL.loop w' = WAL.loop w
  /\ WAL.made w' = WAL.made w /\ WAL.signalled w' = WAL.signalled w.
Proof.
  intros H. unfold WAL.flushBatch.
  destruct (Nat.eqb_spec (length (WAL.groupBuf w)) 0) as [E|E].
  - apply length_zero_iff_nil in E. cbv zeta. rewrite E.
    cbn [Reader.frames map concat]. rewrite app_nil_r. repeat split; auto.
  - cbv zeta. cbn [WAL.with_buf WAL.with_groupBuf WAL.buf WAL.groupBuf WAL.options
                   WAL.groupCh WAL.groupCh_closed WAL.barrierCh WAL.loop WAL.made
                   WAL.signalled].
    pose proof (write_batch_holds (WAL.groupBuf w) (WAL.buf w) all H) as HB.
    destruct (Flush_holds _ _ _ HB) as (HF & Hnil & Herr).
    split; [exact HF|]. split; [reflexivity|]. split; [|repeat split].
    intros _ He. now apply Hnil, Herr.
Qed.

Ltac wal_fields :=
  cbn [WAL.buf WAL.options WAL.groupCh WAL.groupCh_closed WAL.groupBuf
       WAL.barrierCh WAL.loop WAL.made WAL.signalled WAL.with_buf
       WAL.with_groupCh WAL.with_groupBuf WAL.with_loop] in *.

Lemma inv_flushBatch (f0 : bytes) (A : list wal.Record_) (w : WAL.t) :
  WAL.inv f0 A w -> WAL.inv f0 A (WAL.flushBatch w).
Proof.
  intros (W & HA & HH & HB & HD & HR).
  destruct (flushBatch_spec w _ HH)
    as (HH' & Hgb & HB' & Ho & Hch & Hcl & _ & Hl & _ & _).
  cbv zeta in *. exists (W ++ WAL.groupBuf w).
  rewrite Hgb, Ho, Hch, Hcl, Hl, frames_app.
  split; [now rewrite HA, <- !app_assoc|].
  split; [now rewrite app_assoc|].
  split; [intros G; apply HB', HB, G|].
  split; [intros G; destruct (HD G) as (_ & ? & ?); auto|].
  intros E. destruct (HR E) as (_ & ? & ?); auto.
Qed.

Lemma flushBatch_fields (w : WAL.t) :
  WAL.groupBuf (WAL.flushBatch w) = []
  /\ WAL.options (WAL.flushBatch w) = WAL.options w
  /\ WAL.groupCh (WAL.flushBatch w) = WAL.groupCh w
  /\ WAL.groupCh_closed (WAL.flushBatch w) = WAL.groupCh_closed w
  /\ WAL.barrierCh (WAL.flushBatch w) = WAL.barrierCh w
  /\ WAL.loop (WAL.flushBatch w) = WAL.loop w
  /\ WAL.made (WAL.flushBatch w) = WAL.made w
  /\ WAL.signalled (WAL.flushBatch w) = WAL.signalled w.
Proof.
  unfold WAL.flushBatch.
  destruct (Nat.eqb_spec (length (WAL.groupBuf w)) 0) as [E|E].
  - apply length_zero_iff_nil in E. repeat split; auto.
  - repeat split.
Qed.

(** Taking a record off the channel into the batch, or a flush request
    off the channel. *)
Lemma inv_receive (f0 : bytes) (A : list wal.Record_) (w : WAL.t)
    (msg : option wal.Record_) (ch : list (option wal.Record_)) :
  WAL.inv f0 A w -> WAL.groupCh w = msg :: ch ->
  WAL.inv f0 A
    (WAL.with_groupBuf (WAL.with_groupCh w ch)
       (WAL.groupBuf w ++ match msg with Some r => [r] | None => [] end)).
Proof.
  intros (W & HA & HH & HB & HD & HR) Hch. exists W. wal_fields.
  rewrite Hch in *. split.
  - rewrite HA. destruct msg; cbn [WAL.queued]; rewrite <- ?app_assoc;
      reflexivity.
  - split; [exact HH|]. split; [exact HB|].
    split; [intros G; now destruct (HD G) as (_ & ? & _)|].
    intros E. now destruct (HR E) as (_ & ? & _).
Qed.

Lemma with_groupBuf_same (w : WAL.t) : WAL.with_groupBuf w (WAL.groupBuf w) = w.
Proof. now destruct w. Qed.

Lemma step_alive (w w' : WAL.t) (a : WAL.action) :
  WAL.step w a = Some w' ->
  WAL.loop w <> WAL.Crashed
  /\ match a with
     | WAL.call_Append rec => WAL.returned (WAL.Append w rec)
     | WAL.call_Sync => WAL.returned (WAL.Sync w)
     | WAL.call_WaitForPending => WAL.returned (WAL.WaitForPending w)
     | WAL.call_Close_channel => WAL.returned (WAL.Close_channel w)
     | WAL.call_Close_file => WAL.returned (WAL.Close_file w)
     | WAL.turn c => WAL.groupCommitLoop w c
     end = Some w'.
Proof.
  unfold WAL.step. destruct (WAL.loop w); try discriminate; now split.
Qed.

Lemma send_inv (f0 : bytes) (A : list wal.Record_) (w w' : WAL.t)
    (msg : option wal.Record_) :
  WAL.inv f0 A w -> WAL.GroupCommit (WAL.options w) = true ->
  WAL.returned (WAL.send w msg) = Some w' ->
  WAL.inv f0 (A ++ match msg with Some r => [r] | None => [] end) w'.
Proof.
  intros (W & HA & HH & HB & HD & HR) G. unfold WAL.send.
  destruct (WAL.groupCh_closed w) eqn:Hc; [discriminate|].
  destruct (100 <=? _); [discriminate|]. intros [= <-].
  exists W. wal_fields. rewrite queued_app, Hc.
  split.
  - rewrite HA, <- !app_assoc. destruct msg; reflexivity.
  - split; [exact HH|]. split; [exact HB|]. split; [congruence|].
    intros E. destruct (HR E) as (_ & _ & ?). discriminate.
Qed.

Lemma Flush_inv (f0 : bytes) (A : list wal.Record_) (w : WAL.t) :
  WAL.inv f0 A w -> WAL.inv f0 A (WAL.with_buf w (fst (bufio.Flush (WAL.buf w)))).
Proof.
  intros (W & HA & HH & HB & HD & HR). exists W. wal_fields.
  destruct (Flush_holds _ _ _ HH) as (HF & Hnil & Herr).
  split; [exact HA|]. split; [exact HF|].
  split; [intros _ He; now apply Hnil, Herr|]. split; assumption.
Qed.

Lemma Sync_inv (f0 : bytes) (A : list wal.Record_) (w w' : WAL.t) :
  WAL.inv f0 A w -> WAL.returned (WAL.Sync w) = Some w' -> WAL.inv f0 A w'.
Proof.
  intros Hinv. unfold WAL.Sync.
  destruct (WAL.GroupCommit (WAL.options w)) eqn:G.
  - intros H. rewrite <- (app_nil_r A). now apply (send_inv f0 A w w' None).
  - pose proof (Flush_inv f0 A w Hinv) as HF.
    destruct (bufio.Flush (WAL.buf w)) as [b [e|]]; intros [= <-]; exact HF.
Qed.

(** Whatever happens to a log keeps the invariant, the record of an
    [Append] joining those appended. *)
Lemma step_inv (f0 : bytes) (A : list wal.Record_) (w w' : WAL.t)
    (a : WAL.action) :
  WAL.inv f0 A w -> WAL.step w a = Some w' ->
  WAL.inv f0 (A ++ WAL.appended [a]) w'.
Proof.
  intros Hinv Hs. apply step_alive in Hs as [Halive Hs].
  destruct a as [rec| | | | |c]; cbn [WAL.appended]; rewrite ?app_nil_r.
  - (* Append *)
    unfold WAL.Append in Hs.
    destruct (WAL.GroupCommit (WAL.options w)) eqn:G.
    + now apply (send_inv f0 A w w' (Some rec)).
    + destruct Hinv as (W & HA & HH & HB & HD & HR).
      destruct (HD G) as (Hgb & Hch & Hl).
      pose proof (Write_holds (WAL.buf w) (wal.Encode rec) _ HH) as [HW _].
      destruct (bufio.Write (WAL.buf w) (wal.Encode rec)) as [[b n] e].
      cbn [fst snd] in HW. injection Hs as <-.
      exists (W ++ [rec]). wal_fields. rewrite Hgb, Hch in *.
      cbn [WAL.queued app] in *. rewrite app_nil_r in *. subst A.
      split; [reflexivity|]. split.
      * rewrite frames_app. cbn [Reader.frames map concat].
        now rewrite app_nil_r, app_assoc.
      * split; [congruence|]. split; [auto|]. congruence.
  - (* Sync *)
    now apply (Sync_inv f0 A w w').
  - (* WaitForPending *)
    unfold WAL.WaitForPending in Hs.
    destruct (WAL.GroupCommit (WAL.options w)) eqn:G; cbn [negb] in Hs.
    + destruct (1 <=? _); [discriminate|]. injection Hs as <-.
      destruct Hinv as (W & HA & HH & HB & HD & HR). exists W. wal_fields.
      split; [exact HA|]. split; [exact HH|]. split; [exact HB|].
      split; [congruence|exact HR].
    + apply (Sync_inv f0 A w w' Hinv).
      destruct (WAL.Sync w); (discriminate || exact Hs).
  - (* Close, the channel *)
    unfold WAL.Close_channel in Hs.
    destruct (WAL.GroupCommit (WAL.options w)) eqn:G.
    + destruct (WAL.groupCh_closed w) eqn:Hc; [discriminate|]. injection Hs as <-.
      destruct Hinv as (W & HA & HH & HB & HD & HR). exists W. wal_fields.
      split; [exact HA|]. split; [exact HH|]. split; [exact HB|].
      split; [congruence|]. intros E. destruct (HR E) as (? & ? & ?). auto.
    + injection Hs as <-. exact Hinv.
  - (* Close, the file *)
    unfold WAL.Close_file in Hs.
    destruct (_ && _); [discriminate|].
    pose proof (Flush_inv f0 A w Hinv) as HF.
    destruct (bufio.Flush (WAL.buf w)) as [b [e|]]; cbn [fst] in HF.
    + injection Hs as <-. exact HF.
    + destruct (os.Close (bufio.wr b)) as [f e] eqn:EC. injection Hs as <-.
      assert (os.content f = os.content (bufio.wr b)) as Hf.
      { unfold os.Close in EC. destruct (os.closed (bufio.wr b));
          injection EC as <- <-; reflexivity. }
      destruct HF as (W & HA & HH & HB & HD & HR). exists W. wal_fields.
      split; [exact HA|]. split; [|split; [exact HB|split; assumption]].
      unfold bufio.holds, bufio.stream in *.
      cbn [bufio.err bufio.buf bufio.wr]. now rewrite Hf.
  - (* a turn of the goroutine *)
    unfold WAL.groupCommitLoop in Hs.
    assert (WAL.GroupCommit (WAL.options w) = true) as G.
    { destruct (WAL.GroupCommit (WAL.options w)) eqn:G; [reflexivity|].
      destruct Hinv as (W & _ & _ & _ & HD & _).
      destruct (HD G) as (_ & _ & Hl). rewrite Hl in Hs. destruct c; discriminate. }
    destruct (WAL.loop w) eqn:El, c; try discriminate.
    + (* start *)
      injection Hs as <-.
      destruct Hinv as (W & HA & HH & HB & HD & HR). exists W. wal_fields.
      split; [exact HA|]. split; [exact HH|]. split; [exact HB|].
      split; [congruence|]. destruct (_ <=? _)%Z; discriminate.
    + (* recv *)
      destruct (WAL.groupCh w) as [|msg ch] eqn:Hch.
      * destruct (WAL.groupCh_closed w) eqn:Hc; [|discriminate].
        injection Hs as <-.
        pose proof (inv_flushBatch f0 A w Hinv) as (W & HA & HH & HB & HD & HR).
        destruct (flushBatch_fields w) as (Hgb & Ho & Hq & Hcl & _).
        exists W. wal_fields. rewrite Hgb, Ho, Hq, Hcl, Hch, Hc in *.
        split; [exact HA|]. split; [exact HH|]. split; [exact HB|].
        split; [congruence|]. auto.
      * pose proof (inv_receive f0 A w msg ch Hinv Hch) as Hrec.
        destruct msg as [rec|].
        -- cbv zeta in Hs. wal_fields.
           assert (WAL.loop (WAL.with_groupBuf (WAL.with_groupCh w ch)
                               (WAL.groupBuf w ++ [rec])) = WAL.Selecting) as El'
             by exact El.
           destruct (10 <=? _); injection Hs as <-;
             [now apply inv_flushBatch | exact Hrec].
        -- rewrite app_nil_r in Hrec. injection Hs as <-.
           apply inv_flushBatch.
           now rewrite <- (with_groupBuf_same (WAL.with_groupCh w ch)).
    + (* tick *)
      injection Hs as <-. now apply inv_flushBatch.
    + (* barrier *)
      destruct (WAL.barrierCh w) as [|d ch]; [discriminate|]. injection Hs as <-.
      destruct Hinv as (W & HA & HH & HB & HD & HR). exists W. wal_fields.
      split; [exact HA|]. split; [exact HH|]. split; [exact HB|].
      split; [congruence|discriminate].
    + (* drain, a receive *)
      destruct (WAL.groupCh w) as [|msg ch] eqn:Hch.
      * destruct (WAL.groupCh_closed w); [|discriminate].
        injection Hs as <-. now apply inv_flushBatch.
      * pose proof (inv_receive f0 A w msg ch Hinv Hch) as Hrec.
        destruct msg as [rec|]; cbv zeta in Hs; injection Hs as <-.
        -- exact Hrec.
        -- rewrite app_nil_r in Hrec. apply inv_flushBatch.
           now rewrite <- (with_groupBuf_same (WAL.with_groupCh w ch)).
    + (* drain, the default *)
      destruct (WAL.groupCh w) as [|msg ch] eqn:Hch; [|discriminate].
      destruct (WAL.groupCh_closed w); [discriminate|]. cbv zeta in Hs.
      injection Hs as <-.
      pose proof (inv_flushBatch f0 A w Hinv) as (W & HA & HH & HB & HD & HR).
      exists W. wal_fields. split; [exact HA|]. split; [exact HH|].
      split; [exact HB|]. split; [|discriminate].
      intros G'. destruct (HD G') as (? & ? & Hl).
      destruct (flushBatch_fields w) as (_ & _ & _ & _ & _ & Hl' & _).
      rewrite Hl', El in Hl. discriminate.
Qed.

Lemma appended_app (tr tr' : list WAL.action) :
  WAL.appended (tr ++ tr') = WAL.appended tr ++ WAL.appended tr'.
Proof.
  induction tr as [|a tr IH]; [reflexivity|].
  destruct a; cbn [app WAL.appended]; now rewrite IH.
Qed.

Lemma run_inv (tr : list WAL.action) :
  forall (f0 : bytes) (A : list wal.Record_) (w w' : WAL.t),
    WAL.inv f0 A w -> WAL.run tr w = Some w' ->
    WAL.inv f0 (A ++ WAL.appended tr) w'.
Proof.
  induction tr as [|a tr IH]; intros f0 A w w' Hinv Hr.
  - injection Hr as <-. cbn [WAL.appended]. now rewrite app_nil_r.
  - cbn [WAL.run] in Hr. destruct (WAL.step w a) as [w1|] eqn:Hs; [|discriminate].
    change (a :: tr) with ([a] ++ tr). rewrite appended_app, app_assoc.
    eapply IH; [|exact Hr]. eapply step_inv; eassumption.
Qed.

Lemma Open_inv (f : os.File) (opts : WAL.Options) (w : WAL.t) :
  WAL.OpenWithOptions (inl f) opts = inl w ->
  WAL.inv (os.content f) [] w.
Proof.
  intros [= <-]. exists []. wal_fields.
  split; [reflexivity|]. split.
  - unfold bufio.holds, bufio.stream, bufio.NewWriterSize.
    cbn [bufio.err bufio.buf bufio.wr Reader.frames map concat].
    now rewrite !app_nil_r.
  - split; [reflexivity|]. split.
    + intros ->. auto.
    + destruct (WAL.GroupCommit opts); discriminate.
Qed.

(** ** What a step leaves as it is *)

Ltac step_cases Hs :=
  repeat match type of Hs with
         | context [match ?x with _ => _ end] =>
             is_var x; destruct x
         | context [if ?c then _ else _] => destruct c eqn:?
         | context [match ?x with _ => _ end] => destruct x eqn:?
         end;
  try discriminate Hs.

Lemma WaitForPending_direct (w w' : WAL.t) :
  WAL.GroupCommit (WAL.options w) = false ->
  WAL.returned (WAL.WaitForPending w) = Some w' ->
  WAL.returned (WAL.Sync w) = Some w'.
Proof.
  intros G. unfold WAL.WaitForPending. rewrite G. cbn [negb].
  now destruct (WAL.Sync w).
Qed.

Lemma step_keeps (w w' : WAL.t) (a : WAL.action) :
  WAL.step w a = Some w' ->
  WAL.options w' = WAL.options w
  /\ (WAL.loop w = WAL.Returned -> WAL.loop w' = WAL.Returned)
  /\ (WAL.loop w' = WAL.Absent <-> WAL.loop w = WAL.Absent).
Proof.
  intros Hs. apply step_alive in Hs as [Halive Hs].
  destruct a as [rec| | | | |c].
  - unfold WAL.Append, WAL.send in Hs. step_cases Hs;
      injection Hs as <-; wal_fields; auto.
  - unfold WAL.Sync, WAL.send in Hs. step_cases Hs;
      injection Hs as <-; wal_fields; auto.
  - destruct (WAL.GroupCommit (WAL.options w)) eqn:G.
    + unfold WAL.WaitForPending in Hs. rewrite G in Hs. cbn [negb] in Hs.
      step_cases Hs; injection Hs as <-; wal_fields; auto.
    + apply WaitForPending_direct in Hs; [|exact G].
      unfold WAL.Sync, WAL.send in Hs. step_cases Hs;
        injection Hs as <-; wal_fields; auto.
  - unfold WAL.Close_channel in Hs. step_cases Hs;
      injection Hs as <-; wal_fields; auto.
  - unfold WAL.Close_file in Hs. step_cases Hs;
      injection Hs as <-; wal_fields; auto.
  - unfold WAL.groupCommitLoop in Hs.
    destruct (flushBatch_fields w) as (_ & Ho & _ & _ & _ & Hl & _).
    destruct (WAL.loop w) eqn:El, c; try discriminate Hs; cbv zeta in Hs.
    + injection Hs as <-. wal_fields.
      split; [reflexivity|]. split; [discriminate|].
      destruct (_ <=? _)%Z; split; discriminate.
    + destruct (WAL.groupCh w) as [|[rec|] ch].
      * destruct (WAL.groupCh_closed w); [|discriminate]. injection Hs as <-.
        wal_fields. rewrite Ho. repeat split; discriminate.
      * destruct (flushBatch_fields
                    (WAL.with_groupBuf (WAL.with_groupCh w ch) (WAL.groupBuf w ++ [rec])))
          as (_ & Ho' & _ & _ & _ & Hl' & _).
        wal_fields.
        destruct (10 <=? _); injection Hs as <-; wal_fields;
          rewrite ?Ho', ?Hl', ?El; repeat split; discriminate.
      * destruct (flushBatch_fields (WAL.with_groupCh w ch))
          as (_ & Ho' & _ & _ & _ & Hl' & _).
        injection Hs as <-. wal_fields. rewrite Ho', Hl', El.
        repeat split; discriminate.
    + injection Hs as <-. rewrite Ho, Hl. repeat split; discriminate.
    + destruct (WAL.barrierCh w); [discriminate|]. injection Hs as <-.
      wal_fields. repeat split; discriminate.
    + destruct (WAL.groupCh w) as [|[rec|] ch].
      * destruct (WAL.groupCh_closed w); [|discriminate]. injection Hs as <-.
        rewrite Ho, Hl. repeat split; discriminate.
      * injection Hs as <-. wal_fields. rewrite El. repeat split; discriminate.
      * destruct (flushBatch_fields (WAL.with_groupCh w ch))
          as (_ & Ho' & _ & _ & _ & Hl' & _).
        injection Hs as <-. wal_fields. rewrite Ho', Hl', El.
        repeat split; discriminate.
    + destruct (WAL.groupCh w); [|discriminate].
      destruct (WAL.groupCh_closed w); [discriminate|]. injection Hs as <-.
      wal_fields. rewrite Ho. repeat split; discriminate.
Qed.

Lemma run_keeps (tr : list WAL.action) :
  forall w w' : WAL.t,
    WAL.run tr w = Some w' ->
    WAL.options w' = WAL.options w
    /\ (WAL.loop w = WAL.Returned -> WAL.loop w' = WAL.Returned)
    /\ (WAL.loop w' = WAL.Absent <-> WAL.loop w = WAL.Absent).
Proof.
  induction tr as [|a tr IH]; intros w w' Hr.
  - injection Hr as <-. tauto.
  - cbn [WAL.run] in Hr. destruct (WAL.step w a) as [w1|] eqn:Hs; [|discriminate].
    destruct (step_keeps _ _ _ Hs) as (Ho & HR & HA).
    destruct (IH _ _ Hr) as (Ho' & HR' & HA').
    split; [congruence|]. split; [auto|]. now rewrite HA'.
Qed.

(** ** A log on a healthy file *)

Lemma write_batch_sound (batch : list wal.Record_) :
  forall b : bufio.Writer,
    bufio.sound b -> bufio.sound (WAL.write_batch b batch).
Proof.
  induction batch as [|r batch IH]; intros b H; [exact H|].
  cbn [WAL.write_batch fold_left].
  fold (WAL.write_batch (fst (fst (bufio.Write b (wal.Encode r)))) batch).
  apply IH. destruct (Write_sound b (wal.Encode r) H) as (b' & -> & Hs & _).
  exact Hs.
Qed.

Lemma flushBatch_sound (w : WAL.t) :
  bufio.sound (WAL.buf w) -> bufio.sound (WAL.buf (WAL.flushBatch w)).
Proof.
  intros H. unfold WAL.flushBatch.
  destruct (length (WAL.groupBuf w) =? 0); [exact H|]. cbv zeta. wal_fields.
  destruct (Flush_sound _ (write_batch_sound (WAL.groupBuf w) _ H))
    as (b' & -> & Hs & _).
  exact Hs.
Qed.

Lemma Sync_sound (w w' : WAL.t) :
  WAL.returned (WAL.Sync w) = Some w' ->
  bufio.sound (WAL.buf w) -> bufio.sound (WAL.buf w').
Proof.
  intros Hs H. unfold WAL.Sync, WAL.send in Hs.
  destruct (Flush_sound _ H) as (b' & HF & Hsound & _). rewrite HF in Hs.
  step_cases Hs; injection Hs as <-; wal_fields; assumption.
Qed.

(** Nothing but the closing of the file makes the writer of a log
    fail on a healthy file. *)
Lemma step_sound (w w' : WAL.t) (a : WAL.action) :
  WAL.step w a = Some w' -> a <> WAL.call_Close_file ->
  bufio.sound (WAL.buf w) -> bufio.sound (WAL.buf w').
Proof.
  intros Hs Ha H. apply step_alive in Hs as [Halive Hs].
  destruct a as [rec| | | | |c].
  - unfold WAL.Append, WAL.send in Hs.
    destruct (Write_sound _ (wal.Encode rec) H) as (b' & HW & Hsound & _).
    rewrite HW in Hs.
    step_cases Hs; injection Hs as <-; wal_fields; assumption.
  - now apply (Sync_sound w w').
  - destruct (WAL.GroupCommit (WAL.options w)) eqn:G.
    + unfold WAL.WaitForPending in Hs. rewrite G in Hs. cbn [negb] in Hs.
      step_cases Hs; injection Hs as <-; wal_fields; assumption.
    + apply WaitForPending_direct in Hs; [|exact G]. now apply (Sync_sound w w').
  - unfold WAL.Close_channel in Hs.
    step_cases Hs; injection Hs as <-; wal_fields; assumption.
  - contradiction.
  - unfold WAL.groupCommitLoop in Hs.
    pose proof (flushBatch_sound w H) as HF.
    destruct (WAL.loop w) eqn:El, c; try discriminate Hs; cbv zeta in Hs.
    + injection Hs as <-. exact H.
    + destruct (WAL.groupCh w) as [|[rec|] ch].
      * destruct (WAL.groupCh_closed w); [|discriminate]. injection Hs as <-.
        exact HF.
      * wal_fields. destruct (10 <=? _); injection Hs as <-; [|exact H].
        now apply flushBatch_sound.
      * injection Hs as <-. now apply flushBatch_sound.
    + injection Hs as <-. exact HF.
    + destruct (WAL.barrierCh w); [discriminate|]. injection Hs as <-. exact H.
    + destruct (WAL.groupCh w) as [|[rec|] ch].
      * destruct (WAL.groupCh_closed w); [|discriminate]. injection Hs as <-.
        exact HF.
      * injection Hs as <-. exact H.
      * injection Hs as <-. now apply flushBatch_sound.
    + destruct (WAL.groupCh w); [|discriminate].
      destruct (WAL.groupCh_closed w); [discriminate|]. injection Hs as <-.
      exact HF.
Qed.

Lemma run_sound (tr : list WAL.action) :
  forall w w' : WAL.t,
    WAL.run tr w = Some w' -> ~ In WAL.call_Close_file tr ->
    bufio.sound (WAL.buf w) -> bufio.sound (WAL.buf w').
Proof.
  induction tr as [|a tr IH]; intros w w' Hr Hno H.
  - now injection Hr as <-.
  - cbn [WAL.run] in Hr. destruct (WAL.step w a) as [w1|] eqn:Hs; [|discriminate].
    apply (IH w1 w' Hr); [intros Hin; apply Hno; now right|].
    apply (step_sound w w1 a Hs); [intros ->; apply Hno; now left|exact H].
Qed.

(** With group commit the file is closed only after the goroutine has
    returned. *)
Lemma run_sound_group (tr : list WAL.action) :
  forall w w' : WAL.t,
    WAL.run tr w = Some w' -> WAL.GroupCommit (WAL.options w) = true ->
    (WAL.loop w <> WAL.Returned -> bufio.sound (WAL.buf w)) ->
    WAL.loop w' <> WAL.Returned -> bufio.sound (WAL.buf w').
Proof.
  induction tr as [|a tr IH]; intros w w' Hr G H.
  - now injection Hr as <-.
  - cbn [WAL.run] in Hr. destruct (WAL.step w a) as [w1|] eqn:Hs; [|discriminate].
    destruct (step_keeps _ _ _ Hs) as (Ho & HR & _).
    apply (IH w1 w' Hr); [congruence|]. intros Hne.
    assert (WAL.loop w <> WAL.Returned) as Hne0 by (intros E; now apply Hne, HR).
    apply (step_sound w w1 a Hs); [|now apply H].
    intros ->. apply step_alive in Hs as [_ Hs]. unfold WAL.Close_file in Hs.
    rewrite G in Hs. destruct (WAL.loop w); try discriminate Hs. now apply Hne0.
Qed.

Lemma Open_sound (f : os.File) (opts : WAL.Options) (w : WAL.t) :
  WAL.OpenWithOptions (inl f) opts = inl w -> os.healthy f ->
  bufio.sound (WAL.buf w) /\ WAL.options w = opts
  /\ WAL.loop w = (if WAL.GroupCommit opts then WAL.Created else WAL.Absent).
Proof. intros [= <-] H. wal_fields. repeat split; apply H. Qed.

(** ** The file of a log *)

Lemma inv_prefix (f0 : bytes) (A : list wal.Record_) (w : WAL.t) :
  WAL.inv f0 A w ->
  exists rest : bytes, f0 ++ Reader.frames A = os.content (WAL.file w) ++ rest.
Proof.
  intros (W & HA & HH & _). rewrite HA, !frames_app.
  unfold bufio.holds, bufio.stream, WAL.file in *.
  destruct (bufio.err (WAL.buf w)).
  - destruct HH as [rest HH]. eexists.
    rewrite app_assoc, HH, <- app_assoc. reflexivity.
  - rewrite app_nil_r in HH. eexists.
    rewrite app_assoc, <- HH, <- !app_assoc. reflexivity.
Qed.

(** Whatever the device does and whatever the run, with or without
    group commit: the file of a log holds, after what [Open] found in
    it, a prefix of the frames of the records appended, in the order of
    their [Append]. *)
Theorem WAL_file_is_prefix (f : os.File) (opts : WAL.Options)
    (tr : list WAL.action) (w0 w : WAL.t) :
  WAL.OpenWithOptions (inl f) opts = inl w0 ->
  WAL.run tr w0 = Some w ->
  exists rest : bytes,
    os.content f ++ Reader.frames (WAL.appended tr)
    = os.content (WAL.file w) ++ rest.
Proof.
  intros Ho Hr. apply inv_prefix.
  pose proof (run_inv tr _ [] w0 w (Open_inv f opts w0 Ho) Hr) as Hinv.
  exact Hinv.
Qed.

Lemma WAL_file_is_prefix_witness :
  exists rest : bytes,
    [] ++ Reader.frames [test_record; empty_record]
    = firstn 40 (wal.Encode test_record) ++ rest.
Proof.
  pose (f := {| os.content := []; os.room := Some 40; os.closed := false |}).
  pose (opts := {| WAL.GroupCommit := false; WAL.GroupCommitMS := 0;
                   WAL.BufferSize := 16 |}).
  pose (tr := [WAL.call_Append test_record; WAL.call_Append empty_record;
               WAL.call_Sync]).
  exact (WAL_file_is_prefix f opts tr
           (WAL.mk (bufio.NewWriterSize f 16) opts [] false [] [] WAL.Absent 0 [])
           (WAL.mk (bufio.mkWriter (Some os.ENOSPC) [] 16
                      (os.mkFile (firstn 40 (wal.Encode test_record)) (Some 0) false))
                   opts [] false [] [] WAL.Absent 0 [])
           eq_refl eq_refl).
Defined.

(** ** Without group commit *)

(** Without group commit and whatever the device does: when [Sync]
    returns [nil], the file holds what [Open] found in it and then the
    frames of all the records appended, in order.  On a healthy file
    that has not been closed, [Append] and [Sync] do return [nil]. *)
Theorem WAL_Sync_nil_means_written (f : os.File) (opts : WAL.Options)
    (tr : list WAL.action) (w0 w : WAL.t) :
  WAL.GroupCommit opts = false ->
  WAL.OpenWithOptions (inl f) opts = inl w0 ->
  WAL.run tr w0 = Some w ->
  (forall w' : WAL.t,
     WAL.Sync w = Returns w' None ->
     os.content (WAL.file w')
     = os.content f ++ Reader.frames (WAL.appended tr))
  /\ (os.healthy f -> ~ In WAL.call_Close_file tr ->
      (exists w', WAL.Sync w = Returns w' None)
      /\ forall rec, exists w', WAL.Append w rec = Returns w' None).
Proof.
  intros G Ho Hr.
  destruct (run_inv tr _ [] w0 w (Open_inv f opts w0 Ho) Hr)
    as (W & HA & HH & _ & HD & _).
  destruct (run_keeps tr w0 w Hr) as (Hopts & _).
  assert (WAL.options w0 = opts) as Ho0 by (now injection Ho as <-).
  assert (WAL.GroupCommit (WAL.options w) = false) as G' by congruence.
  destruct (HD G') as (Hgb & Hch & _). rewrite Hgb, Hch in HA.
  cbn [app WAL.queued] in HA. rewrite app_nil_r in HA. subst W.
  split.
  - intros w'. unfold WAL.Sync. rewrite G'.
    destruct (Flush_holds _ _ _ HH) as (HF & Hnil & _).
    destruct (bufio.Flush (WAL.buf w)) as [b [e|]]; [discriminate|].
    cbn [fst snd] in *. destruct (Hnil eq_refl) as [He Hb].
    intros [= <- _]. unfold WAL.file. wal_fields.
    unfold bufio.holds, bufio.stream in HF. rewrite He, Hb in HF.
    now rewrite !app_nil_r in HF.
  - intros Hh Hno.
    assert (bufio.sound (WAL.buf w)) as Hs.
    { apply (run_sound tr w0 w Hr Hno).
      now apply (Open_sound f opts w0 Ho Hh). }
    split.
    + unfold WAL.Sync. rewrite G'.
      destruct (Flush_sound _ Hs) as (b' & -> & [_ [Hc _]] & _).
      unfold os.Sync. rewrite Hc. eauto.
    + intros rec. unfold WAL.Append. rewrite G'.
      destruct (Write_sound _ (wal.Encode rec) Hs) as (b' & -> & _). eauto.
Qed.

Lemma WAL_Sync_nil_means_written_witness :
  let fr := Reader.frames [test_record; empty_record] in
  let opts := WAL.mkOptions false 0 64 in
  let w := WAL.mk (bufio.mkWriter None (skipn 64 fr) 64
                     (os.mkFile (b "old" ++ firstn 64 fr) None false))
             opts [] false [] [] WAL.Absent 0 [] in
  let w' := WAL.mk (bufio.mkWriter None [] 64
                      (os.mkFile ((b "old" ++ firstn 64 fr) ++ skipn 64 fr)
                         None false))
              opts [] false [] [] WAL.Absent 0 [] in
  WAL.Sync w = Returns w' None
  /\ os.content (WAL.file w') = b "old" ++ fr.
Proof.
  intros fr opts w w'.
  pose (f := {| os.content := b "old"; os.room := None; os.closed := false |}).
  pose (tr := [WAL.call_Append test_record; WAL.call_Append empty_record]).
  assert (WAL.Sync w = Returns w' None) as HS by reflexivity.
  split; [exact HS|].
  exact (proj1 (WAL_Sync_nil_means_written f opts tr
                  (WAL.mk (bufio.NewWriterSize f 64) opts [] false [] []
                     WAL.Absent 0 [])
                  w eq_refl eq_refl eq_refl) w' HS).
Defined.

(** ** With group commit *)

(** The barrier of [WaitForPending] on a healthy file: at the turn in
    which the goroutine closes [done], the file holds what [Open] found
    in it and then the frames of every record appended up to then, in
    the order of their [Append]; nothing is left in the batch or in the
    buffer. *)
Theorem WAL_barrier_writes_everything (f : os.File) (opts : WAL.Options)
    (tr : list WAL.action) (w0 w w' : WAL.t) :
  WAL.OpenWithOptions (inl f) opts = inl w0 ->
  os.healthy f ->
  WAL.run tr w0 = Some w ->
  WAL.groupCommitLoop w WAL.drain_default = Some w' ->
  os.content (WAL.file w')
  = os.content f ++ Reader.frames (WAL.appended tr)
  /\ WAL.groupBuf w' = [] /\ bufio.buf (WAL.buf w') = []
  /\ exists done : nat,
       WAL.loop w = WAL.Draining done
       /\ WAL.signalled w' = done :: WAL.signalled w
       /\ WAL.released w' done = true.
Proof.
  intros Ho Hh Hr Hd.
  pose proof (run_inv tr _ [] w0 w (Open_inv f opts w0 Ho) Hr) as Hinv.
  cbn [app] in Hinv.
  destruct (Open_sound f opts w0 Ho Hh) as (Hs0 & Ho0 & Hl0).
  destruct (run_keeps tr w0 w Hr) as (Hopts & _ & Habs).
  unfold WAL.groupCommitLoop in Hd.
  destruct (WAL.loop w) as [| | |done| |] eqn:El; try discriminate Hd.
  destruct (WAL.groupCh w) eqn:Hch; [|discriminate].
  destruct (WAL.groupCh_closed w) eqn:Hc; [discriminate|]. cbv zeta in Hd.
  injection Hd as <-. unfold WAL.file. wal_fields.
  assert (WAL.GroupCommit (WAL.options w) = true) as G.
  { destruct (WAL.GroupCommit (WAL.options w)) eqn:G; [reflexivity|].
    destruct Hinv as (_ & _ & _ & _ & HD & _). destruct (HD G) as (_ & _ & E).
    congruence. }
  assert (bufio.sound (WAL.buf w)) as Hs.
  { apply (run_sound_group tr w0 w Hr); [congruence|auto|congruence]. }
  pose proof (flushBatch_sound w Hs) as [He _].
  destruct (inv_flushBatch _ _ _ Hinv) as (W & HA & HH & HB & _).
  destruct (flushBatch_fields w) as (Hgb & Hopt & Hq & _ & _ & _ & _ & Hsig).
  rewrite Hgb, Hq, Hch in HA. cbn [app WAL.queued] in HA.
  rewrite app_nil_r in HA. subst W.
  rewrite Hopt in HB. specialize (HB G He).
  unfold bufio.holds, bufio.stream in HH. rewrite He, HB, !app_nil_r in HH.
  split; [exact HH|]. split; [exact Hgb|]. split; [exact HB|].
  exists done. split; [reflexivity|]. split; [now rewrite Hsig|].
  unfold WAL.released. wal_fields. cbn [existsb]. now rewrite Nat.eqb_refl.
Qed.

Lemma WAL_barrier_writes_everything_witness :
  exists w' : WAL.t,
    os.content (WAL.file w') = [] ++ Reader.frames [test_record; empty_record]
    /\ WAL.released w' 0 = true.
Proof.
  pose (f := {| os.content := []; os.room := None; os.closed := false |}).
  pose (tr := [WAL.call_Append test_record; WAL.turn WAL.start;
               WAL.call_WaitForPending; WAL.turn WAL.recv;
               WAL.call_Append empty_record; WAL.turn WAL.barrier;
               WAL.turn WAL.drain_recv]).
  pose (w := WAL.mk (bufio.NewWriterSize f (64 * 1024)) WAL.DefaultOptions []
               false [test_record; empty_record] [] (WAL.Draining 0) 1 []).
  assert (os.healthy f) as Hh by (split; reflexivity).
  destruct (WAL.groupCommitLoop w WAL.drain_default) as [w'|] eqn:E;
    [|discriminate E].
  exists w'.
  destruct (WAL_barrier_writes_everything f WAL.DefaultOptions tr
              (WAL.mk (bufio.NewWriterSize f (64 * 1024)) WAL.DefaultOptions []
                 false [] [] WAL.Created 0 [])
              w w' eq_refl Hh eq_refl E)
    as (Hc & _ & _ & done & Hl & _ & Hrel).
  injection Hl as <-. split; [exact Hc|exact Hrel].
Defined.

Lemma Replay_collect_whole (recs : list wal.Record_) :
  Forall wal.fits recs ->
  Reader.Replay collect {| Reader.unread := Reader.frames recs |} []
  = Some (recs, Ok tt).
Proof.
  intros Hfits. rewrite <- (app_nil_r (Reader.frames recs)).
  rewrite (Replay_frames collect recs [] [] Hfits), deliver_collect.
  pose proof (frames_length recs) as Hlen.
  assert (exists fuel, S (length (Reader.frames recs ++ [])) - length recs = S fuel)
    as [fuel ->].
  { exists (length (Reader.frames recs ++ []) - length recs).
    rewrite length_app. lia. }
  cbn [Reader.loop]. rewrite ReadRecord_empty. reflexivity.
Qed.

(** [Close] on a healthy file that has not been closed before, once the
    goroutine has returned if there is one: it returns [nil], the file
    is closed, and it holds what [Open] found in it and then the frames
    of all the records appended, in order.  If the file was new and the
    records fit their frames, [Replay] on it delivers exactly these
    records, in this order, and returns [nil]. *)
Theorem WAL_Close_then_Replay (f : os.File) (opts : WAL.Options)
    (tr : list WAL.action) (w0 w w' : WAL.t) (e : option error) :
  WAL.OpenWithOptions (inl f) opts = inl w0 ->
  os.healthy f ->
  WAL.run tr w0 = Some w ->
  ~ In WAL.call_Close_file tr ->
  WAL.Close_file w = Returns w' e ->
  e = None
  /\ os.closed (WAL.file w') = true
  /\ os.content (WAL.file w')
     = os.content f ++ Reader.frames (WAL.appended tr)
  /\ (os.content f = [] -> Forall wal.fits (WAL.appended tr) ->
      Reader.Replay collect (WAL.NewReader (WAL.file w')) []
      = Some (WAL.appended tr, Ok tt)).
Proof.
  intros Ho Hh Hr Hno Hc.
  destruct (run_inv tr _ [] w0 w (Open_inv f opts w0 Ho) Hr)
    as (W & HA & HH & _ & HD & HR).
  cbn [app] in HA.
  assert (bufio.sound (WAL.buf w)) as Hs.
  { apply (run_sound tr w0 w Hr Hno). now apply (Open_sound f opts w0 Ho Hh). }
  assert (WAL.groupBuf w = [] /\ WAL.groupCh w = []) as [Hgb Hch].
  { unfold WAL.Close_file in Hc.
    destruct (WAL.GroupCommit (WAL.options w)) eqn:G.
    - cbn [andb] in Hc. destruct (WAL.loop w) eqn:El; try discriminate Hc.
      destruct (HR eq_refl) as (? & ? & _). auto.
    - destruct (HD eq_refl) as (? & ? & _). auto. }
  rewrite Hgb, Hch in HA. cbn [app WAL.queued] in HA. rewrite app_nil_r in HA.
  subst W. unfold WAL.Close_file in Hc.
  destruct (_ && _); [discriminate|].
  destruct (Flush_sound _ Hs) as (b' & HF & [He [Hcl Hroom]] & Hb & Hcont & _).
  rewrite HF in Hc. unfold os.Close in Hc. rewrite Hcl in Hc.
  injection Hc as <- <-. unfold WAL.file. wal_fields.
  cbn [bufio.wr os.closed os.content].
  assert (os.content (bufio.wr b')
          = os.content f ++ Reader.frames (WAL.appended tr)) as Hfile.
  { rewrite Hcont. destruct Hs as [He0 _].
    unfold bufio.holds in HH. rewrite He0 in HH. now rewrite app_nil_r in HH. }
  split; [reflexivity|]. split; [reflexivity|]. split; [exact Hfile|].
  intros Hnew Hfits. unfold WAL.NewReader. cbn [os.content].
  rewrite Hfile, Hnew. cbn [app]. now apply Replay_collect_whole.
Qed.

Lemma WAL_Close_then_Replay_witness :
  let w' := WAL.mk (bufio.mkWriter None [] (Z.to_nat (64 * 1024))
                      (os.mkFile (Reader.frames [test_record; empty_record])
                         None true))
              WAL.DefaultOptions [] true [] [] WAL.Returned 0 [] in
  Reader.Replay collect (WAL.NewReader (WAL.file w')) []
  = Some ([test_record; empty_record], Ok tt).
Proof.
  intros w'.
  pose (f := {| os.content := []; os.room := None; os.closed := false |}).
  pose (tr := [WAL.turn WAL.start; WAL.call_Append test_record;
               WAL.call_Append empty_record; WAL.call_Close_channel;
               WAL.turn WAL.recv; WAL.turn WAL.recv; WAL.turn WAL.recv]).
  pose (w0 := WAL.mk (bufio.NewWriterSize f (64 * 1024)) WAL.DefaultOptions []
                false [] [] WAL.Created 0 []).
  pose (w := WAL.mk (bufio.mkWriter None [] (Z.to_nat (64 * 1024))
                       (os.mkFile (Reader.frames [test_record; empty_record])
                          None false))
               WAL.DefaultOptions [] true [] [] WAL.Returned 0 []).
  assert (os.healthy f) as Hh by (split; reflexivity).
  assert (~ In WAL.call_Close_file tr) as Hno.
  { intros H. cbn in H. repeat (destruct H as [H|H]; [discriminate H|]). exact H. }
  destruct (WAL_Close_then_Replay f WAL.DefaultOptions tr w0 w w' None
              eq_refl Hh eq_refl Hno eq_refl) as (_ & _ & _ & Hrep).
  apply (Hrep eq_refl). exact torn_log_records_fit.
Defined.

(** ** What replay finds in the file of a log *)

Lemma prefix_frames (A : list wal.Record_) :
  forall c rest : bytes,
    c ++ rest = Reader.frames A ->
    c = Reader.frames A
    \/ exists (k : nat) (r : wal.Record_) (n : nat),
         nth_error A k = Some r /\ n < length (wal.Encode r)
         /\ c = Reader.frames (firstn k A) ++ firstn n (wal.Encode r).
Proof.
  induction A as [|r A IH]; intros c rest H.
  - left. cbn in H. now apply app_eq_nil in H as [-> _].
  - change (Reader.frames (r :: A)) with (wal.Encode r ++ Reader.frames A) in *.
    destruct (Nat.lt_ge_cases (length c) (length (wal.Encode r))) as [Hlt|Hge].
    + right. exists 0, r, (length c). split; [reflexivity|]. split; [exact Hlt|].
      cbn [firstn Reader.frames map concat app].
      apply (f_equal (firstn (length c))) in H.
      rewrite List.firstn_app, List.firstn_all, Nat.sub_diag, List.firstn_O,
        app_nil_r in H.
      rewrite List.firstn_app in H.
      replace (length c - length (wal.Encode r)) with 0 in H by lia.
      now rewrite List.firstn_O, app_nil_r in H.
    + assert (c = wal.Encode r ++ skipn (length (wal.Encode r)) c) as Hc.
      { rewrite <- (firstn_skipn (length (wal.Encode r)) c) at 1. f_equal.
        apply (f_equal (firstn (length (wal.Encode r)))) in H.
        rewrite List.firstn_app in H.
        replace (length (wal.Encode r) - length c) with 0 in H by lia.
        rewrite List.firstn_O, app_nil_r in H. rewrite H.
        now rewrite List.firstn_app, List.firstn_all, Nat.sub_diag, List.firstn_O,
          app_nil_r. }
      rewrite Hc, <- app_assoc in H. apply app_inv_head in H.
      destruct (IH _ _ H) as [E|(k & r' & n & Hk & Hn & E)].
      * left. now rewrite Hc, E.
      * right. exists (S k), r', n. split; [exact Hk|]. split; [exact Hn|].
        rewrite Hc, E. cbn [firstn].
        change (Reader.frames (r :: firstn k A))
          with (wal.Encode r ++ Reader.frames (firstn k A)).
        now rewrite <- app_assoc.
Qed.

Lemma Replay_collect_cut (recs : list wal.Record_) (r : wal.Record_) (n : nat) :
  Forall wal.fits recs -> wal.fits r -> n < length (wal.Encode r) ->
  exists res : outcome unit,
    Reader.Replay collect
      {| Reader.unread := Reader.frames recs ++ firstn n (wal.Encode r) |} []
    = Some (recs, res)
    /\ (res = Ok tt \/ (res = Err io_ErrUnexpectedEOF /\ recs = [])).
Proof.
  intros Hfits Hr Hn.
  rewrite (Replay_frames collect recs _ [] Hfits), deliver_collect.
  pose proof (frames_length recs) as Hlen.
  assert (exists fuel, S (length (Reader.frames recs ++ firstn n (wal.Encode r)))
                       - length recs = S fuel) as [fuel ->].
  { exists (length (Reader.frames recs ++ firstn n (wal.Encode r)) - length recs).
    rewrite length_app. lia. }
  cbn [Reader.loop app]. pose proof (ReadRecord_cut r n Hr Hn) as Hcut.
  destruct (Reader.ReadRecord _) as [r' res]. cbn [snd] in Hcut. subst res.
  destruct ((n =? 0) || (n =? 4) || (n =? 8)); [eauto|].
  destruct recs as [|r0 recs]; cbn [length Nat.eqb]; eauto.
Qed.

(** Whatever the device does and whatever the run, with or without
    group commit, as long as the frame of every record appended is
    shorter than [2^32] bytes ([wal.fits]): [Replay] on the file of a
    log that was opened on a new file finds, at any moment, the first
    [k] of the records appended, in their order, for some [k].  It
    returns [nil], or the unexpected-EOF error when it finds no record;
    on such a log it meets no checksum mismatch and does not panic.
    (A frame of [2^32 - 8] bytes of payload or more is another
    matter: [ReadRecord] panics on it, see [ReadRecord_wide_frame].) *)
Theorem WAL_Replay_finds_a_prefix (f : os.File) (opts : WAL.Options)
    (tr : list WAL.action) (w0 w : WAL.t) :
  WAL.OpenWithOptions (inl f) opts = inl w0 ->
  os.content f = [] ->
  Forall wal.fits (WAL.appended tr) ->
  WAL.run tr w0 = Some w ->
  exists (k : nat) (res : outcome unit),
    Reader.Replay collect (WAL.NewReader (WAL.file w)) []
    = Some (firstn k (WAL.appended tr), res)
    /\ (res = Ok tt \/ (res = Err io_ErrUnexpectedEOF /\ k = 0)).
Proof.
  intros Ho Hnew Hfits Hr.
  pose proof (run_inv tr _ [] w0 w (Open_inv f opts w0 Ho) Hr) as Hinv.
  cbn [app] in Hinv. apply inv_prefix in Hinv as [rest Hp].
  rewrite Hnew in Hp. cbn [app] in Hp. symmetry in Hp.
  unfold WAL.NewReader.
  destruct (prefix_frames _ _ _ Hp) as [E|(k & r & n & Hk & Hn & E)]; rewrite E.
  - exists (length (WAL.appended tr)), (Ok tt). rewrite List.firstn_all.
    split; [now apply Replay_collect_whole|now left].
  - assert (Forall wal.fits (firstn k (WAL.appended tr))) as Hfk.
    { rewrite List.Forall_forall in *. intros x Hx. apply Hfits.
      rewrite <- (firstn_skipn k (WAL.appended tr)). apply in_or_app. now left. }
    assert (wal.fits r) as Hfr.
    { rewrite List.Forall_forall in Hfits. apply Hfits.
      now apply nth_error_In in Hk. }
    destruct (Replay_collect_cut _ r n Hfk Hfr Hn) as (res & Hrep & Hres).
    exists k, res. split; [exact Hrep|].
    destruct Hres as [?|[? Hnil]]; [now left|right]. split; [assumption|].
    destruct k; [reflexivity|]. destruct (WAL.appended tr); discriminate.
Qed.

Lemma WAL_Replay_finds_a_prefix_witness :
  exists (k : nat) (res : outcome unit),
    Reader.Replay collect
      {| Reader.unread := wal.Encode test_record
                            ++ firstn 7 (wal.Encode empty_record) |} []
    = Some (firstn k [test_record; empty_record], res)
    /\ (res = Ok tt \/ (res = Err io_ErrUnexpectedEOF /\ k = 0)).
Proof.
  pose (f := {| os.content := []; os.room := Some 50; os.closed := false |}).
  pose (opts := {| WAL.GroupCommit := false; WAL.GroupCommitMS := 0;
                   WAL.BufferSize := 16 |}).
  pose (tr := [WAL.call_Append test_record; WAL.call_Append empty_record;
               WAL.call_Sync]).
  exact (WAL_Replay_finds_a_prefix f opts tr
           (WAL.mk (bufio.NewWriterSize f 16) opts [] false [] [] WAL.Absent 0 [])
           (WAL.mk (bufio.mkWriter (Some os.ENOSPC) [] 16
                      (os.mkFile (wal.Encode test_record
                                    ++ firstn 7 (wal.Encode empty_record))
                         (Some 0) false))
                   opts [] false [] [] WAL.Absent 0 [])
           eq_refl eq_refl torn_log_records_fit eq_refl).
Defined.

(** ** The goroutine of group commit *)

Lemma step_drain_closed (w w' : WAL.t) (a : WAL.action) (done : nat) :
  WAL.GroupCommit (WAL.options w) = true ->
  WAL.loop w = WAL.Draining done -> WAL.groupCh_closed w = true ->
  WAL.step w a = Some w' ->
  WAL.loop w' = WAL.Draining done /\ WAL.groupCh_closed w' = true
  /\ WAL.signalled w' = WAL.signalled w.
Proof.
  intros G El Hc Hs. apply step_alive in Hs as [_ Hs].
  destruct a as [rec| | | | |c].
  - unfold WAL.Append, WAL.send in Hs. rewrite G, Hc in Hs. discriminate.
  - unfold WAL.Sync, WAL.send in Hs. rewrite G, Hc in Hs. discriminate.
  - unfold WAL.WaitForPending in Hs. rewrite G in Hs. cbn [negb] in Hs.
    destruct (1 <=? _); [discriminate|]. injection Hs as <-. wal_fields. auto.
  - unfold WAL.Close_channel in Hs. rewrite G, Hc in Hs. discriminate.
  - unfold WAL.Close_file in Hs. rewrite G, El in Hs. discriminate.
  - unfold WAL.groupCommitLoop in Hs. rewrite El, Hc in Hs.
    destruct (flushBatch_fields w) as (_ & _ & _ & Hcl & _ & Hl & _ & Hsig).
    destruct c; try discriminate Hs.
    + destruct (WAL.groupCh w) as [|[rec|] ch]; cbv zeta in Hs.
      * injection Hs as <-. rewrite Hcl, Hl, Hsig. auto.
      * injection Hs as <-. wal_fields. auto.
      * destruct (flushBatch_fields (WAL.with_groupCh w ch))
          as (_ & _ & _ & Hcl' & _ & Hl' & _ & Hsig').
        injection Hs as <-. rewrite Hcl', Hl', Hsig'. wal_fields. auto.
    + destruct (WAL.groupCh w); discriminate.
Qed.

(** Once the channel is closed while the goroutine drains it for a
    barrier, the goroutine never leaves the drain: in no run does it
    close [done] or return, the [default] of its [select] is never
    ready, and the [Close] that waits for it blocks. *)
Theorem WAL_drain_never_ends_once_closed (tr : list WAL.action) (w w' : WAL.t)
    (done : nat) :
  WAL.GroupCommit (WAL.options w) = true ->
  WAL.loop w = WAL.Draining done ->
  WAL.groupCh_closed w = true ->
  WAL.run tr w = Some w' ->
  WAL.loop w' = WAL.Draining done
  /\ WAL.signalled w' = WAL.signalled w
  /\ WAL.groupCommitLoop w' WAL.drain_default = None
  /\ WAL.Close_file w' = Blocks.
Proof.
  revert w. induction tr as [|a tr IH]; intros w G El Hc Hr.
  - injection Hr as <-. split; [exact El|]. split; [reflexivity|].
    unfold WAL.groupCommitLoop, WAL.Close_file. rewrite El, Hc, G.
    split; [now destruct (WAL.groupCh w)|reflexivity].
  - cbn [WAL.run] in Hr. destruct (WAL.step w a) as [w1|] eqn:Hs; [|discriminate].
    destruct (step_drain_closed w w1 a done G El Hc Hs) as (El1 & Hc1 & Hsig).
    destruct (step_keeps _ _ _ Hs) as (Ho & _).
    rewrite <- Hsig. apply IH; congruence.
Qed.

Lemma WAL_drain_never_ends_once_closed_witness :
  let f := {| os.content := []; os.room := None; os.closed := false |} in
  let w0 := WAL.mk (bufio.NewWriterSize f (64 * 1024)) WAL.DefaultOptions []
              false [] [] WAL.Created 0 [] in
  exists w w' : WAL.t,
    WAL.run [WAL.turn WAL.start; WAL.call_WaitForPending; WAL.turn WAL.barrier;
             WAL.call_Close_channel] w0 = Some w
    /\ WAL.run [WAL.turn WAL.drain_recv; WAL.turn WAL.drain_recv] w = Some w'
    /\ WAL.released w' 0 = false
    /\ WAL.Close_file w' = Blocks.
Proof.
  intros f w0.
  pose (w := WAL.mk (bufio.NewWriterSize f (64 * 1024)) WAL.DefaultOptions []
               true [] [] (WAL.Draining 0) 1 []).
  exists w, w.
  assert (WAL.run [WAL.turn WAL.drain_recv; WAL.turn WAL.drain_recv] w = Some w)
    as Hr by reflexivity.
  split; [reflexivity|]. split; [exact Hr|]. split; [reflexivity|].
  exact (proj2 (proj2 (proj2 (WAL_drain_never_ends_once_closed
                                [WAL.turn WAL.drain_recv; WAL.turn WAL.drain_recv]
                                w w 0 eq_refl eq_refl eq_refl Hr)))).
Defined.

Lemma step_batch (w w' : WAL.t) (a : WAL.action) :
  WAL.step w a = Some w' ->
  match WAL.loop w with
  | WAL.Draining _ => True
  | _ => length (WAL.groupBuf w) < 10
  end ->
  match WAL.loop w' with
  | WAL.Draining _ => True
  | _ => length (WAL.groupBuf w') < 10
  end.
Proof.
  intros Hs H. apply step_alive in Hs as [Halive Hs].
  destruct a as [rec| | | | |c].
  - unfold WAL.Append, WAL.send in Hs. step_cases Hs;
      injection Hs as <-; wal_fields; exact H.
  - unfold WAL.Sync, WAL.send in Hs. step_cases Hs;
      injection Hs as <-; wal_fields; exact H.
  - destruct (WAL.GroupCommit (WAL.options w)) eqn:G.
    + unfold WAL.WaitForPending in Hs. rewrite G in Hs. cbn [negb] in Hs.
      step_cases Hs; injection Hs as <-; wal_fields; exact H.
    + apply WaitForPending_direct in Hs; [|exact G].
      unfold WAL.Sync, WAL.send in Hs. step_cases Hs;
        injection Hs as <-; wal_fields; exact H.
  - unfold WAL.Close_channel in Hs. step_cases Hs;
      injection Hs as <-; wal_fields; exact H.
  - unfold WAL.Close_file in Hs. step_cases Hs;
      injection Hs as <-; wal_fields; exact H.
  - unfold WAL.groupCommitLoop in Hs.
    destruct (flushBatch_fields w) as (Hgb & _ & _ & _ & _ & Hl & _).
    destruct (WAL.loop w) eqn:El, c; try discriminate Hs; cbv zeta in Hs.
    + injection Hs as <-. wal_fields. now destruct (_ <=? _)%Z.
    + destruct (WAL.groupCh w) as [|[rec|] ch].
      * destruct (WAL.groupCh_closed w); [|discriminate]. injection Hs as <-.
        wal_fields. rewrite Hgb. cbn. lia.
      * destruct (flushBatch_fields
                    (WAL.with_groupBuf (WAL.with_groupCh w ch) (WAL.groupBuf w ++ [rec])))
          as (Hgb' & _ & _ & _ & _ & Hl' & _).
        wal_fields.
        destruct (Nat.leb_spec 10 (length (WAL.groupBuf w ++ [rec])));
          injection Hs as <-; wal_fields.
        -- rewrite Hl', Hgb', El. cbn. lia.
        -- rewrite El. assumption.
      * destruct (flushBatch_fields (WAL.with_groupCh w ch))
          as (Hgb' & _ & _ & _ & _ & Hl' & _).
        injection Hs as <-. wal_fields. rewrite Hl', Hgb', El. cbn. lia.
    + injection Hs as <-. rewrite Hl, Hgb. cbn. lia.
    + destruct (WAL.barrierCh w); [discriminate|]. injection Hs as <-.
      wal_fields. exact I.
    + destruct (WAL.groupCh w) as [|[rec|] ch].
      * destruct (WAL.groupCh_closed w); [|discriminate]. injection Hs as <-.
        now rewrite Hl.
      * injection Hs as <-. wal_fields. now rewrite El.
      * destruct (flushBatch_fields (WAL.with_groupCh w ch))
          as (_ & _ & _ & _ & _ & Hl' & _).
        injection Hs as <-. rewrite Hl'. wal_fields. now rewrite El.
    + destruct (WAL.groupCh w); [|discriminate].
      destruct (WAL.groupCh_closed w); [discriminate|]. injection Hs as <-.
      wal_fields. rewrite Hgb. cbn. lia.
Qed.

(** The batch is written when its tenth record comes in: whenever the
    goroutine is not in the drain of a barrier, the batch holds fewer
    than ten records; and without group commit it holds none. *)
Theorem WAL_batch_below_ten (f : os.File) (opts : WAL.Options)
    (tr : list WAL.action) (w0 w : WAL.t) :
  WAL.OpenWithOptions (inl f) opts = inl w0 ->
  WAL.run tr w0 = Some w ->
  match WAL.loop w with
  | WAL.Draining _ => True
  | WAL.Absent => WAL.groupBuf w = []
  | _ => length (WAL.groupBuf w) < 10
  end.
Proof.
  intros Ho Hr.
  assert (match WAL.loop w with
          | WAL.Draining _ => True
          | _ => length (WAL.groupBuf w) < 10
          end) as Hb.
  { assert (match WAL.loop w0 with
            | WAL.Draining _ => True
            | _ => length (WAL.groupBuf w0) < 10
            end) as H0.
    { injection Ho as <-. wal_fields. destruct (WAL.GroupCommit opts); cbn; lia. }
    clear Ho. revert w0 Hr H0. induction tr as [|a tr IH]; intros w0 Hr H0.
    - now injection Hr as <-.
    - cbn [WAL.run] in Hr.
      destruct (WAL.step w0 a) as [w1|] eqn:Hs; [|discriminate].
      apply (IH w1 Hr). now apply (step_batch w0 w1 a). }
  destruct (WAL.loop w) eqn:El; try exact Hb.
  destruct (run_inv tr _ [] w0 w (Open_inv f opts w0 Ho) Hr)
    as (_ & _ & _ & _ & HD & _).
  destruct (run_keeps tr w0 w Hr) as (Hopts & _ & Habs).
  assert (WAL.GroupCommit (WAL.options w) = false) as G.
  { rewrite Hopts. injection Ho as <-. wal_fields.
    destruct (WAL.GroupCommit opts) eqn:G; [|reflexivity].
    rewrite El in Habs. destruct Habs as [Habs _]. specialize (Habs eq_refl).
    wal_fields. discriminate. }
  now destruct (HD G).
Qed.

Lemma WAL_batch_below_ten_witness :
  let f := {| os.content := []; os.room := None; os.closed := false |} in
  let w := WAL.mk (bufio.NewWriterSize f (64 * 1024)) WAL.DefaultOptions
             [Some empty_record] false [test_record] [] WAL.Selecting 0 [] in
  length (WAL.groupBuf w) < 10.
Proof.
  intros f w.
  exact (WAL_batch_below_ten f WAL.DefaultOptions
           [WAL.turn WAL.start; WAL.call_Append test_record;
            WAL.call_Append empty_record; WAL.turn WAL.recv]
           (WAL.mk (bufio.NewWriterSize f (64 * 1024)) WAL.DefaultOptions []
              false [] [] WAL.Created 0 [])
           w eq_refl eq_refl).
Defined.
